(** * The TDS token stream parser of tedious (src/token/stream-parser.ts)

    A shallow embedding of the [Parser] class: the byte window and its
    cursor, the suspension mechanism ([suspend] / [awaitData]), the
    primitive and length-prefixed readers, the dispatch loop
    ([parseTokens]) and the stream entry point ([_transform]). *)

From Stdlib Require Import ZArith List Bool Lia Arith String.
From Stdlib Require Import Strings.Byte.
Import ListNotations.

Local Open Scope Z_scope.

(** ** JavaScript numbers

    Every number the parser computes is an integer-valued double.  Such a
    value is represented by the integer itself; an arithmetic operation
    returns the exact result rounded to the nearest double (53-bit
    significand, ties to even).  All magnitudes that occur stay below
    2^128, far from the overflow threshold of a double. *)
Module JS.

Definition number := Z.

(** The double nearest to the integer [z] (round half to even). *)
Definition round53 (z : Z) : number :=
  if Z.abs z <=? 2 ^ 53 then z
  else
    let e := Z.log2 (Z.abs z) - 52 in
    let q := Z.abs z / 2 ^ e in
    let r := Z.abs z mod 2 ^ e in
    let half := 2 ^ (e - 1) in
    let q' := if (half <? r) || ((r =? half) && Z.odd q) then q + 1 else q in
    Z.sgn z * (q' * 2 ^ e).

(** [a + b], [a * b] and [Math.pow(2, n)] on numbers. *)
Definition add (a b : number) : number := round53 (a + b).
Definition mul (a b : number) : number := round53 (a * b).
Definition pow2 (n : Z) : number := 2 ^ n.

(** ToInt32, and the 32-bit operators [|], [&] and [<<]. *)
Definition toInt32 (a : number) : Z := (a + 2 ^ 31) mod 2 ^ 32 - 2 ^ 31.
Definition bor (a b : number) : number := toInt32 (Z.lor (toInt32 a) (toInt32 b)).
Definition band (a b : number) : number := toInt32 (Z.land (toInt32 a) (toInt32 b)).
Definition shl (a b : number) : number := toInt32 (Z.shiftl (toInt32 a) (b mod 32)).

(** A JavaScript string is a sequence of UTF-16 code units. *)
Definition jsstring := list Z.

Definition of_ascii (s : string) : jsstring :=
  map (fun c => Z.of_N (Ascii.N_of_ascii c)) (list_ascii_of_string s).

End JS.

(** ** Node's [Buffer]

    A buffer is a sequence of bytes.  The readers below are the methods of
    Node's [Buffer] that the parser calls.  Node raises a RangeError for an
    offset outside the buffer; the parser only reads behind an [awaitData]
    (or the loop condition of [parseTokens]) that has checked the length, and
    the model returns the bytes that are there, with 0 for absent ones. *)
Module Buffer.

Definition t := list byte.

(** [buf[i]] as a number. *)
Definition get (buf : t) (i : nat) : Z := Z.of_N (Byte.to_N (nth i buf x00)).

Definition readUInt8 (buf : t) (offset : nat) : JS.number := get buf offset.

Definition readUInt16LE (buf : t) (offset : nat) : JS.number :=
  get buf offset + 2 ^ 8 * get buf (offset + 1).

Definition readUInt16BE (buf : t) (offset : nat) : JS.number :=
  2 ^ 8 * get buf offset + get buf (offset + 1).

Definition readUInt32LE (buf : t) (offset : nat) : JS.number :=
  get buf offset + 2 ^ 8 * get buf (offset + 1)
  + 2 ^ 16 * get buf (offset + 2) + 2 ^ 24 * get buf (offset + 3).

Definition readUInt32BE (buf : t) (offset : nat) : JS.number :=
  2 ^ 24 * get buf offset + 2 ^ 16 * get buf (offset + 1)
  + 2 ^ 8 * get buf (offset + 2) + get buf (offset + 3).

(** Two's complement reading of an unsigned [w]-bit value. *)
Definition signed (w : Z) (u : Z) : Z := if u <? 2 ^ (w - 1) then u else u - 2 ^ w.

Definition readInt8 (buf : t) (offset : nat) : JS.number := signed 8 (readUInt8 buf offset).
Definition readInt16LE (buf : t) (offset : nat) : JS.number := signed 16 (readUInt16LE buf offset).
Definition readInt16BE (buf : t) (offset : nat) : JS.number := signed 16 (readUInt16BE buf offset).
Definition readInt32LE (buf : t) (offset : nat) : JS.number := signed 32 (readUInt32LE buf offset).
Definition readInt32BE (buf : t) (offset : nat) : JS.number := signed 32 (readUInt32BE buf offset).

(** [buf.slice(start, end)] and [buf.slice(start)]. *)
Definition slice (buf : t) (start stop : nat) : t := firstn (stop - start) (skipn start buf).
Definition slice_from (buf : t) (start : nat) : t := skipn start buf.

(** [Buffer.concat([a, b])]. *)
Definition concat (a b : t) : t := a ++ b.

(** [buf.toString('ucs2')]: one UTF-16 code unit per pair of bytes, low
    byte first; a trailing odd byte is dropped. *)
Fixpoint toString_ucs2 (buf : t) : JS.jsstring :=
  match buf with
  | lo :: hi :: rest =>
      (Z.of_N (Byte.to_N lo) + 2 ^ 8 * Z.of_N (Byte.to_N hi)) :: toString_ucs2 rest
  | _ => []
  end.

End Buffer.

(** ** Tokens, parser state and continuations *)

(** The sub-kinds of an ENVCHANGE token. *)
Inductive EnvChangeType :=
| DATABASE | LANGUAGE | CHARSET | PACKET_SIZE | BEGIN_TXN | COMMIT_TXN
| ROLLBACK_TXN | DATABASE_MIRRORING_PARTNER | RESET_CONNECTION | ROUTING_CHANGE.

Section TokenStreamParser.

(** [Column] is a column descriptor and [Value] a payload the parser never
    looks into (TypeScript's [any]); [Options] is [ConnectionOptions]. *)
Context {Column Value Options : Type}.

(** The union type [Token]; the variant is the [name] field. *)
Inductive Token :=
| COLMETADATA (columns : list Column)
| DONE
| DONEINPROC
| DONEPROC
| ENVCHANGE (type : EnvChangeType) (oldValue newValue : Value)
| FEATUREEXTACK (fedAuth : option Buffer.t)
| FEDAUTHINFO (spn stsurl : option JS.jsstring)
| INFO (number state class : JS.number) (message serverName procName : JS.jsstring)
       (lineNumber : JS.number)
| ERROR (number state class : JS.number) (message serverName procName : JS.jsstring)
        (lineNumber : JS.number)
| LOGINACK (interface tdsVersion progName : JS.jsstring) (progVersion : Value)
| NBCROW (columns : list Value)
| ORDER (orderColumns : list JS.number)
| RETURNSTATUS (value : JS.number)
| RETURNVALUE (paramOrdinal : JS.number) (paramName : JS.jsstring) (metadata value : Value)
| ROW (columns : Value)
| SSPICHALLENGE (ntlmpacket : Value) (ntlmpacketBuffer : Buffer.t)
| EOM.

(** [new Error('Unknown type: ' + type)]. *)
Inductive Error := UnknownType (type : JS.number).

(** One call of a registered token parser, as the dispatch loop makes it:
    the tag, the [colMetadata] passed and the number of tokens pushed
    before the call. *)
Record Dispatch := mkDispatch {
  d_type : JS.number;
  d_colMetadata : list Column;
  d_pushed : nat
}.

(** The fields of a parser that callbacks read and write, with what the
    instance has sent to its collaborators: the tokens pushed to the
    readable side ([this.push], [done(null, token)]), the 'error' events
    delivered to listeners, and the calls made to token parsers.
    [errorListener] tells whether an 'error' listener is attached to the
    stream. *)
Record Store := mkStore {
  buffer : Buffer.t;
  position : nat;
  colMetadata : list Column;
  options : Options;
  errorListener : bool;
  pushed : list Token;
  errors : list Error;
  dispatched : list Dispatch
}.

Definition set_buffer (b : Buffer.t) (this : Store) : Store :=
  mkStore b (position this) (colMetadata this) (options this) (errorListener this)
          (pushed this) (errors this) (dispatched this).

Definition set_position (n : nat) (this : Store) : Store :=
  mkStore (buffer this) n (colMetadata this) (options this) (errorListener this)
          (pushed this) (errors this) (dispatched this).

Definition set_colMetadata (c : list Column) (this : Store) : Store :=
  mkStore (buffer this) (position this) c (options this) (errorListener this)
          (pushed this) (errors this) (dispatched this).

(** [this.push(token)]. *)
Definition push (token : Token) (this : Store) : Store :=
  mkStore (buffer this) (position this) (colMetadata this) (options this) (errorListener this)
          (pushed this ++ [token]) (errors this) (dispatched this).

Definition log_error (e : Error) (this : Store) : Store :=
  mkStore (buffer this) (position this) (colMetadata this) (options this) (errorListener this)
          (pushed this) (errors this ++ [e]) (dispatched this).

Definition log_dispatch (d : Dispatch) (this : Store) : Store :=
  mkStore (buffer this) (position this) (colMetadata this) (options this) (errorListener this)
          (pushed this) (errors this) (dispatched this ++ [d]).

(** What a call of a callback leaves behind: it returned without touching
    [suspended] and [next], or it reached [this.suspend(next)] where [next]
    is the closure [() => this.awaitData(length, callback)], the only one
    the class ever stores. *)
Inductive Outcome :=
| Returned (this : Store)
| Suspended (this : Store) (length : nat) (callback : Store -> Outcome).

(** A callback: code run on the parser. *)
Definition Act := Store -> Outcome.

(** The stored closure [() => { this.awaitData(length, callback); }]. *)
Inductive Thunk := RetryAwait (length : nat) (callback : Act).

Record Parser := mkParser {
  store :> Store;
  suspended : bool;
  next : option Thunk
}.

(** [constructor(debug, colMetadata, options)]. *)
Definition new_Parser (colMetadata : list Column) (options : Options) : Parser :=
  mkParser (mkStore [] 0 colMetadata options false [] [] []) false None.

(** [parser.on('error', listener)]. *)
Definition on_error (this : Parser) : Parser :=
  mkParser (mkStore (buffer this) (position this) (colMetadata this) (options this) true
                    (pushed this) (errors this) (dispatched this))
           (suspended this) (next this).

(** The effect of an outcome on the instance. *)
Definition settle (o : Outcome) (this : Parser) : Parser :=
  match o with
  | Returned s => mkParser s (suspended this) (next this)
  | Suspended s length callback => mkParser s true (Some (RetryAwait length callback))
  end.

(** ** suspend and awaitData *)

(** [suspend(next)] with [next = () => this.awaitData(length, callback)]:
    the two assignments, [this.suspended = true] and [this.next = next], are
    what [settle] does with the outcome. *)
Definition suspend (length : nat) (callback : Act) : Act :=
  fun this => Suspended this length callback.

Definition awaitData (length : nat) (callback : Act) : Act :=
  fun this =>
    if (position this + length <=? List.length (buffer this))%nat
    then callback this
    else suspend length callback this.

(** [this.next.call(null)]. *)
Definition call (next : Thunk) : Act :=
  match next with RetryAwait length callback => awaitData length callback end.

(** ** Fixed-width readers *)

Definition readInt8 (callback : JS.number -> Act) : Act :=
  awaitData 1 (fun this =>
    let data := Buffer.readInt8 (buffer this) (position this) in
    callback data (set_position (position this + 1) this)).

Definition readUInt8 (callback : JS.number -> Act) : Act :=
  awaitData 1 (fun this =>
    let data := Buffer.readUInt8 (buffer this) (position this) in
    callback data (set_position (position this + 1) this)).

Definition readInt16LE (callback : JS.number -> Act) : Act :=
  awaitData 2 (fun this =>
    let data := Buffer.readInt16LE (buffer this) (position this) in
    callback data (set_position (position this + 2) this)).

Definition readInt16BE (callback : JS.number -> Act) : Act :=
  awaitData 2 (fun this =>
    let data := Buffer.readInt16BE (buffer this) (position this) in
    callback data (set_position (position this + 2) this)).

Definition readUInt16LE (callback : JS.number -> Act) : Act :=
  awaitData 2 (fun this =>
    let data := Buffer.readUInt16LE (buffer this) (position this) in
    callback data (set_position (position this + 2) this)).

Definition readUInt16BE (callback : JS.number -> Act) : Act :=
  awaitData 2 (fun this =>
    let data := Buffer.readUInt16BE (buffer this) (position this) in
    callback data (set_position (position this + 2) this)).

Definition readInt32LE (callback : JS.number -> Act) : Act :=
  awaitData 4 (fun this =>
    let data := Buffer.readInt32LE (buffer this) (position this) in
    callback data (set_position (position this + 4) this)).

Definition readInt32BE (callback : JS.number -> Act) : Act :=
  awaitData 4 (fun this =>
    let data := Buffer.readInt32BE (buffer this) (position this) in
    callback data (set_position (position this + 4) this)).

Definition readUInt32LE (callback : JS.number -> Act) : Act :=
  awaitData 4 (fun this =>
    let data := Buffer.readUInt32LE (buffer this) (position this) in
    callback data (set_position (position this + 4) this)).

Definition readUInt32BE (callback : JS.number -> Act) : Act :=
  awaitData 4 (fun this =>
    let data := Buffer.readUInt32BE (buffer this) (position this) in
    callback data (set_position (position this + 4) this)).

Definition readInt64LE (callback : JS.number -> Act) : Act :=
  awaitData 8 (fun this =>
    let data :=
      JS.add (JS.mul (JS.pow2 32) (Buffer.readInt32LE (buffer this) (position this + 4)))
             (JS.mul (if JS.band (Buffer.get (buffer this) (position this + 4)) 128 =? 128
                      then 1 else -1)
                     (Buffer.readUInt32LE (buffer this) (position this))) in
    callback data (set_position (position this + 8) this)).

Definition readInt64BE (callback : JS.number -> Act) : Act :=
  awaitData 8 (fun this =>
    let data :=
      JS.add (JS.mul (JS.pow2 32) (Buffer.readInt32BE (buffer this) (position this)))
             (JS.mul (if JS.band (Buffer.get (buffer this) (position this)) 128 =? 128
                      then 1 else -1)
                     (Buffer.readUInt32BE (buffer this) (position this + 4))) in
    callback data (set_position (position this + 8) this)).

Definition readUInt64LE (callback : JS.number -> Act) : Act :=
  awaitData 8 (fun this =>
    let data :=
      JS.add (JS.mul (JS.pow2 32) (Buffer.readUInt32LE (buffer this) (position this + 4)))
             (Buffer.readUInt32LE (buffer this) (position this)) in
    callback data (set_position (position this + 8) this)).

Definition readUInt64BE (callback : JS.number -> Act) : Act :=
  awaitData 8 (fun this =>
    let data :=
      JS.add (JS.mul (JS.pow2 32) (Buffer.readUInt32BE (buffer this) (position this)))
             (Buffer.readUInt32BE (buffer this) (position this + 4)) in
    callback data (set_position (position this + 8) this)).

Definition readUInt24LE (callback : JS.number -> Act) : Act :=
  awaitData 3 (fun this =>
    let low := Buffer.readUInt16LE (buffer this) (position this) in
    let high := Buffer.readUInt8 (buffer this) (position this + 2) in
    callback (JS.bor low (JS.shl high 16)) (set_position (position this + 3) this)).

Definition readUInt40LE (callback : JS.number -> Act) : Act :=
  awaitData 5 (fun this =>
    let low := Buffer.readUInt32LE (buffer this) (position this) in
    let high := Buffer.readUInt8 (buffer this) (position this + 4) in
    callback (JS.add (JS.mul 4294967296 high) low) (set_position (position this + 5) this)).

Definition readUNumeric64LE (callback : JS.number -> Act) : Act :=
  awaitData 8 (fun this =>
    let low := Buffer.readUInt32LE (buffer this) (position this) in
    let high := Buffer.readUInt32LE (buffer this) (position this + 4) in
    callback (JS.add (JS.mul 4294967296 high) low) (set_position (position this + 8) this)).

Definition readUNumeric96LE (callback : JS.number -> Act) : Act :=
  awaitData 12 (fun this =>
    let dword1 := Buffer.readUInt32LE (buffer this) (position this) in
    let dword2 := Buffer.readUInt32LE (buffer this) (position this + 4) in
    let dword3 := Buffer.readUInt32LE (buffer this) (position this + 8) in
    callback
      (JS.add (JS.add dword1 (JS.mul 4294967296 dword2))
              (JS.mul (JS.mul 4294967296 4294967296) dword3))
      (set_position (position this + 12) this)).

Definition readUNumeric128LE (callback : JS.number -> Act) : Act :=
  awaitData 16 (fun this =>
    let dword1 := Buffer.readUInt32LE (buffer this) (position this) in
    let dword2 := Buffer.readUInt32LE (buffer this) (position this + 4) in
    let dword3 := Buffer.readUInt32LE (buffer this) (position this + 8) in
    let dword4 := Buffer.readUInt32LE (buffer this) (position this + 12) in
    callback
      (JS.add (JS.add (JS.add dword1 (JS.mul 4294967296 dword2))
                      (JS.mul (JS.mul 4294967296 4294967296) dword3))
              (JS.mul (JS.mul (JS.mul 4294967296 4294967296) 4294967296) dword4))
      (set_position (position this + 16) this)).

(** ** Variable length data *)

Definition readBuffer (length : nat) (callback : Buffer.t -> Act) : Act :=
  awaitData length (fun this =>
    let data := Buffer.slice (buffer this) (position this) (position this + length) in
    callback data (set_position (position this + length) this)).

(** Read a Unicode String (BVARCHAR) *)
Definition readBVarChar (callback : JS.jsstring -> Act) : Act :=
  readUInt8 (fun length =>
    readBuffer (Z.to_nat (JS.mul length 2)) (fun data =>
      callback (Buffer.toString_ucs2 data))).

(** Read a Unicode String (USVARCHAR) *)
Definition readUsVarChar (callback : JS.jsstring -> Act) : Act :=
  readUInt16LE (fun length =>
    readBuffer (Z.to_nat (JS.mul length 2)) (fun data =>
      callback (Buffer.toString_ucs2 data))).

(** Read binary data (BVARBYTE) *)
Definition readBVarByte (callback : Buffer.t -> Act) : Act :=
  readUInt8 (fun length => readBuffer (Z.to_nat length) callback).

(** Read binary data (USVARBYTE) *)
Definition readUsVarByte (callback : Buffer.t -> Act) : Act :=
  readUInt16LE (fun length => readBuffer (Z.to_nat length) callback).

(** ** The token parser registry and the dispatch loop *)

(** A registered token parser, [(parser, colMetadata, options, done) => void];
    the [parser] argument is the store the resulting callback runs on. *)
Definition TokenParser := list Column -> Options -> (option Token -> Act) -> Act.

(** The table [tokenParsers], filled once from the token modules when the
    file is loaded; the modules are not part of this file. *)
Variable tokenParsers : JS.number -> option TokenParser.

(** A chunk written to the stream. *)
Inductive Input :=
| Bytes (input : Buffer.t)
| EndOfMessageMarker.

(** How a call of [parseTokens] or [_transform] ends. *)
Inductive Result :=
| Normal (this : Parser)
| Throw (e : Error) (this : Parser).

(** The closure [doneParsing] of [parseTokens]; [None] is a falsy token. *)
Definition doneParsing (token : option Token) : Act :=
  fun this =>
    match token with
    | Some token =>
        let this :=
          match token with
          | COLMETADATA columns => set_colMetadata columns this
          | _ => this
          end in
        Returned (push token this)
    | None => Returned this
    end.

(** [this.emit('error', e)] of Node's EventEmitter: the listener is called
    and [emit] returns, or, with no listener attached, [e] is thrown. *)
Definition emit_error (e : Error) (this : Store) : Store + Error :=
  if errorListener this then inl (log_error e this) else inr e.

Definition with_store (s : Store) (this : Parser) : Parser :=
  mkParser s (suspended this) (next this).

(** The [while] loop of [parseTokens].  Each round moves the cursor past
    one tag byte and token parsers only read forward, so the number of unread
    bytes bounds the rounds ([parseTokens_runs_to_end] below: the loop is
    over when this function returns). *)
Fixpoint parseTokens_loop (fuel : nat) (this : Parser) : Result :=
  match fuel with
  | O => Normal this
  | S fuel =>
      if negb (suspended this) && (position this + 1 <=? List.length (buffer this))%nat
      then
        let type := Buffer.readUInt8 (buffer this) (position this) in
        let this := with_store (set_position (position this + 1) this) this in
        match tokenParsers type with
        | Some tokenParser =>
            let colMetadata := colMetadata this in
            let s := log_dispatch (mkDispatch type colMetadata (List.length (pushed this))) this in
            parseTokens_loop fuel
              (settle (tokenParser colMetadata (options this) doneParsing s) this)
        | None =>
            match emit_error (UnknownType type) this with
            | inl s => parseTokens_loop fuel (with_store s this)
            | inr e => Throw e this
            end
        end
      else Normal this
  end.

Definition parseTokens (this : Parser) : Result :=
  parseTokens_loop (List.length (buffer this) - position this) this.

(** Lines 91-96 of [_transform]: the chunk joins the window. *)
Definition append (input : Buffer.t) (this : Parser) : Parser :=
  let this :=
    if (position this =? List.length (buffer this))%nat
    then with_store (set_buffer input this) this
    else with_store
           (set_buffer (Buffer.concat (Buffer.slice_from (buffer this) (position this)) input)
                       this) this in
  with_store (set_position 0 this) this.

(** [this.suspended = false; this.next!.call(null)].  [suspend] sets
    [suspended] and [next] together, so a suspended parser has a [next]. *)
Definition resume (this : Parser) : Parser :=
  let this := mkParser this false (next this) in
  match next this with
  | Some next => settle (call next this) this
  | None => this
  end.

(** Lines 104-110 of [_transform]: parse new tokens unless still suspended. *)
Definition parse_unless_suspended (this : Parser) : Result :=
  if negb (suspended this) then parseTokens this else Normal this.

Definition _transform (this : Parser) (input : Input) : Result :=
  match input with
  | EndOfMessageMarker => Normal (with_store (push EOM this) this)
  | Bytes input =>
      let this := append input this in
      let this := if suspended this then resume this else this in
      parse_unless_suspended this
  end.

(** Chunks written one after the other; a thrown error ends the writing. *)
Fixpoint feed (this : Parser) (chunks : list Input) : Result :=
  match chunks with
  | [] => Normal this
  | input :: chunks =>
      match _transform this input with
      | Normal this => feed this chunks
      | Throw e this => Throw e this
      end
  end.

Definition parser_of (r : Result) : Parser :=
  match r with Normal this => this | Throw _ this => this end.

(** ** Notions used to state the properties *)

(** The unread part of the window. *)
Definition unread (this : Store) : Buffer.t := skipn (position this) (buffer this).

(** The cursor is inside the window. *)
Definition cursor_ok (this : Store) : Prop :=
  (position this <= List.length (buffer this))%nat.

(** [later] holds what [this] holds with [extra] behind its unread bytes:
    the same context, settings and logs.  With no [extra] the two stores
    differ at most in bytes already consumed. *)
Definition extends (extra : Buffer.t) (this later : Store) : Prop :=
  unread later = unread this ++ extra /\
  colMetadata later = colMetadata this /\
  options later = options this /\
  errorListener later = errorListener this /\
  pushed later = pushed this /\
  errors later = errors this /\
  dispatched later = dispatched this.

(** The store whose window is [pre ++ bytes ++ post] with the cursor on the
    first byte of [bytes]. *)
Definition holding (pre bytes post : Buffer.t) (this : Store) : Store :=
  set_position (List.length pre) (set_buffer (pre ++ bytes ++ post) this).

(** A callback written against the reader interface: it awaits a number of
    bytes, takes them from the cursor and goes on with a callback of the same
    kind, until it hands its token (or a falsy value) to [doneParsing].  This
    is the contract of a registered token parser; the readers of the class
    build such callbacks from such callbacks. *)
Inductive reader_built : Act -> Prop :=
| rb_done (token : option Token) (a : Act) :
    (forall this, a this = doneParsing token this) ->
    reader_built a
| rb_await (length : nat) (callback : Act) (k : Buffer.t -> Act) (a : Act) :
    (forall this, a this = awaitData length callback this) ->
    (forall this, (position this + length <= List.length (buffer this))%nat ->
       callback this =
       k (Buffer.slice (buffer this) (position this) (position this + length))
         (set_position (position this + length) this)) ->
    (forall data, reader_built (k data)) ->
    reader_built a.

(** Every registered token parser keeps to the reader interface. *)
Definition registry_ok : Prop :=
  forall type tokenParser, tokenParsers type = Some tokenParser ->
  forall colMetadata options, reader_built (tokenParser colMetadata options doneParsing).

(** A parser between two chunks: cursor inside the window and, when
    suspended, a stored continuation of some token parser. *)
Definition parser_ok (this : Parser) : Prop :=
  cursor_ok this /\
  (suspended this = true ->
   exists length callback,
     next this = Some (RetryAwait length callback) /\ reader_built (awaitData length callback)).

(** Two parsers that behave alike from here on. *)
Definition similar_parser (p1 p2 : Parser) : Prop :=
  cursor_ok p1 /\ cursor_ok p2 /\ extends [] p1 p2 /\
  suspended p1 = suspended p2 /\
  (suspended p1 = true ->
   next p1 = next p2 /\
   exists length callback,
     next p1 = Some (RetryAwait length callback) /\ reader_built (awaitData length callback)).

(** Two calls that ended alike: both returned similar parsers, or both
    threw the same error after the same tokens, events and calls. *)
Definition similar_result (r1 r2 : Result) : Prop :=
  match r1, r2 with
  | Normal p1, Normal p2 => similar_parser p1 p2
  | Throw e1 p1, Throw e2 p2 =>
      e1 = e2 /\ colMetadata p1 = colMetadata p2 /\ pushed p1 = pushed p2 /\
      errors p1 = errors p2 /\ dispatched p1 = dispatched p2
  | _, _ => False
  end.

(** The next chunk after a call, unless that call threw. *)
Definition then_transform (r : Result) (input : Input) : Result :=
  match r with
  | Normal this => _transform this input
  | Throw e this => Throw e this
  end.

(** The columns of the last COLMETADATA token of [tokens], [initial] when
    there is none. *)
Fixpoint latest_columns (initial : list Column) (tokens : list Token) : list Column :=
  match tokens with
  | [] => initial
  | COLMETADATA columns :: tokens => latest_columns columns tokens
  | _ :: tokens => latest_columns initial tokens
  end.

(** A logged call received the context of the last metadata token pushed
    before it. *)
Definition context_ok (initial : list Column) (this : Store) : Prop :=
  colMetadata this = latest_columns initial (pushed this).

Definition dispatch_ok (initial : list Column) (tokens : list Token) (d : Dispatch) : Prop :=
  (d_pushed d <= List.length tokens)%nat /\
  d_colMetadata d = latest_columns initial (firstn (d_pushed d) tokens).

(** The context and every logged call agree with the tokens pushed so far. *)
Definition history_ok (initial : list Column) (this : Store) : Prop :=
  context_ok initial this /\
  Forall (dispatch_ok initial (pushed this)) (dispatched this).

Definition outcome_store (o : Outcome) : Store :=
  match o with
  | Returned this => this
  | Suspended this _ _ => this
  end.

End TokenStreamParser.

(** ** Little-endian encoding

    The writer's side of the extended-width unsigned integers: the [n] bytes
    of [v], least significant first. *)
Definition byte_of_Z (z : Z) : byte :=
  match Byte.of_N (Z.to_N (z mod 256)) with
  | Some b => b
  | None => x00
  end.

Fixpoint encodeLE (n : nat) (v : Z) : Buffer.t :=
  match n with
  | O => []
  | S n => byte_of_Z v :: encodeLE n (v / 256)
  end.

(** ** A small registry

    Two token parsers in the style of the token modules, used to run the
    parser on concrete chunks: tag 0x81 reads a one-byte count and that many
    one-byte column descriptors, tag 0xFD reads a 16-bit status, a 16-bit
    command and a 32-bit row count. *)
Module Example.

Definition Column := byte.
Definition Value := unit.
Definition Options := unit.

Definition colMetadataParser : @TokenParser Column Value Options :=
  fun _ _ done =>
    readBVarByte (fun columns => done (Some (COLMETADATA columns))).

Definition doneParser : @TokenParser Column Value Options :=
  fun _ _ done =>
    readUInt16LE (fun _status =>
      readUInt16LE (fun _curCmd =>
        readUInt32LE (fun _rowCount => done (Some DONE)))).

Definition tokenParsers (type : JS.number) : option (@TokenParser Column Value Options) :=
  if type =? 129 then Some colMetadataParser
  else if type =? 253 then Some doneParser
  else None.

Definition fresh : @Parser Column Value Options := new_Parser [] tt.

Definition tokens (r : @Result Column Value Options) : list (@Token Column Value) :=
  pushed (parser_of r).

(** Callbacks that hand the value read to [doneParsing] in a token. *)
Definition report (value : JS.number) : @Act Column Value Options :=
  doneParsing (Some (RETURNSTATUS value)).

Definition reportText (text : JS.jsstring) : @Act Column Value Options :=
  doneParsing (Some (FEDAUTHINFO (Some text) None)).

End Example.

(** ** The writer's side of the other fields

    Big-endian bytes, two's complement, UCS-2 text and length prefixes, as a
    peer writes them; used to state what the readers return. *)
Definition encodeBE (n : nat) (v : Z) : Buffer.t := rev (encodeLE n v).

(** The unsigned [w]-bit value that stands for the signed [v]. *)
Definition twos (w : Z) (v : Z) : Z := v mod 2 ^ w.

Fixpoint encode_ucs2 (text : JS.jsstring) : Buffer.t :=
  match text with
  | [] => []
  | unit :: text => byte_of_Z unit :: byte_of_Z (unit / 256) :: encode_ucs2 text
  end.

(** Every code unit of [text] fits 16 bits. *)
Definition ucs2_text (text : JS.jsstring) : Prop :=
  Forall (fun unit => 0 <= unit < 2 ^ 16) text.

(** The bytes under the cursor as a number, least significant first. *)
Fixpoint decodeLE (bytes : Buffer.t) : Z :=
  match bytes with
  | [] => 0
  | b :: bytes => Z.of_N (Byte.to_N b) + 256 * decodeLE bytes
  end.

Section FurtherNotions.

Context {Column Value Options : Type}.

(** A parser at rest between two chunks: it waits for more bytes than are
    unread, or it has consumed its window. *)
Definition settled (this : @Parser Column Value Options) : Prop :=
  parser_ok this /\
  if suspended this
  then exists length callback,
         next this = Some (RetryAwait length callback) /\
         (List.length (unread this) < length)%nat
  else unread this = [].

(** The tag of an 'error' event. *)
Definition error_type (e : Error) : JS.number :=
  match e with UnknownType type => type end.

(** Errors were raised for unregistered tags only, and token parsers called
    for registered tags only. *)
Definition events_ok (tokenParsers : JS.number -> option (@TokenParser Column Value Options))
    (this : @Store Column Value Options) : Prop :=
  Forall (fun e => tokenParsers (error_type e) = None) (errors this) /\
  Forall (fun d => tokenParsers (d_type d) <> None) (dispatched this).

(** 1 for a parser that holds a suspended token parser, 0 otherwise. *)
Definition pending (this : @Parser Column Value Options) : nat :=
  if suspended this then 1%nat else 0%nat.

(** The number of End-Of-Message markers among the chunks. *)
Fixpoint markers (inputs : list Input) : nat :=
  match inputs with
  | [] => 0%nat
  | EndOfMessageMarker :: inputs => S (markers inputs)
  | Bytes _ :: inputs => markers inputs
  end.

(** Two stores that differ only in how their token logs begin ([front1]
    against [front2]) and in the log of calls. *)
Definition alike_behind (front1 front2 : list (@Token Column Value))
    (s1 s2 : @Store Column Value Options) : Prop :=
  buffer s1 = buffer s2 /\ position s1 = position s2 /\
  colMetadata s1 = colMetadata s2 /\ options s1 = options s2 /\
  errorListener s1 = errorListener s2 /\ errors s1 = errors s2 /\
  exists common, pushed s1 = front1 ++ common /\ pushed s2 = front2 ++ common.

Definition parsers_alike_behind (front1 front2 : list (@Token Column Value))
    (p1 p2 : @Parser Column Value Options) : Prop :=
  alike_behind front1 front2 p1 p2 /\
  suspended p1 = suspended p2 /\ next p1 = next p2.

Definition results_alike_behind (front1 front2 : list (@Token Column Value))
    (r1 r2 : @Result Column Value Options) : Prop :=
  match r1, r2 with
  | Normal p1, Normal p2 => parsers_alike_behind front1 front2 p1 p2
  | Throw e1 p1, Throw e2 p2 => e1 = e2 /\ parsers_alike_behind front1 front2 p1 p2
  | _, _ => False
  end.

End FurtherNotions.

(** * Properties *)

(** ** Numbers and bytes *)

Lemma round53_small (z : Z) : Z.abs z <= 2 ^ 53 -> JS.round53 z = z.
Proof.
  intros H. unfold JS.round53.
  destruct (Z.leb_spec (Z.abs z) (2 ^ 53)) as [_ | Hgt]; [reflexivity | lia].
Qed.

Lemma add_small (a b : Z) : Z.abs (a + b) <= 2 ^ 53 -> JS.add a b = a + b.
Proof. apply round53_small. Qed.

Lemma mul_small (a b : Z) : Z.abs (a * b) <= 2 ^ 53 -> JS.mul a b = a * b.
Proof. apply round53_small. Qed.

(** A 53-bit integer scaled by a power of two is a double. *)
Lemma round53_scaled (m k : Z) :
  0 <= k -> Z.abs m < 2 ^ 53 -> JS.round53 (m * 2 ^ k) = m * 2 ^ k.
Proof.
  intros Hk Hm. unfold JS.round53.
  destruct (Z.leb_spec (Z.abs (m * 2 ^ k)) (2 ^ 53)) as [_ | Hbig]; [reflexivity |].
  assert (Hp : 0 < 2 ^ k) by (apply Z.pow_pos_nonneg; lia).
  assert (Habs : Z.abs (m * 2 ^ k) = Z.abs m * 2 ^ k)
    by (rewrite Z.abs_mul, (Z.abs_eq (2 ^ k)); lia).
  assert (Hm0 : 0 < Z.abs m) by (destruct (Z.eq_dec (Z.abs m) 0) as [E | E]; [rewrite Habs, E in Hbig; simpl in Hbig; lia | lia]).
  rewrite Habs in *.
  rewrite (Z.log2_mul_pow2 (Z.abs m) k) by lia.
  assert (Hl : Z.log2 (Z.abs m) < 53) by (apply Z.log2_lt_pow2; lia).
  assert (Hlow : 53 <= k + Z.log2 (Z.abs m)).
  { rewrite <- (Z.log2_mul_pow2 (Z.abs m) k) by lia.
    change 53 with (Z.log2 (2 ^ 53)). apply Z.log2_le_mono. lia. }
  set (e := k + Z.log2 (Z.abs m) - 52).
  assert (He : 0 < e <= k) by (unfold e; lia).
  assert (Hsplit : Z.abs m * 2 ^ k = (Z.abs m * 2 ^ (k - e)) * 2 ^ e).
  { rewrite <- Z.mul_assoc, <- Z.pow_add_r by lia. f_equal. f_equal. lia. }
  assert (Hpe : 0 < 2 ^ e) by (apply Z.pow_pos_nonneg; lia).
  rewrite Hsplit, Z.mod_mul, Z.div_mul by lia.
  assert (Hhalf : 0 < 2 ^ (e - 1)) by (apply Z.pow_pos_nonneg; lia).
  destruct (Z.ltb_spec (2 ^ (e - 1)) 0) as [Hc | _]; [lia |].
  destruct (Z.eqb_spec 0 (2 ^ (e - 1))) as [Hc | _]; [lia |].
  cbn [orb andb]. rewrite <- Hsplit.
  rewrite <- (Z.abs_eq (2 ^ k)) at 2 by lia.
  rewrite <- Z.abs_mul.
  rewrite (Z.mul_comm (Z.sgn _)). apply Z.abs_sgn. 
Qed.

Lemma get_range (buf : Buffer.t) (i : nat) : 0 <= Buffer.get buf i < 256.
Proof.
  unfold Buffer.get. pose proof (Byte.to_N_bounded (nth i buf x00)). lia.
Qed.

Lemma readUInt32LE_range (buf : Buffer.t) (i : nat) : 0 <= Buffer.readUInt32LE buf i < 2 ^ 32.
Proof.
  unfold Buffer.readUInt32LE.
  pose proof (get_range buf i). pose proof (get_range buf (i + 1)).
  pose proof (get_range buf (i + 2)). pose proof (get_range buf (i + 3)). lia.
Qed.

Lemma readInt32LE_range (buf : Buffer.t) (i : nat) :
  - 2 ^ 31 <= Buffer.readInt32LE buf i < 2 ^ 31.
Proof.
  unfold Buffer.readInt32LE, Buffer.signed. pose proof (readUInt32LE_range buf i).
  destruct (Z.ltb_spec (Buffer.readUInt32LE buf i) (2 ^ (32 - 1))); simpl in *; lia.
Qed.

(** The product of 2^32 and a 32-bit word is exact. *)
Lemma mul_pow32_exact (x : Z) : Z.abs x < 2 ^ 53 -> JS.mul 4294967296 x = 4294967296 * x.
Proof.
  intros H. unfold JS.mul. rewrite (Z.mul_comm 4294967296 x).
  change 4294967296 with (2 ^ 32). apply round53_scaled; lia.
Qed.

Lemma to_N_byte_of_Z (z : Z) : Z.of_N (Byte.to_N (byte_of_Z z)) = z mod 256.
Proof.
  unfold byte_of_Z. pose proof (Z.mod_pos_bound z 256 ltac:(lia)) as Hr.
  destruct (Byte.of_N (Z.to_N (z mod 256))) as [b |] eqn:E.
  - apply Byte.to_of_N in E. rewrite E. lia.
  - apply Byte.of_N_None_iff in E. lia.
Qed.

Lemma get_app_mid (pre bytes post : Buffer.t) (i : nat) :
  (i < List.length bytes)%nat ->
  Buffer.get (pre ++ bytes ++ post) (List.length pre + i) = Buffer.get bytes i.
Proof.
  intros H. unfold Buffer.get.
  rewrite app_nth2_plus, app_nth1 by assumption. reflexivity.
Qed.

Lemma length_encodeLE (n : nat) (v : Z) : List.length (encodeLE n v) = n.
Proof. revert v. induction n as [| n IH]; intros v; simpl; [reflexivity | now rewrite IH]. Qed.

Lemma get_encodeLE (n i : nat) (v : Z) :
  (i < n)%nat -> Buffer.get (encodeLE n v) i = (v / 256 ^ Z.of_nat i) mod 256.
Proof.
  revert i v. induction n as [| n IH]; intros i v Hi; [lia |].
  destruct i as [| i].
  - unfold Buffer.get. simpl nth. rewrite to_N_byte_of_Z. now rewrite Z.div_1_r.
  - unfold Buffer.get in *. simpl nth. rewrite IH by lia.
    rewrite Nat2Z.inj_succ, Z.pow_succ_r, Z.div_div by lia. reflexivity.
Qed.

(** The four bytes of an encoded value from byte [4 * j] on, read as a
    little-endian word. *)
Lemma readUInt32LE_encodeLE (pre post : Buffer.t) (n j : nat) (v : Z) :
  (4 * j + 4 <= n)%nat ->
  Buffer.readUInt32LE (pre ++ encodeLE n v ++ post) (List.length pre + 4 * j)
  = (v / 2 ^ (32 * Z.of_nat j)) mod 2 ^ 32.
Proof.
  intros H. unfold Buffer.readUInt32LE.
  rewrite <- !Nat.add_assoc.
  rewrite !get_app_mid by (rewrite length_encodeLE; lia).
  rewrite !get_encodeLE by lia.
  replace (256 ^ Z.of_nat (4 * j)) with (2 ^ (32 * Z.of_nat j))
    by (change 256 with (2 ^ 8); rewrite <- Z.pow_mul_r by lia; f_equal; lia).
  replace (256 ^ Z.of_nat (4 * j + 1)) with (2 ^ (32 * Z.of_nat j) * 2 ^ 8)
    by (change 256 with (2 ^ 8); rewrite <- Z.pow_mul_r, <- Z.pow_add_r by lia; f_equal; lia).
  replace (256 ^ Z.of_nat (4 * j + 2)) with (2 ^ (32 * Z.of_nat j) * 2 ^ 16)
    by (change 256 with (2 ^ 8); rewrite <- Z.pow_mul_r, <- Z.pow_add_r by lia; f_equal; lia).
  replace (256 ^ Z.of_nat (4 * j + 3)) with (2 ^ (32 * Z.of_nat j) * 2 ^ 24)
    by (change 256 with (2 ^ 8); rewrite <- Z.pow_mul_r, <- Z.pow_add_r by lia; f_equal; lia).
  assert (Hp : 0 < 2 ^ (32 * Z.of_nat j)) by (apply Z.pow_pos_nonneg; lia).
  rewrite <- !Z.div_div by lia.
  generalize (v / 2 ^ (32 * Z.of_nat j)). intros w.
  change (2 ^ 8) with 256. change (2 ^ 16) with 65536.
  change (2 ^ 24) with 16777216. change (2 ^ 32) with 4294967296.
  Z.to_euclidean_division_equations. lia.
Qed.

Lemma get_app_mid0 (pre bytes post : Buffer.t) :
  (0 < List.length bytes)%nat ->
  Buffer.get (pre ++ bytes ++ post) (List.length pre) = Buffer.get bytes 0.
Proof.
  intros H. pose proof (get_app_mid pre bytes post 0 H) as E.
  now rewrite Nat.add_0_r in E.
Qed.

Lemma readUInt32LE_encodeLE_at (pre post : Buffer.t) (n j off : nat) (v : Z) :
  off = (4 * j)%nat -> (4 * j + 4 <= n)%nat ->
  Buffer.readUInt32LE (pre ++ encodeLE n v ++ post) (List.length pre + off)
  = (v / 2 ^ (32 * Z.of_nat j)) mod 2 ^ 32.
Proof. intros ->. apply readUInt32LE_encodeLE. Qed.

Lemma readUInt32LE_encodeLE0 (pre post : Buffer.t) (n : nat) (v : Z) :
  (4 <= n)%nat ->
  Buffer.readUInt32LE (pre ++ encodeLE n v ++ post) (List.length pre) = v mod 2 ^ 32.
Proof.
  intros H. pose proof (readUInt32LE_encodeLE pre post n 0 v ltac:(lia)) as E.
  change (4 * 0)%nat with 0%nat in E. rewrite Nat.add_0_r in E. rewrite E.
  change (32 * Z.of_nat 0) with 0. now rewrite Z.pow_0_r, Z.div_1_r.
Qed.

Lemma toInt32_small (x : Z) : 0 <= x < 2 ^ 31 -> JS.toInt32 x = x.
Proof.
  intros H. unfold JS.toInt32. rewrite Z.mod_small by lia. lia.
Qed.

(** [|] on a 16-bit value and a value shifted past it is their sum. *)
Lemma lor_shifted (a b : Z) :
  0 <= a < 2 ^ 16 -> 0 <= b -> Z.lor a (Z.shiftl b 16) = a + b * 2 ^ 16.
Proof.
  intros Ha Hb. rewrite Z.shiftl_mul_pow2 by lia.
  assert (Hland : Z.land a (b * 2 ^ 16) = 0).
  { apply Z.bits_inj'. intros n Hn. rewrite Z.land_spec, Z.bits_0.
    destruct (Z.lt_ge_cases n 16) as [Hlt | Hge].
    - rewrite Z.mul_pow2_bits_low by lia. apply andb_false_r.
    - destruct (Z.eq_dec a 0) as [-> | Hne]; [now rewrite Z.bits_0 |].
      rewrite (Z.bits_above_log2 a n); [reflexivity | lia |].
      assert (Z.log2 a < 16) by (apply Z.log2_lt_pow2; lia). lia. }
  rewrite <- Z.lxor_lor by assumption.
  symmetry. apply Z.add_nocarry_lxor. assumption.
Qed.

Lemma band_128 (b : byte) :
  (JS.band (Z.of_N (Byte.to_N b)) 128 =? 128) = (128 <=? Z.of_N (Byte.to_N b)).
Proof. destruct b; reflexivity. Qed.

Lemma skipn_past (pre rest : Buffer.t) (n : nat) :
  skipn (List.length pre + n) (pre ++ rest) = skipn n rest.
Proof.
  induction pre as [| b pre IH]; simpl; [reflexivity | exact IH].
Qed.

Lemma firstn_exact (data post : Buffer.t) (n : nat) :
  List.length data = n -> firstn n (data ++ post) = data.
Proof.
  intros <-. rewrite firstn_app, Nat.sub_diag, firstn_all. simpl. apply app_nil_r.
Qed.

Lemma length_toString_ucs2 (data : Buffer.t) (n : nat) :
  List.length data = (2 * n)%nat -> List.length (Buffer.toString_ucs2 data) = n.
Proof.
  revert data. induction n as [| n IH]; intros data H.
  - destruct data; [reflexivity | discriminate].
  - destruct data as [| lo [| hi rest]]; simpl in H; try lia.
    simpl. f_equal. apply IH. lia.
Qed.

Section ReaderProperties.

Context {Column Value Options : Type}.

Local Abbreviation Store := (@Store Column Value Options).
Local Abbreviation Parser := (@Parser Column Value Options).
Local Abbreviation Act := (@Act Column Value Options).
Local Abbreviation Outcome := (@Outcome Column Value Options).

Implicit Types (this : Store) (callback : Act).

(** ** awaitData *)

Lemma awaitData_ready (n : nat) callback this :
  (position this + n <= List.length (buffer this))%nat ->
  awaitData n callback this = callback this.
Proof.
  intros H. unfold awaitData.
  destruct (Nat.leb_spec (position this + n) (List.length (buffer this))); [reflexivity | lia].
Qed.

Lemma awaitData_short (n : nat) callback this :
  (List.length (buffer this) < position this + n)%nat ->
  awaitData n callback this = Suspended this n callback.
Proof.
  intros H. unfold awaitData, suspend.
  destruct (Nat.leb_spec (position this + n) (List.length (buffer this))); [lia | reflexivity].
Qed.

(** C4: [awaitData(need, onReady)] with [need] bytes unread calls [onReady]
    at once, on the untouched parser, and does not suspend by itself.  With
    fewer bytes unread the parser becomes suspended, the stored continuation
    is the retry of the same [awaitData(need, onReady)], and the store (window,
    cursor, pushed tokens) is unchanged; resuming a parser that holds this
    continuation while its window is still short gives back the same parser:
    suspended again, nothing consumed, nothing pushed. *)
Theorem C4_awaitData_contract (need : nat) (onReady : Act) (p : Parser) :
  (Z.of_nat (List.length (buffer p)) - Z.of_nat (position p) >= Z.of_nat need ->
   awaitData need onReady p = onReady p /\
   settle (awaitData need onReady p) p = settle (onReady p) p) /\
  (Z.of_nat (List.length (buffer p)) - Z.of_nat (position p) < Z.of_nat need ->
   settle (awaitData need onReady p) p
   = mkParser (store p) true (Some (RetryAwait need onReady)) /\
   call (RetryAwait need onReady) = awaitData need onReady /\
   forall later : Store,
     Z.of_nat (List.length (buffer later)) - Z.of_nat (position later) < Z.of_nat need ->
     resume (mkParser later true (Some (RetryAwait need onReady)))
     = mkParser later true (Some (RetryAwait need onReady))).
Proof.
  split.
  - intros Hready. rewrite awaitData_ready by lia. split; reflexivity.
  - intros Hshort. split; [| split].
    + rewrite awaitData_short by lia. reflexivity.
    + reflexivity.
    + intros later Hlater. unfold resume. cbn [next store suspended call].
      rewrite awaitData_short by lia. reflexivity.
Qed.

(** ** Fixed-width readers on an encoded value *)

Lemma holding_ready (pre bytes post : Buffer.t) this (n : nat) :
  (n <= List.length bytes)%nat ->
  (position (holding pre bytes post this) + n
   <= List.length (buffer (holding pre bytes post this)))%nat.
Proof.
  intros H. cbn [holding position buffer set_position set_buffer].
  rewrite !length_app. lia.
Qed.

Lemma readUInt24LE_encodeLE (v : Z) (pre post : Buffer.t) this (callback : JS.number -> Act) :
  0 <= v < 2 ^ 24 ->
  readUInt24LE callback (holding pre (encodeLE 3 v) post this)
  = callback v (set_position (List.length pre + 3) (holding pre (encodeLE 3 v) post this)).
Proof.
  intros Hv. unfold readUInt24LE.
  rewrite awaitData_ready by (apply holding_ready; rewrite length_encodeLE; lia).
  cbn [holding position buffer set_position set_buffer]. f_equal.
  unfold Buffer.readUInt16LE, Buffer.readUInt8.
  rewrite get_app_mid0, !get_app_mid by (rewrite length_encodeLE; lia).
  rewrite !get_encodeLE by lia.
  set (b0 := (v / 256 ^ Z.of_nat 0) mod 256).
  set (b1 := (v / 256 ^ Z.of_nat 1) mod 256).
  set (b2 := (v / 256 ^ Z.of_nat 2) mod 256).
  assert (H0 : 0 <= b0 < 256) by (apply Z.mod_pos_bound; lia).
  assert (H1 : 0 <= b1 < 256) by (apply Z.mod_pos_bound; lia).
  assert (H2 : 0 <= b2 < 256) by (apply Z.mod_pos_bound; lia).
  unfold JS.bor, JS.shl. change (16 mod 32) with 16.
  rewrite (toInt32_small b2) by lia.
  rewrite (toInt32_small (b0 + 2 ^ 8 * b1)) by lia.
  rewrite Z.shiftl_mul_pow2 by lia.
  rewrite !(toInt32_small (b2 * 2 ^ 16)) by lia.
  rewrite <- Z.shiftl_mul_pow2 by lia.
  rewrite lor_shifted by lia.
  rewrite toInt32_small by lia.
  subst b0 b1 b2. change (Z.of_nat 0) with 0. change (Z.of_nat 1) with 1.
  change (Z.of_nat 2) with 2. change (256 ^ 0) with 1. change (256 ^ 1) with 256.
  change (256 ^ 2) with 65536. change (2 ^ 8) with 256. change (2 ^ 16) with 65536.
  change (2 ^ 24) with 16777216 in Hv.
  Z.to_euclidean_division_equations. lia.
Qed.

Lemma readUInt40LE_encodeLE (v : Z) (pre post : Buffer.t) this (callback : JS.number -> Act) :
  0 <= v < 2 ^ 40 ->
  readUInt40LE callback (holding pre (encodeLE 5 v) post this)
  = callback v (set_position (List.length pre + 5) (holding pre (encodeLE 5 v) post this)).
Proof.
  intros Hv. unfold readUInt40LE.
  rewrite awaitData_ready by (apply holding_ready; rewrite length_encodeLE; lia).
  cbn [holding position buffer set_position set_buffer]. f_equal.
  unfold Buffer.readUInt8.
  rewrite readUInt32LE_encodeLE0 by lia.
  rewrite get_app_mid by (rewrite length_encodeLE; lia).
  rewrite get_encodeLE by lia.
  change (256 ^ Z.of_nat 4) with 4294967296. change (2 ^ 32) with 4294967296.
  change (2 ^ 40) with 1099511627776 in Hv.
  assert (Hhi : (v / 4294967296) mod 256 = v / 4294967296)
    by (apply Z.mod_small; Z.to_euclidean_division_equations; lia).
  rewrite Hhi.
  rewrite mul_small by (change (2 ^ 53) with 9007199254740992;
                        Z.to_euclidean_division_equations; lia).
  rewrite add_small by (change (2 ^ 53) with 9007199254740992;
                        Z.to_euclidean_division_equations; lia).
  Z.to_euclidean_division_equations; lia.
Qed.

(** The words of a value up to 2^53: the third and fourth are 0 and the
    first two rebuild it without rounding. *)
Lemma words_upto_2p53 (v : Z) :
  0 <= v <= 2 ^ 53 ->
  JS.add (JS.mul 4294967296 ((v / 2 ^ 32) mod 2 ^ 32)) (v mod 2 ^ 32) = v /\
  JS.add (v mod 2 ^ 32) (JS.mul 4294967296 ((v / 2 ^ 32) mod 2 ^ 32)) = v /\
  (v / 2 ^ 64) mod 2 ^ 32 = 0 /\
  (v / 2 ^ 96) mod 2 ^ 32 = 0.
Proof.
  intros Hv.
  assert (Hhi : (v / 2 ^ 32) mod 2 ^ 32 = v / 2 ^ 32).
  { apply Z.mod_small. change (2 ^ 53) with 9007199254740992 in Hv.
    change (2 ^ 32) with 4294967296. Z.to_euclidean_division_equations; lia. }
  rewrite Hhi.
  assert (Hsum : 4294967296 * (v / 2 ^ 32) + v mod 2 ^ 32 = v).
  { change (2 ^ 32) with 4294967296. Z.to_euclidean_division_equations; lia. }
  assert (Hprod : 0 <= 4294967296 * (v / 2 ^ 32) <= v).
  { change (2 ^ 32) with 4294967296. Z.to_euclidean_division_equations; lia. }
  rewrite mul_small by lia.
  repeat split.
  - rewrite add_small by lia. exact Hsum.
  - rewrite add_small by lia. lia.
  - rewrite Z.div_small; [reflexivity |].
    change (2 ^ 53) with 9007199254740992 in Hv.
    change (2 ^ 64) with 18446744073709551616. lia.
  - rewrite Z.div_small; [reflexivity |].
    change (2 ^ 53) with 9007199254740992 in Hv.
    change (2 ^ 96) with 79228162514264337593543950336. lia.
Qed.

Lemma mul_zero (a : Z) : JS.mul a 0 = 0.
Proof. unfold JS.mul. rewrite Z.mul_0_r. reflexivity. Qed.

Lemma add_zero (a : Z) : Z.abs a <= 2 ^ 53 -> JS.add a 0 = a.
Proof. intros H. unfold JS.add. rewrite Z.add_0_r. now apply round53_small. Qed.

Lemma readUNumeric64LE_encodeLE (v : Z) (pre post : Buffer.t) this (callback : JS.number -> Act) :
  0 <= v <= 2 ^ 53 ->
  readUNumeric64LE callback (holding pre (encodeLE 8 v) post this)
  = callback v (set_position (List.length pre + 8) (holding pre (encodeLE 8 v) post this)).
Proof.
  intros Hv. unfold readUNumeric64LE.
  rewrite awaitData_ready by (apply holding_ready; rewrite length_encodeLE; lia).
  cbn [holding position buffer set_position set_buffer]. f_equal.
  rewrite readUInt32LE_encodeLE0 by lia.
  rewrite (readUInt32LE_encodeLE_at pre post 8 1 4 v) by lia.
  change (32 * Z.of_nat 1) with 32.
  apply (words_upto_2p53 v Hv).
Qed.

Lemma readUNumeric96LE_encodeLE (v : Z) (pre post : Buffer.t) this (callback : JS.number -> Act) :
  0 <= v <= 2 ^ 53 ->
  readUNumeric96LE callback (holding pre (encodeLE 12 v) post this)
  = callback v (set_position (List.length pre + 12) (holding pre (encodeLE 12 v) post this)).
Proof.
  intros Hv. unfold readUNumeric96LE.
  rewrite awaitData_ready by (apply holding_ready; rewrite length_encodeLE; lia).
  cbn [holding position buffer set_position set_buffer]. f_equal.
  rewrite readUInt32LE_encodeLE0 by lia.
  rewrite (readUInt32LE_encodeLE_at pre post 12 1 4 v) by lia.
  rewrite (readUInt32LE_encodeLE_at pre post 12 2 8 v) by lia.
  change (32 * Z.of_nat 1) with 32. change (32 * Z.of_nat 2) with 64.
  destruct (words_upto_2p53 v Hv) as (_ & H12 & H3 & _).
  rewrite H12, H3, mul_zero. apply add_zero. lia.
Qed.

Lemma readUNumeric128LE_encodeLE (v : Z) (pre post : Buffer.t) this (callback : JS.number -> Act) :
  0 <= v <= 2 ^ 53 ->
  readUNumeric128LE callback (holding pre (encodeLE 16 v) post this)
  = callback v (set_position (List.length pre + 16) (holding pre (encodeLE 16 v) post this)).
Proof.
  intros Hv. unfold readUNumeric128LE.
  rewrite awaitData_ready by (apply holding_ready; rewrite length_encodeLE; lia).
  cbn [holding position buffer set_position set_buffer]. f_equal.
  rewrite readUInt32LE_encodeLE0 by lia.
  rewrite (readUInt32LE_encodeLE_at pre post 16 1 4 v) by lia.
  rewrite (readUInt32LE_encodeLE_at pre post 16 2 8 v) by lia.
  rewrite (readUInt32LE_encodeLE_at pre post 16 3 12 v) by lia.
  change (32 * Z.of_nat 1) with 32. change (32 * Z.of_nat 2) with 64.
  change (32 * Z.of_nat 3) with 96.
  destruct (words_upto_2p53 v Hv) as (_ & H12 & H3 & H4).
  rewrite H12, H3, H4, !mul_zero.
  rewrite (add_zero v) by lia. apply add_zero. lia.
Qed.

(** C6: a value between 0 and 2^53 that fits the width, written as 3, 5, 8,
    12 or 16 little-endian bytes at the cursor, is read back exactly by
    [readUInt24LE], [readUInt40LE], [readUNumeric64LE], [readUNumeric96LE]
    and [readUNumeric128LE]; each reader moves the cursor past its bytes. *)
Theorem C6_extended_unsigned_roundtrip
    (v : Z) (pre post : Buffer.t) this (callback : JS.number -> Act) :
  0 <= v <= 2 ^ 53 ->
  (v < 2 ^ 24 ->
   readUInt24LE callback (holding pre (encodeLE 3 v) post this)
   = callback v (set_position (List.length pre + 3) (holding pre (encodeLE 3 v) post this))) /\
  (v < 2 ^ 40 ->
   readUInt40LE callback (holding pre (encodeLE 5 v) post this)
   = callback v (set_position (List.length pre + 5) (holding pre (encodeLE 5 v) post this))) /\
  readUNumeric64LE callback (holding pre (encodeLE 8 v) post this)
  = callback v (set_position (List.length pre + 8) (holding pre (encodeLE 8 v) post this)) /\
  readUNumeric96LE callback (holding pre (encodeLE 12 v) post this)
  = callback v (set_position (List.length pre + 12) (holding pre (encodeLE 12 v) post this)) /\
  readUNumeric128LE callback (holding pre (encodeLE 16 v) post this)
  = callback v (set_position (List.length pre + 16) (holding pre (encodeLE 16 v) post this)).
Proof.
  intros Hv. repeat split.
  - intros H. apply readUInt24LE_encodeLE. lia.
  - intros H. apply readUInt40LE_encodeLE. lia.
  - now apply readUNumeric64LE_encodeLE.
  - now apply readUNumeric96LE_encodeLE.
  - now apply readUNumeric128LE_encodeLE.
Qed.

(** ** The 64-bit readers *)

(** C10: with 8 bytes unread, [readUInt64LE] and [readUNumeric64LE] hand
    their callbacks the same number, the double nearest to 2^32 * high + low
    of the two unsigned little-endian words (that sum itself when it does not
    exceed 2^53), and both leave the cursor 8 bytes further. *)
Theorem C10_readUInt64LE_is_readUNumeric64LE this (callback : JS.number -> Act) :
  (position this + 8 <= List.length (buffer this))%nat ->
  let low := Buffer.readUInt32LE (buffer this) (position this) in
  let high := Buffer.readUInt32LE (buffer this) (position this + 4) in
  readUInt64LE callback this
  = callback (JS.round53 (2 ^ 32 * high + low)) (set_position (position this + 8) this) /\
  readUNumeric64LE callback this
  = callback (JS.round53 (2 ^ 32 * high + low)) (set_position (position this + 8) this) /\
  readUInt64LE callback this = readUNumeric64LE callback this /\
  (2 ^ 32 * high + low <= 2 ^ 53 -> JS.round53 (2 ^ 32 * high + low) = 2 ^ 32 * high + low).
Proof.
  intros Hready low high.
  pose proof (readUInt32LE_range (buffer this) (position this)) as Hlo.
  pose proof (readUInt32LE_range (buffer this) (position this + 4)) as Hhi.
  fold low in Hlo. fold high in Hhi.
  assert (Hmul : JS.mul 4294967296 high = 2 ^ 32 * high) by (apply mul_pow32_exact; lia).
  assert (E1 : readUInt64LE callback this
               = callback (JS.round53 (2 ^ 32 * high + low))
                          (set_position (position this + 8) this)).
  { unfold readUInt64LE. rewrite awaitData_ready by assumption.
    fold low. fold high. change (JS.pow2 32) with 4294967296. now rewrite Hmul. }
  assert (E2 : readUNumeric64LE callback this
               = callback (JS.round53 (2 ^ 32 * high + low))
                          (set_position (position this + 8) this)).
  { unfold readUNumeric64LE. rewrite awaitData_ready by assumption.
    fold low. fold high. now rewrite Hmul. }
  split; [exact E1 |]. split; [exact E2 |]. split.
  - now rewrite E1, E2.
  - intros Hsmall. apply round53_small. lia.
Qed.

(** What [readInt64LE] computes from the 8 bytes at the cursor: the low word
    is added when bit 7 of byte 4 (the lowest byte of the high word) is set
    and subtracted otherwise. *)
Lemma readInt64LE_value this (callback : JS.number -> Act) :
  (position this + 8 <= List.length (buffer this))%nat ->
  let low := Buffer.readUInt32LE (buffer this) (position this) in
  let high := Buffer.readInt32LE (buffer this) (position this + 4) in
  readInt64LE callback this
  = callback
      (JS.round53 (2 ^ 32 * high
                   + (if 128 <=? Buffer.get (buffer this) (position this + 4)
                      then low else - low)))
      (set_position (position this + 8) this).
Proof.
  intros Hready low high. unfold readInt64LE.
  rewrite awaitData_ready by assumption. fold low. fold high. f_equal.
  pose proof (readUInt32LE_range (buffer this) (position this)) as Hlo.
  pose proof (readInt32LE_range (buffer this) (position this + 4)) as Hhi.
  fold low in Hlo. fold high in Hhi.
  change (JS.pow2 32) with 4294967296.
  rewrite mul_pow32_exact by lia.
  unfold Buffer.get. rewrite band_128.
  unfold JS.add. f_equal. f_equal.
  destruct (128 <=? _); rewrite mul_small by lia; lia.
Qed.

(** C3: on the 8 bytes 01 00 00 00 00 00 00 00 (the 64-bit integer 1)
    [readInt64LE] yields -1, where 2^32 * (signed high word) + (unsigned low
    word) is 1: bit 7 of byte 4 is clear, so the low word is subtracted.  On
    the bytes 00 00 00 00 FF FF FF FF it yields -4294967296. *)
Theorem C3_readInt64LE_negates_low_word this (callback : JS.number -> Act) :
  let one := [x01; x00; x00; x00; x00; x00; x00; x00] in
  let high_ones := [x00; x00; x00; x00; xff; xff; xff; xff] in
  readInt64LE callback (holding [] one [] this)
  = callback (-1) (set_position 8 (holding [] one [] this)) /\
  2 ^ 32 * Buffer.readInt32LE one 4 + Buffer.readUInt32LE one 0 = 1 /\
  readInt64LE callback (holding [] high_ones [] this)
  = callback (-4294967296) (set_position 8 (holding [] high_ones [] this)).
Proof.
  intros one high_ones. repeat split.
Qed.

(** ** Length-prefixed text *)

Lemma readBuffer_ready (n : nat) (callback : Buffer.t -> Act) this :
  (position this + n <= List.length (buffer this))%nat ->
  readBuffer n callback this
  = callback (firstn n (unread this)) (set_position (position this + n) this).
Proof.
  intros H. unfold readBuffer. rewrite awaitData_ready by assumption.
  unfold Buffer.slice, unread. now rewrite Nat.add_comm, Nat.add_sub.
Qed.

(** C8: [readBVarChar] reads a one-byte length [L], then the next [2 * L]
    bytes, and hands over their UCS-2 decoding, a string of [L] code units;
    [readUsVarChar] does the same behind a two-byte little-endian length.
    The bytes 03 41 00 42 00 43 00, and 03 00 41 00 42 00 43 00 for the
    two-byte prefix, decode to "ABC". *)
Theorem C8_length_prefixed_text
    (L : nat) (pre data post : Buffer.t) this (callback : JS.jsstring -> Act) :
  List.length data = (2 * L)%nat ->
  (Z.of_nat L < 2 ^ 8 ->
   let s := holding pre (encodeLE 1 (Z.of_nat L) ++ data) post this in
   readBVarChar callback s
   = callback (Buffer.toString_ucs2 data) (set_position (List.length pre + 1 + 2 * L) s)) /\
  (Z.of_nat L < 2 ^ 16 ->
   let s := holding pre (encodeLE 2 (Z.of_nat L) ++ data) post this in
   readUsVarChar callback s
   = callback (Buffer.toString_ucs2 data) (set_position (List.length pre + 2 + 2 * L) s)) /\
  List.length (Buffer.toString_ucs2 data) = L /\
  Buffer.toString_ucs2 [x41; x00; x42; x00; x43; x00] = JS.of_ascii "ABC" /\
  [x03; x41; x00; x42; x00; x43; x00] = encodeLE 1 3 ++ [x41; x00; x42; x00; x43; x00] /\
  [x03; x00; x41; x00; x42; x00; x43; x00] = encodeLE 2 3 ++ [x41; x00; x42; x00; x43; x00].
Proof.
  intros Hdata. split; [| split; [| split; [| repeat split]]].
  - intros HL s. unfold readBVarChar, readUInt8.
    rewrite awaitData_ready
      by (apply holding_ready; rewrite length_app, length_encodeLE; lia).
    subst s. cbn [holding position buffer set_position set_buffer].
    unfold Buffer.readUInt8.
    rewrite get_app_mid0 by (rewrite length_app, length_encodeLE; lia).
    change (encodeLE 1 (Z.of_nat L) ++ data) with (byte_of_Z (Z.of_nat L) :: data).
    unfold Buffer.get. cbn [nth]. rewrite to_N_byte_of_Z, Z.mod_small by lia.
    rewrite mul_small by lia.
    replace (Z.to_nat (Z.of_nat L * 2)) with (2 * L)%nat by lia.
    rewrite readBuffer_ready
      by (unfold holding; cbn [position buffer set_position set_buffer];
          rewrite !length_app; simpl; lia).
    unfold unread, holding. cbn [position buffer set_position set_buffer].
    rewrite skipn_past. cbn [skipn app]. rewrite firstn_exact by assumption.
    f_equal.
  - intros HL s. unfold readUsVarChar, readUInt16LE.
    rewrite awaitData_ready
      by (apply holding_ready; rewrite length_app, length_encodeLE; lia).
    subst s. cbn [holding position buffer set_position set_buffer].
    unfold Buffer.readUInt16LE.
    rewrite get_app_mid0, get_app_mid by (rewrite length_app, length_encodeLE; lia).
    change (encodeLE 2 (Z.of_nat L) ++ data)
      with (byte_of_Z (Z.of_nat L) :: byte_of_Z (Z.of_nat L / 256) :: data).
    unfold Buffer.get. cbn [nth]. rewrite !to_N_byte_of_Z.
    replace (Z.of_nat L mod 256 + 2 ^ 8 * ((Z.of_nat L / 256) mod 256)) with (Z.of_nat L)
      by (change (2 ^ 8) with 256; change (2 ^ 16) with 65536 in HL;
          Z.to_euclidean_division_equations; lia).
    rewrite mul_small by lia.
    replace (Z.to_nat (Z.of_nat L * 2)) with (2 * L)%nat by lia.
    rewrite readBuffer_ready
      by (unfold holding; cbn [position buffer set_position set_buffer];
          rewrite !length_app; simpl; lia).
    unfold unread, holding. cbn [position buffer set_position set_buffer].
    rewrite skipn_past. cbn [skipn app]. rewrite firstn_exact by assumption.
    f_equal.
  - now apply length_toString_ucs2.
Qed.

End ReaderProperties.

(** ** Callbacks written against the reader interface *)

(** Splits the conjunctions of the goal as they are written. *)
Ltac conj_split := repeat match goal with |- _ /\ _ => split end.

Section CallbackProperties.

Context {Column Value Options : Type}.

Local Abbreviation Store := (@Store Column Value Options).
Local Abbreviation Act := (@Act Column Value Options).

Implicit Types (this s t : Store) (callback : Act).

Lemma length_unread this :
  List.length (unread this) = (List.length (buffer this) - position this)%nat.
Proof. unfold unread. apply length_skipn. Qed.

Lemma ready_iff this (n : nat) :
  cursor_ok this ->
  (position this + n <= List.length (buffer this))%nat <-> (n <= List.length (unread this))%nat.
Proof. unfold cursor_ok. rewrite length_unread. lia. Qed.

Lemma unread_advance this (n : nat) :
  unread (set_position (position this + n) this) = skipn n (unread this).
Proof.
  unfold unread. cbn [position buffer set_position].
  now rewrite skipn_skipn, Nat.add_comm.
Qed.

Lemma slice_unread this (n : nat) :
  Buffer.slice (buffer this) (position this) (position this + n) = firstn n (unread this).
Proof. unfold Buffer.slice, unread. now rewrite Nat.add_comm, Nat.add_sub. Qed.

Lemma cursor_ok_advance this (n : nat) :
  (position this + n <= List.length (buffer this))%nat ->
  cursor_ok (set_position (position this + n) this).
Proof. intros H. unfold cursor_ok. cbn [position buffer set_position]. exact H. Qed.

Lemma extends_advance (extra : Buffer.t) s1 s2 (n : nat) :
  extends extra s1 s2 -> (n <= List.length (unread s1))%nat ->
  extends extra (set_position (position s1 + n) s1) (set_position (position s2 + n) s2).
Proof.
  intros (Hu & Hrest) Hn. split; [| exact Hrest].
  rewrite !unread_advance, Hu, skipn_app.
  replace (n - List.length (unread s1))%nat with 0%nat by lia. reflexivity.
Qed.

Lemma extends_firstn (extra : Buffer.t) s1 s2 (n : nat) :
  extends extra s1 s2 -> (n <= List.length (unread s1))%nat ->
  firstn n (unread s2) = firstn n (unread s1).
Proof.
  intros (Hu & _) Hn. rewrite Hu, firstn_app.
  replace (n - List.length (unread s1))%nat with 0%nat by lia.
  simpl. apply app_nil_r.
Qed.

Lemma extends_length (extra : Buffer.t) s1 s2 :
  extends extra s1 s2 ->
  List.length (unread s2) = (List.length (unread s1) + List.length extra)%nat.
Proof. intros (Hu & _). now rewrite Hu, length_app. Qed.

Lemma extends_refl this : extends [] this this.
Proof. unfold extends. rewrite app_nil_r. repeat split. Qed.

Lemma extends_sym s1 s2 : extends [] s1 s2 -> extends [] s2 s1.
Proof.
  unfold extends. rewrite !app_nil_r. intros (? & ? & ? & ? & ? & ? & ?).
  repeat split; congruence.
Qed.

Lemma extends_trans (extra : Buffer.t) s1 s2 s3 :
  extends [] s1 s2 -> extends extra s2 s3 -> extends extra s1 s3.
Proof.
  unfold extends. rewrite !app_nil_r.
  intros (? & ? & ? & ? & ? & ? & ?) (? & ? & ? & ? & ? & ? & ?).
  repeat split; congruence.
Qed.

Lemma doneParsing_extends (token : option Token) (extra : Buffer.t) s1 s2 :
  cursor_ok s1 -> cursor_ok s2 -> extends extra s1 s2 ->
  exists t1 t2,
    doneParsing token s1 = Returned t1 /\ doneParsing token s2 = Returned t2 /\
    cursor_ok t1 /\ cursor_ok t2 /\ extends extra t1 t2 /\ unread t1 = unread s1.
Proof.
  intros H1 H2 (Hu & Hc & Ho & Hl & Hp & He & Hd).
  destruct token as [token |]; cbn [doneParsing].
  - eexists; eexists. split; [reflexivity |]. split; [reflexivity |].
    destruct token; unfold extends, cursor_ok, unread in *;
      cbn [push set_colMetadata buffer position colMetadata options errorListener
           pushed errors dispatched];
      repeat split; try first [assumption | congruence].
  - exists s1, s2. repeat split; assumption.
Qed.

(** A reader-built callback consumes from the unread bytes only: run with
    more bytes behind the window it goes the same way, ending in the same
    place or going on from the point where it suspended. *)
Lemma callback_extends (a : Act) :
  reader_built a ->
  forall (extra : Buffer.t) s1 s2,
    cursor_ok s1 -> cursor_ok s2 -> extends extra s1 s2 ->
    match a s1 with
    | Returned t1 =>
        exists t2, a s2 = Returned t2 /\ cursor_ok t1 /\ cursor_ok t2 /\
                   extends extra t1 t2 /\
                   (List.length (unread t1) <= List.length (unread s1))%nat
    | Suspended t1 m c =>
        reader_built (awaitData m c) /\ cursor_ok t1 /\
        (List.length (unread t1) < m)%nat /\
        (List.length (unread t1) <= List.length (unread s1))%nat /\
        exists t2, cursor_ok t2 /\ extends extra t1 t2 /\ a s2 = awaitData m c t2
    end.
Proof.
  induction 1 as [token a Ha | n callback k a Ha Hk Hbuilt IH];
    intros extra s1 s2 H1 H2 Hext.
  - rewrite !Ha.
    destruct (doneParsing_extends token extra s1 s2 H1 H2 Hext)
      as (t1 & t2 & E1 & E2 & ? & ? & ? & Hu).
    rewrite E1. exists t2. rewrite Hu. conj_split; auto; try lia.
  - rewrite (Ha s1).
    destruct (Nat.le_gt_cases n (List.length (unread s1))) as [Hn | Hn].
    + assert (R1 : (position s1 + n <= List.length (buffer s1))%nat)
        by (apply ready_iff; assumption).
      assert (R2 : (position s2 + n <= List.length (buffer s2))%nat)
        by (apply ready_iff; [assumption | rewrite (extends_length extra s1 s2 Hext); lia]).
      rewrite (Ha s2), !awaitData_ready, !Hk, !slice_unread by assumption.
      rewrite (extends_firstn extra s1 s2 n Hext Hn).
      specialize (IH (firstn n (unread s1)) extra
                     (set_position (position s1 + n) s1)
                     (set_position (position s2 + n) s2)
                     (cursor_ok_advance s1 n R1) (cursor_ok_advance s2 n R2)
                     (extends_advance extra s1 s2 n Hext Hn)).
      rewrite unread_advance, length_skipn in IH.
      destruct (k (firstn n (unread s1)) (set_position (position s1 + n) s1))
        as [t1 | t1 m c].
      * destruct IH as (t2 & E & ? & ? & ? & ?). exists t2. conj_split; auto; try lia.
      * destruct IH as (? & ? & ? & ? & t2 & ? & ? & E).
        conj_split; auto; try lia. exists t2. conj_split; auto.
    + assert (R1 : (List.length (buffer s1) < position s1 + n)%nat)
        by (pose proof (ready_iff s1 n H1); lia).
      rewrite awaitData_short by assumption.
      conj_split; auto; try lia.
      * eapply rb_await; [reflexivity | exact Hk | exact Hbuilt].
      * exists s2. conj_split; auto.
Qed.

(** ** The readers of the class keep to the reader interface *)

Lemma get_slice (buf : Buffer.t) (pos n i : nat) :
  (i < n)%nat ->
  Buffer.get (Buffer.slice buf pos (pos + n)) i = Buffer.get buf (pos + i).
Proof.
  intros Hi. unfold Buffer.get, Buffer.slice.
  rewrite Nat.add_comm, Nat.add_sub, nth_firstn, nth_skipn.
  destruct (Nat.ltb_spec i n); [reflexivity | lia].
Qed.

Lemma readUInt8_slice (buf : Buffer.t) (pos n off : nat) :
  (off + 1 <= n)%nat ->
  Buffer.readUInt8 (Buffer.slice buf pos (pos + n)) off = Buffer.readUInt8 buf (pos + off).
Proof. intros H. unfold Buffer.readUInt8. apply get_slice. lia. Qed.

Lemma readUInt16LE_slice (buf : Buffer.t) (pos n off : nat) :
  (off + 2 <= n)%nat ->
  Buffer.readUInt16LE (Buffer.slice buf pos (pos + n)) off = Buffer.readUInt16LE buf (pos + off).
Proof.
  intros H. unfold Buffer.readUInt16LE. rewrite !get_slice by lia.
  now rewrite !Nat.add_assoc.
Qed.

Lemma readUInt16BE_slice (buf : Buffer.t) (pos n off : nat) :
  (off + 2 <= n)%nat ->
  Buffer.readUInt16BE (Buffer.slice buf pos (pos + n)) off = Buffer.readUInt16BE buf (pos + off).
Proof.
  intros H. unfold Buffer.readUInt16BE. rewrite !get_slice by lia.
  now rewrite !Nat.add_assoc.
Qed.

Lemma readUInt32LE_slice (buf : Buffer.t) (pos n off : nat) :
  (off + 4 <= n)%nat ->
  Buffer.readUInt32LE (Buffer.slice buf pos (pos + n)) off = Buffer.readUInt32LE buf (pos + off).
Proof.
  intros H. unfold Buffer.readUInt32LE. rewrite !get_slice by lia.
  now rewrite !Nat.add_assoc.
Qed.

Lemma readUInt32BE_slice (buf : Buffer.t) (pos n off : nat) :
  (off + 4 <= n)%nat ->
  Buffer.readUInt32BE (Buffer.slice buf pos (pos + n)) off = Buffer.readUInt32BE buf (pos + off).
Proof.
  intros H. unfold Buffer.readUInt32BE. rewrite !get_slice by lia.
  now rewrite !Nat.add_assoc.
Qed.

(** What a fixed-width reader computes depends on its own bytes only. *)
Ltac local_read :=
  intros;
  unfold Buffer.readInt8, Buffer.readInt16LE, Buffer.readInt16BE,
         Buffer.readInt32LE, Buffer.readInt32BE;
  rewrite ?readUInt8_slice, ?readUInt16LE_slice, ?readUInt16BE_slice,
          ?readUInt32LE_slice, ?readUInt32BE_slice, ?get_slice by lia;
  rewrite ?Nat.add_0_r; reflexivity.

Lemma reader_built_fixed {A : Type} (n : nat) (D : Buffer.t -> nat -> A) (callback : A -> Act) :
  (forall buf pos, D buf pos = D (Buffer.slice buf pos (pos + n)) 0%nat) ->
  (forall x, reader_built (callback x)) ->
  reader_built
    (awaitData n (fun this =>
       callback (D (buffer this) (position this)) (set_position (position this + n) this))).
Proof.
  intros HD Hcb.
  eapply rb_await with (length := n) (k := fun data => callback (D data 0%nat)).
  - intros this. reflexivity.
  - intros this _. cbv beta. now rewrite <- HD.
  - intros data. apply Hcb.
Qed.

Lemma reader_built_readInt8 (callback : JS.number -> Act) :
  (forall data, reader_built (callback data)) -> reader_built (readInt8 callback).
Proof.
  intros H. unfold readInt8.
  apply (reader_built_fixed 1
    Buffer.readInt8
    callback); [local_read | exact H].
Qed.

Lemma reader_built_readUInt8 (callback : JS.number -> Act) :
  (forall data, reader_built (callback data)) -> reader_built (readUInt8 callback).
Proof.
  intros H. unfold readUInt8.
  apply (reader_built_fixed 1
    Buffer.readUInt8
    callback); [local_read | exact H].
Qed.

Lemma reader_built_readInt16LE (callback : JS.number -> Act) :
  (forall data, reader_built (callback data)) -> reader_built (readInt16LE callback).
Proof.
  intros H. unfold readInt16LE.
  apply (reader_built_fixed 2
    Buffer.readInt16LE
    callback); [local_read | exact H].
Qed.

Lemma reader_built_readInt16BE (callback : JS.number -> Act) :
  (forall data, reader_built (callback data)) -> reader_built (readInt16BE callback).
Proof.
  intros H. unfold readInt16BE.
  apply (reader_built_fixed 2
    Buffer.readInt16BE
    callback); [local_read | exact H].
Qed.

Lemma reader_built_readUInt16LE (callback : JS.number -> Act) :
  (forall data, reader_built (callback data)) -> reader_built (readUInt16LE callback).
Proof.
  intros H. unfold readUInt16LE.
  apply (reader_built_fixed 2
    Buffer.readUInt16LE
    callback); [local_read | exact H].
Qed.

Lemma reader_built_readUInt16BE (callback : JS.number -> Act) :
  (forall data, reader_built (callback data)) -> reader_built (readUInt16BE callback).
Proof.
  intros H. unfold readUInt16BE.
  apply (reader_built_fixed 2
    Buffer.readUInt16BE
    callback); [local_read | exact H].
Qed.

Lemma reader_built_readInt32LE (callback : JS.number -> Act) :
  (forall data, reader_built (callback data)) -> reader_built (readInt32LE callback).
Proof.
  intros H. unfold readInt32LE.
  apply (reader_built_fixed 4
    Buffer.readInt32LE
    callback); [local_read | exact H].
Qed.

Lemma reader_built_readInt32BE (callback : JS.number -> Act) :
  (forall data, reader_built (callback data)) -> reader_built (readInt32BE callback).
Proof.
  intros H. unfold readInt32BE.
  apply (reader_built_fixed 4
    Buffer.readInt32BE
    callback); [local_read | exact H].
Qed.

Lemma reader_built_readUInt32LE (callback : JS.number -> Act) :
  (forall data, reader_built (callback data)) -> reader_built (readUInt32LE callback).
Proof.
  intros H. unfold readUInt32LE.
  apply (reader_built_fixed 4
    Buffer.readUInt32LE
    callback); [local_read | exact H].
Qed.

Lemma reader_built_readUInt32BE (callback : JS.number -> Act) :
  (forall data, reader_built (callback data)) -> reader_built (readUInt32BE callback).
Proof.
  intros H. unfold readUInt32BE.
  apply (reader_built_fixed 4
    Buffer.readUInt32BE
    callback); [local_read | exact H].
Qed.

Lemma reader_built_readInt64LE (callback : JS.number -> Act) :
  (forall data, reader_built (callback data)) -> reader_built (readInt64LE callback).
Proof.
  intros H. unfold readInt64LE.
  apply (reader_built_fixed 8
    (fun buf pos =>
       JS.add (JS.mul (JS.pow2 32) (Buffer.readInt32LE buf (pos + 4)))
              (JS.mul (if JS.band (Buffer.get buf (pos + 4)) 128 =? 128 then 1 else -1)
                      (Buffer.readUInt32LE buf pos)))
    callback); [local_read | exact H].
Qed.

Lemma reader_built_readInt64BE (callback : JS.number -> Act) :
  (forall data, reader_built (callback data)) -> reader_built (readInt64BE callback).
Proof.
  intros H. unfold readInt64BE.
  apply (reader_built_fixed 8
    (fun buf pos =>
       JS.add (JS.mul (JS.pow2 32) (Buffer.readInt32BE buf pos))
              (JS.mul (if JS.band (Buffer.get buf pos) 128 =? 128 then 1 else -1)
                      (Buffer.readUInt32BE buf (pos + 4))))
    callback); [local_read | exact H].
Qed.

Lemma reader_built_readUInt64LE (callback : JS.number -> Act) :
  (forall data, reader_built (callback data)) -> reader_built (readUInt64LE callback).
Proof.
  intros H. unfold readUInt64LE.
  apply (reader_built_fixed 8
    (fun buf pos =>
       JS.add (JS.mul (JS.pow2 32) (Buffer.readUInt32LE buf (pos + 4)))
              (Buffer.readUInt32LE buf pos))
    callback); [local_read | exact H].
Qed.

Lemma reader_built_readUInt64BE (callback : JS.number -> Act) :
  (forall data, reader_built (callback data)) -> reader_built (readUInt64BE callback).
Proof.
  intros H. unfold readUInt64BE.
  apply (reader_built_fixed 8
    (fun buf pos =>
       JS.add (JS.mul (JS.pow2 32) (Buffer.readUInt32BE buf pos))
              (Buffer.readUInt32BE buf (pos + 4)))
    callback); [local_read | exact H].
Qed.

Lemma reader_built_readUInt24LE (callback : JS.number -> Act) :
  (forall data, reader_built (callback data)) -> reader_built (readUInt24LE callback).
Proof.
  intros H. unfold readUInt24LE.
  apply (reader_built_fixed 3
    (fun buf pos =>
       JS.bor (Buffer.readUInt16LE buf pos) (JS.shl (Buffer.readUInt8 buf (pos + 2)) 16))
    callback); [local_read | exact H].
Qed.

Lemma reader_built_readUInt40LE (callback : JS.number -> Act) :
  (forall data, reader_built (callback data)) -> reader_built (readUInt40LE callback).
Proof.
  intros H. unfold readUInt40LE.
  apply (reader_built_fixed 5
    (fun buf pos =>
       JS.add (JS.mul 4294967296 (Buffer.readUInt8 buf (pos + 4))) (Buffer.readUInt32LE buf pos))
    callback); [local_read | exact H].
Qed.

Lemma reader_built_readUNumeric64LE (callback : JS.number -> Act) :
  (forall data, reader_built (callback data)) -> reader_built (readUNumeric64LE callback).
Proof.
  intros H. unfold readUNumeric64LE.
  apply (reader_built_fixed 8
    (fun buf pos =>
       JS.add (JS.mul 4294967296 (Buffer.readUInt32LE buf (pos + 4)))
              (Buffer.readUInt32LE buf pos))
    callback); [local_read | exact H].
Qed.

Lemma reader_built_readUNumeric96LE (callback : JS.number -> Act) :
  (forall data, reader_built (callback data)) -> reader_built (readUNumeric96LE callback).
Proof.
  intros H. unfold readUNumeric96LE.
  apply (reader_built_fixed 12
    (fun buf pos =>
       JS.add (JS.add (Buffer.readUInt32LE buf pos)
                      (JS.mul 4294967296 (Buffer.readUInt32LE buf (pos + 4))))
              (JS.mul (JS.mul 4294967296 4294967296) (Buffer.readUInt32LE buf (pos + 8))))
    callback); [local_read | exact H].
Qed.

Lemma reader_built_readUNumeric128LE (callback : JS.number -> Act) :
  (forall data, reader_built (callback data)) -> reader_built (readUNumeric128LE callback).
Proof.
  intros H. unfold readUNumeric128LE.
  apply (reader_built_fixed 16
    (fun buf pos =>
       JS.add (JS.add (JS.add (Buffer.readUInt32LE buf pos)
                              (JS.mul 4294967296 (Buffer.readUInt32LE buf (pos + 4))))
                      (JS.mul (JS.mul 4294967296 4294967296) (Buffer.readUInt32LE buf (pos + 8))))
              (JS.mul (JS.mul (JS.mul 4294967296 4294967296) 4294967296)
                      (Buffer.readUInt32LE buf (pos + 12))))
    callback); [local_read | exact H].
Qed.

Lemma reader_built_readBuffer (length : nat) (callback : Buffer.t -> Act) :
  (forall data, reader_built (callback data)) -> reader_built (readBuffer length callback).
Proof.
  intros H. unfold readBuffer.
  eapply rb_await with (length := length) (k := callback).
  - intros this. reflexivity.
  - intros this _. reflexivity.
  - exact H.
Qed.

Lemma reader_built_readBVarChar (callback : JS.jsstring -> Act) :
  (forall data, reader_built (callback data)) -> reader_built (readBVarChar callback).
Proof.
  intros H. unfold readBVarChar.
  apply reader_built_readUInt8. intros length. now apply reader_built_readBuffer.
Qed.

Lemma reader_built_readUsVarChar (callback : JS.jsstring -> Act) :
  (forall data, reader_built (callback data)) -> reader_built (readUsVarChar callback).
Proof.
  intros H. unfold readUsVarChar.
  apply reader_built_readUInt16LE. intros length. now apply reader_built_readBuffer.
Qed.

Lemma reader_built_readBVarByte (callback : Buffer.t -> Act) :
  (forall data, reader_built (callback data)) -> reader_built (readBVarByte callback).
Proof.
  intros H. unfold readBVarByte.
  apply reader_built_readUInt8. intros length. now apply reader_built_readBuffer.
Qed.

Lemma reader_built_readUsVarByte (callback : Buffer.t -> Act) :
  (forall data, reader_built (callback data)) -> reader_built (readUsVarByte callback).
Proof.
  intros H. unfold readUsVarByte.
  apply reader_built_readUInt16LE. intros length. now apply reader_built_readBuffer.
Qed.

Lemma reader_built_doneParsing (token : option Token) :
  reader_built (doneParsing token : Act).
Proof. now apply (rb_done token). Qed.

End CallbackProperties.

(** ** The dispatch loop and the stream of chunks *)

Section DispatchProperties.

Context {Column Value Options : Type}.

Local Abbreviation Store := (@Store Column Value Options).
Local Abbreviation Parser := (@Parser Column Value Options).
Local Abbreviation Act := (@Act Column Value Options).
Local Abbreviation Result := (@Result Column Value Options).
Local Abbreviation Input := (@Input).

Variable tokenParsers : JS.number -> option (@TokenParser Column Value Options).

Local Abbreviation loop := (parseTokens_loop tokenParsers).

Implicit Types (this s t : Store) (p q : Parser).

Lemma loop_suspended (fuel : nat) p : suspended p = true -> loop fuel p = Normal p.
Proof. intros H. destruct fuel; simpl; [reflexivity | now rewrite H]. Qed.

Lemma loop_exhausted (fuel : nat) p :
  cursor_ok p -> unread p = [] -> loop fuel p = Normal p.
Proof.
  intros Hok Hu. destruct fuel; simpl; [reflexivity |].
  pose proof (length_unread p) as L. rewrite Hu in L. simpl in L.
  destruct (Nat.leb_spec (position p + 1) (List.length (buffer p))); [lia |].
  now rewrite andb_false_r.
Qed.

Lemma unread_head this (b : byte) (rest : Buffer.t) :
  unread this = b :: rest ->
  Buffer.readUInt8 (buffer this) (position this) = Z.of_N (Byte.to_N b) /\
  (position this + 1 <= List.length (buffer this))%nat /\
  unread (set_position (position this + 1) this) = rest.
Proof.
  intros Hu. pose proof (length_unread this) as L. rewrite Hu in L. simpl in L.
  repeat split; [| lia | now rewrite unread_advance, Hu].
  unfold Buffer.readUInt8, Buffer.get. unfold unread in Hu.
  rewrite <- (firstn_skipn (position this) (buffer this)) at 1.
  rewrite app_nth2 by (rewrite length_firstn; lia).
  rewrite length_firstn, Nat.min_l, Nat.sub_diag, Hu by lia. reflexivity.
Qed.

(** One round of the loop on a parser that is not suspended and has the
    byte [b] under the cursor. *)
Lemma loop_step (fuel : nat) p (b : byte) (rest : Buffer.t) :
  suspended p = false -> unread p = b :: rest ->
  loop (S fuel) p =
  let type := Z.of_N (Byte.to_N b) in
  let p' := with_store (set_position (position p + 1) p) p in
  match tokenParsers type with
  | Some tokenParser =>
      loop fuel
        (settle (tokenParser (colMetadata p) (options p) doneParsing
                   (log_dispatch (mkDispatch type (colMetadata p) (List.length (pushed p))) p'))
                p')
  | None =>
      match emit_error (UnknownType type) p' with
      | inl s => loop fuel (with_store s p')
      | inr e => Throw e p'
      end
  end.
Proof.
  intros Hs Hu. destruct (unread_head p b rest Hu) as (Hb & Hlen & _).
  cbn [parseTokens_loop]. rewrite Hs, Hb.
  destruct (Nat.leb_spec (position p + 1) (List.length (buffer p))); [| lia].
  reflexivity.
Qed.

Hypothesis registry : registry_ok tokenParsers.

Lemma extends_head (extra : Buffer.t) s1 s2 (b : byte) (rest : Buffer.t) :
  extends extra s1 s2 -> unread s1 = b :: rest -> unread s2 = b :: (rest ++ extra).
Proof. intros (Hu & _) H1. now rewrite Hu, H1. Qed.

Lemma extends_log_dispatch (extra : Buffer.t) s1 s2 (d : Dispatch) :
  extends extra s1 s2 -> extends extra (log_dispatch d s1) (log_dispatch d s2).
Proof.
  unfold extends, unread. cbn. intros (? & ? & ? & ? & ? & ? & ?).
  conj_split; congruence.
Qed.

Lemma extends_log_error (extra : Buffer.t) s1 s2 (e : Error) :
  extends extra s1 s2 -> extends extra (log_error e s1) (log_error e s2).
Proof.
  unfold extends, unread. cbn. intros (? & ? & ? & ? & ? & ? & ?).
  conj_split; congruence.
Qed.

Lemma unread_log_dispatch (d : Dispatch) s : unread (log_dispatch d s) = unread s.
Proof. reflexivity. Qed.

Lemma unread_log_error (e : Error) s : unread (log_error e s) = unread s.
Proof. reflexivity. Qed.

Lemma similar_parser_refl p : parser_ok p -> similar_parser p p.
Proof.
  intros (Hc & Ht). unfold similar_parser. conj_split; auto using extends_refl.
Qed.

Lemma similar_parser_sym p1 p2 : similar_parser p1 p2 -> similar_parser p2 p1.
Proof.
  intros (H1 & H2 & He & Hs & Ht). unfold similar_parser.
  conj_split; auto using extends_sym.
  intros Hs2. rewrite <- Hs in Hs2. destruct (Ht Hs2) as (En & n & c & E & Hb).
  split; [congruence |]. exists n, c. split; [congruence | assumption].
Qed.

Lemma similar_parser_trans p1 p2 p3 :
  similar_parser p1 p2 -> similar_parser p2 p3 -> similar_parser p1 p3.
Proof.
  intros (H1 & H2 & He & Hs & Ht) (_ & H3 & He' & Hs' & Ht'). unfold similar_parser.
  conj_split; auto; [eapply extends_trans; eassumption | congruence |].
  intros Hs1. destruct (Ht Hs1) as (En & n & c & E & Hb).
  rewrite Hs in Hs1. destruct (Ht' Hs1) as (En' & _).
  split; [congruence |]. exists n, c. split; assumption.
Qed.

Lemma similar_parser_ok p1 p2 : similar_parser p1 p2 -> parser_ok p1.
Proof.
  intros (H1 & _ & _ & _ & Ht). split; [assumption |].
  intros Hs. destruct (Ht Hs) as (_ & n & c & E & Hb). now exists n, c.
Qed.

Lemma similar_result_sym (r1 r2 : Result) : similar_result r1 r2 -> similar_result r2 r1.
Proof.
  destruct r1, r2; simpl; try tauto.
  - apply similar_parser_sym.
  - intros (? & ? & ? & ? & ?). conj_split; congruence.
Qed.

Lemma similar_result_trans (r1 r2 r3 : Result) :
  similar_result r1 r2 -> similar_result r2 r3 -> similar_result r1 r3.
Proof.
  destruct r1, r2, r3; simpl; try tauto.
  - apply similar_parser_trans.
  - intros (? & ? & ? & ? & ?) (? & ? & ? & ? & ?). conj_split; congruence.
Qed.

Lemma similar_unsuspended s1 s2 (n1 n2 : option Thunk) :
  cursor_ok s1 -> cursor_ok s2 -> extends [] s1 s2 ->
  similar_parser (mkParser s1 false n1) (mkParser s2 false n2).
Proof.
  intros. unfold similar_parser. cbn. conj_split; auto. discriminate.
Qed.

Lemma similar_suspended s1 s2 (m : nat) (c : Act) :
  cursor_ok s1 -> cursor_ok s2 -> extends [] s1 s2 -> reader_built (awaitData m c) ->
  similar_parser (mkParser s1 true (Some (RetryAwait m c)))
                 (mkParser s2 true (Some (RetryAwait m c))).
Proof.
  intros. unfold similar_parser. cbn. conj_split; auto.
  intros _. split; [reflexivity |]. now exists m, c.
Qed.

Lemma awaitData_short_unread (m : nat) (c : Act) t :
  cursor_ok t -> (List.length (unread t) < m)%nat -> awaitData m c t = Suspended t m c.
Proof.
  intros Hc Hm. apply awaitData_short. pose proof (ready_iff t m Hc). lia.
Qed.

(** Similar parsers go through the loop alike, whatever fuel each has
    beyond its number of unread bytes. *)
Lemma loop_respect (n : nat) :
  forall p1 p2 (f1 f2 : nat),
    (List.length (unread p1) < n)%nat ->
    similar_parser p1 p2 ->
    (List.length (unread p1) <= f1)%nat -> (List.length (unread p2) <= f2)%nat ->
    similar_result (loop f1 p1) (loop f2 p2).
Proof.
  induction n as [| n IH]; intros p1 p2 f1 f2 Hn Hsim Hf1 Hf2; [lia |].
  destruct (suspended p1) eqn:Hs1.
  { assert (Hs2 : suspended p2 = true) by (destruct Hsim as (_ & _ & _ & <- & _); assumption).
    rewrite !loop_suspended by assumption. exact Hsim. }
  destruct Hsim as (C1 & C2 & He & Hs & _).
  assert (Hs2 : suspended p2 = false) by congruence.
  destruct (unread p1) as [| b rest] eqn:U1.
  { assert (U2 : unread p2 = []) by (destruct He as (Hu & _); now rewrite Hu, U1).
    rewrite !loop_exhausted by assumption.
    destruct p1 as [s1 ? n1], p2 as [s2 ? n2]. cbn in *. subst.
    now apply similar_unsuspended. }
  pose proof (extends_head [] p1 p2 b rest He U1) as U2. rewrite app_nil_r in U2.
  rewrite U2 in Hf2. simpl in Hn, Hf1, Hf2.
  destruct f1 as [| f1]; [lia |]. destruct f2 as [| f2]; [lia |].
  rewrite (loop_step f1 p1 b rest Hs1 U1), (loop_step f2 p2 b rest Hs2 U2). cbv zeta.
  destruct (unread_head p1 b rest U1) as (_ & R1 & A1).
  destruct (unread_head p2 b rest U2) as (_ & R2 & A2).
  pose proof (cursor_ok_advance p1 1 R1) as C1'.
  pose proof (cursor_ok_advance p2 1 R2) as C2'.
  assert (He' : extends [] (set_position (position p1 + 1) p1) (set_position (position p2 + 1) p2))
    by (apply extends_advance; [assumption | rewrite U1; simpl; lia]).
  destruct He as (_ & Ec & Eo & El & Ep & Ee & Ed).
  rewrite Ec, Eo, Ep.
  destruct (tokenParsers (Z.of_N (Byte.to_N b))) as [tokenParser |] eqn:Hreg.
  - set (d := mkDispatch (Z.of_N (Byte.to_N b)) (colMetadata p1) (List.length (pushed p1))).
    pose proof (callback_extends _ (registry _ _ Hreg (colMetadata p1) (options p1)) []
                  (log_dispatch d (set_position (position p1 + 1) p1))
                  (log_dispatch d (set_position (position p2 + 1) p2))
                  C1' C2' (extends_log_dispatch [] _ _ d He')) as Hcb.
    cbn [with_store store].
    destruct (tokenParser (colMetadata p1) (options p1) doneParsing
                (log_dispatch d (set_position (position p1 + 1) p1))) as [t1 | t1 m c].
    + destruct Hcb as (t2 & -> & Ct1 & Ct2 & Het & Hlen).
      unfold with_store. cbn [settle suspended next]. rewrite Hs1, Hs2.
      rewrite unread_log_dispatch, A1 in Hlen.
      apply IH; cbn [store].
      * lia.
      * now apply similar_unsuspended.
      * lia.
      * rewrite (extends_length [] t1 t2 Het). simpl. lia.
    + destruct Hcb as (Hb & Ct1 & Hm & Hlen & t2 & Ct2 & Het & ->).
      rewrite (awaitData_short_unread m c t2 Ct2)
        by (rewrite (extends_length [] t1 t2 Het); simpl; lia).
      cbn [settle]. rewrite !loop_suspended by reflexivity.
      now apply similar_suspended.
  - unfold emit_error. cbn [with_store store errorListener set_position].
    rewrite El. destruct (errorListener p1).
    + unfold with_store. cbn [store suspended next]. rewrite Hs1, Hs2.
      apply IH; cbn [store]; rewrite ?unread_log_error, ?A1, ?A2; try lia.
      apply similar_unsuspended; auto using extends_log_error.
    + cbn. conj_split; auto.
Qed.

Lemma parseTokens_respect p1 p2 :
  similar_parser p1 p2 -> similar_result (parseTokens tokenParsers p1) (parseTokens tokenParsers p2).
Proof.
  intros H. unfold parseTokens. rewrite <- !length_unread.
  apply (loop_respect (S (List.length (unread p1)))); auto; lia.
Qed.

Lemma parse_unless_suspended_respect p1 p2 :
  similar_parser p1 p2 ->
  similar_result (parse_unless_suspended tokenParsers p1)
                 (parse_unless_suspended tokenParsers p2).
Proof.
  intros H. unfold parse_unless_suspended.
  destruct H as (C1 & C2 & He & Hs & Ht). rewrite <- Hs.
  destruct (suspended p1) eqn:Hs1; cbn [negb].
  - unfold similar_result, similar_parser. rewrite Hs1 in *. conj_split; auto.
  - apply parseTokens_respect. unfold similar_parser. rewrite Hs1 in *. conj_split; auto.
Qed.

(** After a callback has run on a parser that was not suspended, the loop
    with enough fuel does what lines 104-110 do. *)
Lemma loop_after p1 p2 (fuel : nat) :
  similar_parser p1 p2 -> (List.length (unread p1) <= fuel)%nat ->
  similar_result (loop fuel p1) (parse_unless_suspended tokenParsers p2).
Proof.
  intros H Hf. unfold parse_unless_suspended.
  pose proof H as (C1 & C2 & He & Hs & Ht). rewrite <- Hs.
  destruct (suspended p1) eqn:Hs1; cbn [negb].
  - rewrite loop_suspended by assumption. exact H.
  - unfold parseTokens. rewrite <- length_unread.
    apply (loop_respect (S (List.length (unread p1)))); auto; lia.
Qed.

(** The same reader-built callback on two similar stores leaves similar
    parsers. *)
Lemma settle_respect (a : Act) s1 s2 p1 p2 :
  reader_built a -> cursor_ok s1 -> cursor_ok s2 -> extends [] s1 s2 ->
  suspended p1 = false -> suspended p2 = false ->
  similar_parser (settle (a s1) p1) (settle (a s2) p2) /\
  (List.length (unread (settle (a s1) p1)) <= List.length (unread s1))%nat.
Proof.
  intros Hb C1 C2 He Hs1 Hs2.
  pose proof (callback_extends a Hb [] s1 s2 C1 C2 He) as Hcb.
  destruct (a s1) as [t1 | t1 m c].
  - destruct Hcb as (t2 & -> & ? & ? & ? & ?). cbn [settle store]. rewrite Hs1, Hs2.
    split; [now apply similar_unsuspended | assumption].
  - destruct Hcb as (? & ? & ? & ? & t2 & ? & Het & ->).
    rewrite (awaitData_short_unread m c t2)
      by (try assumption; rewrite (extends_length [] t1 t2 Het); simpl; lia).
    cbn [settle store]. split; [now apply similar_suspended | assumption].
Qed.

Lemma append_extends (input : Buffer.t) p :
  cursor_ok (append input p) /\ extends input p (append input p) /\
  suspended (append input p) = suspended p /\ next (append input p) = next p /\
  position (append input p) = 0%nat.
Proof.
  unfold append, with_store, cursor_ok, extends, unread.
  destruct (Nat.eqb_spec (position p) (List.length (buffer p))) as [E | E];
    cbn [store suspended next buffer position colMetadata options errorListener pushed
         errors dispatched set_buffer set_position skipn];
    conj_split; auto; try lia.
  rewrite E, skipn_all. reflexivity.
Qed.

Lemma extends_append (extra input : Buffer.t) p1 p2 :
  extends extra p1 p2 -> extra = [] ->
  extends [] (append input p1) (append input p2).
Proof.
  intros He ->.
  destruct (append_extends input p1) as (_ & H1 & _).
  destruct (append_extends input p2) as (_ & H2 & _).
  unfold extends in *. rewrite !app_nil_r in *.
  destruct He as (? & ? & ? & ? & ? & ? & ?).
  destruct H1 as (? & ? & ? & ? & ? & ? & ?).
  destruct H2 as (? & ? & ? & ? & ? & ? & ?).
  conj_split; congruence.
Qed.

Lemma similar_append (input : Buffer.t) p1 p2 :
  similar_parser p1 p2 -> similar_parser (append input p1) (append input p2).
Proof.
  intros (C1 & C2 & He & Hs & Ht).
  destruct (append_extends input p1) as (A1 & _ & S1 & N1 & _).
  destruct (append_extends input p2) as (A2 & _ & S2 & N2 & _).
  unfold similar_parser. rewrite S1, S2, N1, N2.
  conj_split; auto. eapply extends_append; eauto.
Qed.

Lemma resume_respect p1 p2 :
  similar_parser p1 p2 -> suspended p1 = true ->
  similar_parser (resume p1) (resume p2) /\
  (List.length (unread (resume p1)) <= List.length (unread p1))%nat.
Proof.
  intros (C1 & C2 & He & Hs & Ht) Hs1.
  destruct (Ht Hs1) as (En & m & c & E & Hb).
  unfold resume. cbn [next store]. rewrite <- En, E. cbn [call].
  apply settle_respect; auto.
Qed.

Lemma push_extends (token : Token) s1 s2 :
  cursor_ok s1 -> cursor_ok s2 -> extends [] s1 s2 ->
  cursor_ok (push token s1) /\ cursor_ok (push token s2) /\
  extends [] (push token s1) (push token s2).
Proof.
  unfold cursor_ok, extends, unread. cbn. intros ? ? (? & ? & ? & ? & ? & ? & ?).
  conj_split; auto; congruence.
Qed.

(** Similar parsers treat a chunk alike. *)
Lemma transform_respect p1 p2 (input : Input) :
  similar_parser p1 p2 ->
  similar_result (_transform tokenParsers p1 input) (_transform tokenParsers p2 input).
Proof.
  intros H. destruct input as [input |]; cbn [_transform].
  - pose proof (similar_append input p1 p2 H) as Ha.
    pose proof Ha as (_ & _ & _ & Hs & _). rewrite <- Hs.
    destruct (suspended (append input p1)) eqn:Hs1.
    + apply parse_unless_suspended_respect. now apply resume_respect.
    + now apply parse_unless_suspended_respect.
  - cbn [similar_result]. destruct H as (C1 & C2 & He & Hs & Ht).
    destruct (push_extends EOM p1 p2 C1 C2 He) as (? & ? & ?).
    unfold similar_parser, with_store. cbn [store suspended next]. conj_split; auto.
Qed.

(** A suspended parser and the next chunk: what [_transform] does. *)
Lemma transform_suspended s (m : nat) (c : Act) (input : Buffer.t) :
  _transform tokenParsers (mkParser s true (Some (RetryAwait m c))) (Bytes input)
  = parse_unless_suspended tokenParsers
      (resume (append input (mkParser s true (Some (RetryAwait m c))))).
Proof.
  cbn [_transform].
  destruct (append_extends input (mkParser s true (Some (RetryAwait m c))))
    as (_ & _ & -> & _). reflexivity.
Qed.

Lemma transform_running p (input : Buffer.t) :
  suspended p = false ->
  _transform tokenParsers p (Bytes input) = parseTokens tokenParsers (append input p).
Proof.
  intros Hs. cbn [_transform]. unfold parse_unless_suspended.
  destruct (append_extends input p) as (_ & _ & Sq & _).
  rewrite Sq, Hs. cbn iota. rewrite Sq, Hs. reflexivity.
Qed.

(** A callback that suspended with [extra] bytes still to come, against the
    same callback run with those bytes already behind the window. *)
Lemma suspended_then_chunk (extra : Buffer.t) t1 t2 (m : nat) (c : Act) p2 (fuel : nat) :
  reader_built (awaitData m c) -> cursor_ok t1 -> cursor_ok t2 -> extends extra t1 t2 ->
  suspended p2 = false -> (List.length (unread t2) <= fuel)%nat ->
  similar_result
    (loop fuel (settle (awaitData m c t2) p2))
    (_transform tokenParsers (mkParser t1 true (Some (RetryAwait m c))) (Bytes extra)).
Proof.
  intros Hb C1 C2 He Hs2 Hf. rewrite transform_suspended.
  set (q := append extra (mkParser t1 true (Some (RetryAwait m c)))).
  destruct (append_extends extra (mkParser t1 true (Some (RetryAwait m c))))
    as (Cq & Hq & Sq & Nq & _). fold q in Cq, Hq, Sq, Nq. cbn [store suspended next] in *.
  assert (Hsim : extends [] t2 q).
  { unfold extends in *. rewrite app_nil_r.
    destruct He as (? & ? & ? & ? & ? & ? & ?). destruct Hq as (? & ? & ? & ? & ? & ? & ?).
    conj_split; congruence. }
  unfold resume. rewrite Nq. cbn [call store next].
  destruct (settle_respect (awaitData m c) t2 q p2 (mkParser q false (Some (RetryAwait m c)))
              Hb C2 Cq Hsim Hs2 eq_refl) as (Hsettle & Hlen).
  apply loop_after; [exact Hsettle | lia].
Qed.

(** The loop on a window with [extra] bytes behind it does what the loop
    followed by the arrival of [extra] as the next chunk does. *)
Lemma loop_extend (n : nat) :
  forall (extra : Buffer.t) p1 p2 (f1 f2 : nat),
    (List.length (unread p1) < n)%nat ->
    cursor_ok p1 -> cursor_ok p2 ->
    suspended p1 = false -> suspended p2 = false ->
    extends extra p1 p2 ->
    (List.length (unread p1) <= f1)%nat -> (List.length (unread p2) <= f2)%nat ->
    similar_result (loop f2 p2) (then_transform tokenParsers (loop f1 p1) (Bytes extra)).
Proof.
  induction n as [| n IH]; intros extra p1 p2 f1 f2 Hn C1 C2 Hs1 Hs2 He Hf1 Hf2; [lia |].
  destruct (unread p1) as [| b rest] eqn:U1.
  { rewrite (loop_exhausted f1 p1) by assumption. cbn [then_transform].
    rewrite transform_running by assumption.
    destruct (append_extends extra p1) as (Cq & Hq & Sq & Nq & _).
    unfold parseTokens. rewrite <- length_unread.
    apply (loop_respect (S (List.length (unread p2)))); auto; try lia.
    unfold similar_parser. rewrite Sq, Hs1, Hs2. conj_split; auto; [| discriminate].
    unfold extends in *. rewrite app_nil_r.
    destruct He as (? & ? & ? & ? & ? & ? & ?). destruct Hq as (? & ? & ? & ? & ? & ? & ?).
    conj_split; congruence. }
  pose proof (extends_head extra p1 p2 b rest He U1) as U2.
  rewrite U2 in Hf2. simpl in Hn, Hf1, Hf2.
  destruct f1 as [| f1]; [lia |]. destruct f2 as [| f2]; [lia |].
  rewrite (loop_step f1 p1 b rest Hs1 U1), (loop_step f2 p2 b _ Hs2 U2). cbv zeta.
  destruct (unread_head p1 b rest U1) as (_ & R1 & A1).
  destruct (unread_head p2 b _ U2) as (_ & R2 & A2).
  pose proof (cursor_ok_advance p1 1 R1) as C1'.
  pose proof (cursor_ok_advance p2 1 R2) as C2'.
  assert (He' : extends extra (set_position (position p1 + 1) p1)
                        (set_position (position p2 + 1) p2))
    by (apply extends_advance; [assumption | rewrite U1; simpl; lia]).
  destruct He as (_ & Ec & Eo & El & Ep & Ee & Ed).
  rewrite Ec, Eo, Ep.
  destruct (tokenParsers (Z.of_N (Byte.to_N b))) as [tokenParser |] eqn:Hreg.
  - set (d := mkDispatch (Z.of_N (Byte.to_N b)) (colMetadata p1) (List.length (pushed p1))).
    pose proof (callback_extends _ (registry _ _ Hreg (colMetadata p1) (options p1)) extra
                  (log_dispatch d (set_position (position p1 + 1) p1))
                  (log_dispatch d (set_position (position p2 + 1) p2))
                  C1' C2' (extends_log_dispatch extra _ _ d He')) as Hcb.
    cbn [with_store store].
    destruct (tokenParser (colMetadata p1) (options p1) doneParsing
                (log_dispatch d (set_position (position p1 + 1) p1))) as [t1 | t1 m c].
    + destruct Hcb as (t2 & -> & Ct1 & Ct2 & Het & Hlen).
      unfold with_store. cbn [settle suspended next]. rewrite Hs1, Hs2.
      rewrite unread_log_dispatch, A1 in Hlen.
      apply IH; cbn [store]; auto; try lia.
      rewrite (extends_length extra t1 t2 Het). rewrite length_app in Hf2. lia.
    + destruct Hcb as (Hb & Ct1 & Hm & Hlen & t2 & Ct2 & Het & ->).
      unfold with_store. cbn [settle]. rewrite (loop_suspended f1) by reflexivity.
      cbn [then_transform].
      rewrite unread_log_dispatch, A1 in Hlen.
      apply suspended_then_chunk; auto.
      rewrite (extends_length extra t1 t2 Het). rewrite length_app in Hf2. lia.
  - unfold emit_error. cbn [with_store store errorListener set_position].
    rewrite El. destruct (errorListener p1).
    + unfold with_store. cbn [store suspended next]. rewrite Hs1, Hs2.
      apply IH; cbn [store]; rewrite ?unread_log_error, ?A1, ?A2; auto using extends_log_error;
        try lia.
    + cbn. conj_split; auto.
Qed.

(** A chunk cut in two: the second piece as a chunk of its own gives what
    the whole chunk gives. *)
Lemma transform_split p (input1 input2 : Buffer.t) :
  parser_ok p ->
  similar_result
    (_transform tokenParsers p (Bytes (input1 ++ input2)))
    (then_transform tokenParsers (_transform tokenParsers p (Bytes input1)) (Bytes input2)).
Proof.
  intros (Cp & Ht).
  destruct (append_extends input1 p) as (C1 & H1 & S1 & N1 & _).
  destruct (append_extends (input1 ++ input2) p) as (C12 & H12 & S12 & N12 & _).
  assert (He : extends input2 (append input1 p) (append (input1 ++ input2) p)).
  { unfold extends in *.
    destruct H1 as (U1 & ? & ? & ? & ? & ? & ?). destruct H12 as (U12 & ? & ? & ? & ? & ? & ?).
    conj_split; try congruence. now rewrite U12, U1, app_assoc. }
  destruct (suspended p) eqn:Hs.
  - destruct (Ht eq_refl) as (m & c & En & Hb).
    cbn [_transform]. rewrite S1, S12. unfold resume. rewrite N1, N12, En. cbn [call store next].
    pose proof (callback_extends _ Hb input2 (append input1 p) (append (input1 ++ input2) p)
                  C1 C12 He) as Hcb.
    destruct (awaitData m c (append input1 p)) as [t1 | t1 m' c'].
    + destruct Hcb as (t2 & -> & Ct1 & Ct2 & Het & Hlen).
      cbn [settle]. unfold parse_unless_suspended. cbn [suspended negb].
      unfold parseTokens. cbn [store]. rewrite <- !length_unread.
      apply (loop_extend (S (List.length (unread t1)))); cbn [store suspended]; auto; lia.
    + destruct Hcb as (Hb' & Ct1 & Hm & Hlen & t2 & Ct2 & Het & ->).
      cbn [settle]. unfold parse_unless_suspended at 2. cbn [suspended negb then_transform].
      eapply similar_result_trans;
        [| apply (suspended_then_chunk input2 t1 t2 m' c'
                    (mkParser t2 false (Some (RetryAwait m c))) (List.length (unread t2)));
           auto ].
      destruct (settle_respect (awaitData m' c') t2 t2
                  (mkParser t2 false (Some (RetryAwait m c)))
                  (mkParser (append (input1 ++ input2) p) false (Some (RetryAwait m c)))
                  Hb' Ct2 Ct2 (extends_refl t2) eq_refl eq_refl) as (Hsim & Hlen').
      apply similar_result_sym. apply loop_after; assumption.
  - rewrite !transform_running by assumption.
    unfold parseTokens. rewrite <- !length_unread.
    apply (loop_extend (S (List.length (unread (append input1 p))))); auto; try lia; congruence.
Qed.

Lemma transform_self p (input : Input) :
  parser_ok p ->
  similar_result (_transform tokenParsers p input) (_transform tokenParsers p input).
Proof. intros H. apply transform_respect. now apply similar_parser_refl. Qed.

Lemma transform_ok p q (input : Input) :
  parser_ok p -> _transform tokenParsers p input = Normal q -> parser_ok q.
Proof.
  intros H E. pose proof (transform_self p input H) as Hs. rewrite E in Hs.
  exact (similar_parser_ok q q Hs).
Qed.

Lemma new_Parser_ok (colMetadata : list Column) (options : Options) :
  parser_ok (new_Parser colMetadata options : Parser) /\
  parser_ok (on_error (new_Parser colMetadata options : Parser)).
Proof.
  unfold parser_ok, cursor_ok. cbn. split; (split; [lia | discriminate]).
Qed.

(** Chunks written one by one against their concatenation written at once. *)
Lemma feed_concat (chunks : list Buffer.t) :
  forall p (chunk : Buffer.t),
    parser_ok p ->
    similar_result (feed tokenParsers p (map Bytes (chunk :: chunks)))
                   (_transform tokenParsers p (Bytes (List.concat (chunk :: chunks)))).
Proof.
  induction chunks as [| chunk' chunks IH]; intros p chunk Hok.
  - cbn [map feed List.concat]. rewrite app_nil_r.
    pose proof (transform_self p (Bytes chunk) Hok) as Hs.
    destruct (_transform tokenParsers p (Bytes chunk)); exact Hs.
  - change (map Bytes (chunk :: chunk' :: chunks))
      with (Bytes chunk :: map Bytes (chunk' :: chunks)).
    rewrite concat_cons. cbn [feed].
    pose proof (transform_split p chunk (List.concat (chunk' :: chunks)) Hok) as Hsplit.
    destruct (_transform tokenParsers p (Bytes chunk)) as [q | e q] eqn:E;
      cbn [then_transform] in Hsplit.
    + eapply similar_result_trans; [| apply similar_result_sym; exact Hsplit].
      apply IH. exact (transform_ok p q _ Hok E).
    + apply similar_result_sym. exact Hsplit.
Qed.

Lemma similar_result_pushed (r1 r2 : Result) :
  similar_result r1 r2 -> pushed (parser_of r1) = pushed (parser_of r2).
Proof.
  destruct r1, r2; cbn; try tauto.
  intros (_ & _ & (_ & _ & _ & _ & Hp & _) & _). now rewrite Hp.
Qed.

(** C1: when every registered token parser keeps to the reader interface,
    a byte sequence (a valid token sequence or any other) written to a parser
    as one or more chunks, cut anywhere, makes it push exactly the tokens that
    the same bytes written as one chunk make it push.  The two runs also end
    alike: both threw the same error, or both returned parsers with the same
    unread bytes, column context, suspension state, stored continuation and
    logs. *)
Theorem C1_chunking_invariance (this : Parser) (chunk : Buffer.t) (chunks : list Buffer.t) :
  parser_ok this ->
  let whole := _transform tokenParsers this (Bytes (List.concat (chunk :: chunks))) in
  let pieces := feed tokenParsers this (map Bytes (chunk :: chunks)) in
  pushed (parser_of pieces) = pushed (parser_of whole) /\
  similar_result pieces whole /\
  (forall final, whole = Normal final ->
     exists final', pieces = Normal final' /\
       suspended final' = suspended final /\ unread final' = unread final /\
       colMetadata final' = colMetadata final /\ errors final' = errors final).
Proof.
  intros Hok whole pieces.
  pose proof (feed_concat chunks this chunk Hok) as Hs. fold whole pieces in Hs.
  split; [now apply similar_result_pushed |]. split; [exact Hs |].
  intros final E. rewrite E in Hs. destruct pieces as [final' | e final']; [| contradiction].
  exists final'. cbn [similar_result] in Hs.
  destruct Hs as (_ & _ & (Hu & Hc & _ & _ & _ & He & _) & Hsusp & _).
  rewrite app_nil_r in Hu. conj_split; congruence.
Qed.

(** The fuel of [parseTokens] is enough: when the loop returns, the parser
    is suspended or its window is consumed to the end, which is when the
    [while] loop of the source ends. *)
Lemma loop_runs_to_end (n : nat) :
  forall p (fuel : nat) q,
    (List.length (unread p) < n)%nat -> cursor_ok p ->
    (List.length (unread p) <= fuel)%nat ->
    loop fuel p = Normal q -> suspended q = true \/ unread q = [].
Proof.
  induction n as [| n IH]; intros p fuel q Hn Hc Hf E; [lia |].
  destruct (suspended p) eqn:Hs.
  { rewrite loop_suspended in E by assumption. injection E as <-. now left. }
  destruct (unread p) as [| b rest] eqn:U.
  { rewrite loop_exhausted in E by assumption. injection E as <-. now right. }
  simpl in Hn, Hf. destruct fuel as [| fuel]; [lia |].
  rewrite (loop_step fuel p b rest Hs U) in E. cbv zeta in E.
  destruct (unread_head p b rest U) as (_ & R & A).
  pose proof (cursor_ok_advance p 1 R) as Hc'.
  destruct (tokenParsers (Z.of_N (Byte.to_N b))) as [tokenParser |] eqn:Hreg.
  - set (d := mkDispatch (Z.of_N (Byte.to_N b)) (colMetadata p) (List.length (pushed p))) in *.
    set (p' := with_store (set_position (position p + 1) p) p) in *.
    destruct (settle_respect _ (log_dispatch d p') (log_dispatch d p') p' p'
                (registry _ _ Hreg (colMetadata p) (options p)) Hc' Hc'
                (extends_refl _) Hs Hs) as ((Cq & _) & Hlen).
    rewrite unread_log_dispatch in Hlen.
    change (unread p') with (unread (set_position (position p + 1) p)) in Hlen.
    rewrite A in Hlen.
    apply (IH _ fuel q) in E; auto; lia.
  - unfold emit_error in E. cbn [with_store store errorListener set_position] in E.
    destruct (errorListener p); [| discriminate].
    apply (IH _ fuel q) in E; auto.
    + cbn [with_store store]. rewrite unread_log_error, A. lia.
    + cbn [with_store store]. rewrite unread_log_error, A. lia.
Qed.

Lemma parseTokens_runs_to_end p q :
  cursor_ok p -> parseTokens tokenParsers p = Normal q ->
  suspended q = true \/ unread q = [].
Proof.
  intros Hc E. unfold parseTokens in E. rewrite <- length_unread in E.
  apply (loop_runs_to_end (S (List.length (unread p))) p (List.length (unread p)) q); auto.
Qed.

(** ** The accumulator and the End-Of-Message marker *)

(** C5: when a chunk arrives, a window that is consumed to its end (cursor
    equal to its length) is replaced by the chunk and keeps none of its
    bytes; otherwise the window becomes its unconsumed suffix followed by the
    chunk; either way the cursor is 0 afterwards.  This is the first thing
    [_transform] does with a chunk of bytes. *)
Theorem C5_append_chunk (this : Parser) (chunk : Buffer.t) :
  let after := append chunk this in
  (position this = List.length (buffer this) -> buffer after = chunk) /\
  (position this <> List.length (buffer this) ->
   buffer after = skipn (position this) (buffer this) ++ chunk) /\
  position after = 0%nat /\
  colMetadata after = colMetadata this /\ pushed after = pushed this /\
  suspended after = suspended this /\ next after = next this /\
  _transform tokenParsers this (Bytes chunk)
  = parse_unless_suspended tokenParsers (if suspended after then resume after else after).
Proof.
  intros after.
  destruct (append_extends chunk this) as (_ & (_ & Hc & _ & _ & Hp & _) & Hs & Hn & Hpos).
  fold after in Hc, Hp, Hs, Hn, Hpos.
  split; [| split].
  - intros E. subst after. unfold append, with_store.
    rewrite (proj2 (Nat.eqb_eq _ _) E). reflexivity.
  - intros E. subst after. unfold append, with_store.
    rewrite (proj2 (Nat.eqb_neq _ _) E). reflexivity.
  - conj_split; auto.
Qed.

(** C7: the End-Of-Message marker makes [_transform] push exactly one EOM
    token and return; window, cursor, suspended flag, stored continuation,
    column context and the other logs stay as they were, whether the parser
    is suspended or not. *)
Theorem C7_end_of_message (this : Parser) :
  exists after,
    _transform tokenParsers this EndOfMessageMarker = Normal after /\
    pushed after = pushed this ++ [EOM] /\
    buffer after = buffer this /\ position after = position this /\
    suspended after = suspended this /\ next after = next this /\
    colMetadata after = colMetadata this /\ errors after = errors this /\
    dispatched after = dispatched this.
Proof.
  exists (with_store (push EOM this) this). cbn. conj_split; reflexivity.
Qed.

(** ** Unknown tags *)

Lemma parseTokens_step p (b : byte) (rest : Buffer.t) (s : Store) :
  unread p = b :: rest -> unread s = rest ->
  parseTokens tokenParsers p
  = loop (S (List.length (unread s))) p.
Proof.
  intros U Us. unfold parseTokens. now rewrite <- length_unread, U, Us.
Qed.

(** C2 (as the loop is written): for a tag byte with no registered token
    parser the loop moves the cursor past the tag and signals
    [Unknown type] through the 'error' event, never through [doneParsing]:
    no token is pushed and no token parser is called for that byte.  With no
    'error' listener attached the error is thrown out of [parseTokens] and
    nothing more is dispatched from the window; with a listener attached the
    event is delivered and the loop goes on with the byte that follows, as
    [parseTokens] would on the parser left by the event. *)
Theorem C2_unknown_tag (this : Parser) (b : byte) (rest : Buffer.t) :
  suspended this = false ->
  unread this = b :: rest ->
  tokenParsers (Z.of_N (Byte.to_N b)) = None ->
  let type := Z.of_N (Byte.to_N b) in
  let moved := with_store (set_position (position this + 1) this) this in
  let signalled := with_store (log_error (UnknownType type) moved) moved in
  (errorListener this = false ->
   parseTokens tokenParsers this = Throw (UnknownType type) moved) /\
  (errorListener this = true ->
   parseTokens tokenParsers this = parseTokens tokenParsers signalled) /\
  unread moved = rest /\ unread signalled = rest /\
  pushed signalled = pushed this /\ dispatched signalled = dispatched this /\
  errors signalled = errors this ++ [UnknownType type] /\
  pushed moved = pushed this /\ dispatched moved = dispatched this /\
  errors moved = errors this.
Proof.
  intros Hs U Hreg type moved signalled.
  destruct (unread_head this b rest U) as (_ & _ & A).
  assert (Am : unread moved = rest) by exact A.
  assert (As : unread signalled = rest) by exact A.
  rewrite (parseTokens_step this b rest moved U Am), (loop_step _ this b rest Hs U).
  cbv zeta. rewrite Hreg. unfold emit_error.
  change (errorListener (with_store (set_position (position this + 1) this) this))
    with (errorListener this).
  conj_split; try reflexivity; try assumption.
  - intros ->. reflexivity.
  - intros ->. fold type moved signalled.
    unfold parseTokens. now rewrite <- length_unread, As, Am.
Qed.

(** ** The column metadata context *)





Lemma outcome_store_settle (o : Outcome) p : store (settle o p) = outcome_store o.
Proof. destruct o; reflexivity. Qed.

(** What holds of a parser and is kept by every round of the loop holds
    when the loop ends, however it ends. *)
Lemma loop_invariant (I : Parser -> Prop) :
  (forall p, I p -> suspended p = false ->
     (position p + 1 <= List.length (buffer p))%nat ->
     let type := Buffer.readUInt8 (buffer p) (position p) in
     let p' := with_store (set_position (position p + 1) p) p in
     match tokenParsers type with
     | Some tokenParser =>
         I (settle (tokenParser (colMetadata p) (options p) doneParsing
                      (log_dispatch (mkDispatch type (colMetadata p) (List.length (pushed p))) p'))
                   p')
     | None => I p' /\ I (with_store (log_error (UnknownType type) p') p')
     end) ->
  forall (fuel : nat) p, I p -> I (parser_of (loop fuel p)).
Proof.
  intros Hstep. induction fuel as [| fuel IH]; intros p Hp; [exact Hp |].
  cbn [parseTokens_loop].
  destruct (suspended p) eqn:Hs; [exact Hp |].
  destruct (Nat.leb_spec (position p + 1) (List.length (buffer p))) as [Hr | Hr];
    [| exact Hp].
  cbn [negb andb]. specialize (Hstep p Hp Hs Hr). cbv zeta in Hstep.
  cbn [with_store store] in *.
  destruct (tokenParsers (Buffer.readUInt8 (buffer p) (position p))) as [tokenParser |].
  - apply IH. exact Hstep.
  - unfold emit_error. cbn [errorListener set_position].
    destruct (errorListener p); [apply IH |]; apply Hstep.
Qed.

Lemma parser_ok_settle (a : Act) s p :
  reader_built a -> cursor_ok s -> suspended p = false -> parser_ok (settle (a s) p).
Proof.
  intros Hb Hc Hs.
  destruct (settle_respect a s s p p Hb Hc Hc (extends_refl s) Hs Hs) as (Hsim & _).
  exact (similar_parser_ok _ _ Hsim).
Qed.




End DispatchProperties.

(** * The properties on concrete input *)

Lemma example_registry_ok : registry_ok Example.tokenParsers.
Proof.
  intros type tokenParser H colMetadata options. unfold Example.tokenParsers in H.
  destruct (type =? 129).
  - injection H as <-. unfold Example.colMetadataParser.
    apply reader_built_readBVarByte. intros data. apply reader_built_doneParsing.
  - destruct (type =? 253); [| discriminate].
    injection H as <-. unfold Example.doneParser.
    apply reader_built_readUInt16LE. intros _.
    apply reader_built_readUInt16LE. intros _.
    apply reader_built_readUInt32LE. intros _.
    apply reader_built_doneParsing.
Qed.

Lemma example_fresh_ok :
  parser_ok Example.fresh /\ parser_ok (on_error Example.fresh) /\
  history_ok [] Example.fresh.
Proof.
  unfold parser_ok, history_ok, context_ok, cursor_ok. cbn.
  repeat split; try lia; try discriminate. constructor.
Qed.

(** A DONE token cut inside its row count, then a COLMETADATA token. *)
Lemma C1_chunking_invariance_witness :
  registry_ok Example.tokenParsers /\ parser_ok Example.fresh /\
  pushed (parser_of (feed Example.tokenParsers Example.fresh
                       [Bytes [xfd; x01; x00; x02; x00; x03; x00];
                        Bytes [x00; x00; x81; x02; x07; x08]]))
  = pushed (parser_of (_transform Example.tokenParsers Example.fresh
                         (Bytes [xfd; x01; x00; x02; x00; x03; x00;
                                 x00; x00; x81; x02; x07; x08]))).
Proof.
  split; [exact example_registry_ok |].
  split; [exact (proj1 example_fresh_ok) |].
  exact (proj1 (C1_chunking_invariance Example.tokenParsers example_registry_ok
                  Example.fresh [xfd; x01; x00; x02; x00; x03; x00]
                  [[x00; x00; x81; x02; x07; x08]] (proj1 example_fresh_ok))).
Defined.

(** Tag 0 has no token parser; with an 'error' listener attached the loop
    reports it and then dispatches the DONE token that follows in the same
    window: the tag 0xFD is read, its parser is called and its token pushed. *)
Lemma C2_dispatch_goes_on_after_unknown_tag :
  let this := on_error Example.fresh in
  let window := [x00; xfd; x01; x00; x02; x00; x03; x00; x00; x00] in
  let after := parser_of (_transform Example.tokenParsers this (Bytes window)) in
  Example.tokenParsers 0 = None /\
  errors after = [UnknownType 0] /\
  map d_type (dispatched after) = [253] /\
  pushed after = [DONE] /\
  Example.tokens (_transform Example.tokenParsers this (Bytes window)) <> [].
Proof. cbv zeta. repeat split. discriminate. Qed.

Lemma C2_unknown_tag_witness :
  let this := append [x00; xfd; x01; x00; x02; x00; x03; x00; x00; x00]
                     (on_error Example.fresh) in
  suspended this = false /\
  unread this = [x00; xfd; x01; x00; x02; x00; x03; x00; x00; x00] /\
  Example.tokenParsers 0 = None /\
  errorListener this = true /\
  parseTokens Example.tokenParsers this
  = parseTokens Example.tokenParsers
      (with_store (log_error (UnknownType 0)
                     (with_store (set_position (position this + 1) this) this))
                  (with_store (set_position (position this + 1) this) this)).
Proof.
  cbv zeta. split; [reflexivity |]. split; [reflexivity |]. split; [reflexivity |].
  split; [reflexivity |].
  exact (proj1 (proj2 (C2_unknown_tag Example.tokenParsers
                         (append [x00; xfd; x01; x00; x02; x00; x03; x00; x00; x00]
                                 (on_error Example.fresh))
                         x00 [xfd; x01; x00; x02; x00; x03; x00; x00; x00]
                         eq_refl eq_refl eq_refl)) eq_refl).
Defined.

Lemma C4_awaitData_contract_witness :
  Z.of_nat (List.length (buffer Example.fresh)) - Z.of_nat (position Example.fresh)
  < Z.of_nat 4 /\
  settle (awaitData 4 (Example.report 0) Example.fresh) Example.fresh
  = mkParser Example.fresh true (Some (RetryAwait 4 (Example.report 0))).
Proof.
  split; [reflexivity |].
  exact (proj1 (proj2 (C4_awaitData_contract 4 (Example.report 0) Example.fresh) eq_refl)).
Defined.

Lemma C6_extended_unsigned_roundtrip_witness :
  0 <= 1193046 <= 2 ^ 53 /\ 1193046 < 2 ^ 24 /\
  readUInt24LE Example.report (holding [] (encodeLE 3 1193046) [] Example.fresh)
  = Example.report 1193046
      (set_position 3 (holding [] (encodeLE 3 1193046) [] Example.fresh)).
Proof.
  split; [lia |]. split; [reflexivity |].
  exact (proj1 (C6_extended_unsigned_roundtrip 1193046 [] [] Example.fresh Example.report
                  ltac:(lia)) eq_refl).
Defined.

Lemma C8_length_prefixed_text_witness :
  List.length [x41; x00; x42; x00; x43; x00] = (2 * 3)%nat /\
  readBVarChar Example.reportText
    (holding [] [x03; x41; x00; x42; x00; x43; x00] [] Example.fresh)
  = Example.reportText (JS.of_ascii "ABC")
      (set_position 7 (holding [] [x03; x41; x00; x42; x00; x43; x00] [] Example.fresh)).
Proof.
  split; [reflexivity |].
  exact (proj1 (C8_length_prefixed_text 3 [] [x41; x00; x42; x00; x43; x00] []
                  Example.fresh Example.reportText eq_refl) eq_refl).
Defined.


(** On eight bytes FF both readers yield 2^64, the double nearest to
    2^64 - 1. *)
Lemma C10_readUInt64LE_is_readUNumeric64LE_witness :
  let this := holding [] [xff; xff; xff; xff; xff; xff; xff; xff] [] Example.fresh in
  (position this + 8 <= List.length (buffer this))%nat /\
  readUInt64LE Example.report this = Example.report 18446744073709551616 (set_position 8 this) /\
  readUNumeric64LE Example.report this
  = Example.report 18446744073709551616 (set_position 8 this).
Proof.
  cbv zeta. split; [cbn; lia |].
  pose proof (C10_readUInt64LE_is_readUNumeric64LE
                (holding [] [xff; xff; xff; xff; xff; xff; xff; xff] [] Example.fresh)
                Example.report ltac:(cbn; lia)) as H.
  cbv zeta in H. split; [exact (proj1 H) | exact (proj1 (proj2 H))].
Defined.

(** * Further properties of the readers *)

Ltac own_bytes :=
  intros;
  unfold Buffer.readInt8, Buffer.readInt16LE, Buffer.readInt16BE,
         Buffer.readInt32LE, Buffer.readInt32BE;
  rewrite ?readUInt8_slice, ?readUInt16LE_slice, ?readUInt16BE_slice,
          ?readUInt32LE_slice, ?readUInt32BE_slice, ?get_slice by lia;
  rewrite ?Nat.add_0_r; reflexivity.

Lemma slice_holding (pre bytes post : Buffer.t) :
  Buffer.slice (pre ++ bytes ++ post) (List.length pre) (List.length pre + List.length bytes)
  = bytes.
Proof.
  unfold Buffer.slice. rewrite Nat.add_comm, Nat.add_sub.
  rewrite <- (Nat.add_0_r (List.length pre)), skipn_past. simpl.
  now apply firstn_exact.
Qed.

Lemma signed_twos (w v : Z) :
  0 < w -> - 2 ^ (w - 1) <= v < 2 ^ (w - 1) -> Buffer.signed w (twos w v) = v.
Proof.
  intros Hw Hv. unfold Buffer.signed, twos.
  assert (Hp : 2 ^ w = 2 * 2 ^ (w - 1))
    by (rewrite <- Z.pow_succ_r by lia; f_equal; lia).
  destruct (Z.lt_ge_cases v 0) as [Hneg | Hpos].
  - assert (E : v mod 2 ^ w = v + 2 ^ w)
      by (symmetry; apply (Z.mod_unique_pos _ _ (-1)); lia).
    rewrite E. destruct (Z.ltb_spec (v + 2 ^ w) (2 ^ (w - 1))); lia.
  - rewrite Z.mod_small by lia. destruct (Z.ltb_spec v (2 ^ (w - 1))); lia.
Qed.

Lemma twos_range (w v : Z) : 0 < w -> 0 <= twos w v < 2 ^ w.
Proof. intros Hw. unfold twos. apply Z.mod_pos_bound. apply Z.pow_pos_nonneg; lia. Qed.

Lemma get_encodeBE (n i : nat) (v : Z) :
  (i < n)%nat -> Buffer.get (encodeBE n v) i = Buffer.get (encodeLE n v) (n - S i).
Proof.
  intros Hi. unfold Buffer.get, encodeBE.
  rewrite rev_nth by (rewrite length_encodeLE; lia). now rewrite length_encodeLE.
Qed.

Lemma length_encodeBE (n : nat) (v : Z) : List.length (encodeBE n v) = n.
Proof. unfold encodeBE. now rewrite length_rev, length_encodeLE. Qed.

(** The unsigned readers of Node's Buffer on an encoded value. *)
Lemma Buffer_readUInt8_encode (v : Z) :
  0 <= v < 2 ^ 8 -> Buffer.readUInt8 (encodeLE 1 v) 0 = v.
Proof.
  intros Hv. unfold Buffer.readUInt8. rewrite get_encodeLE by lia.
  change (256 ^ Z.of_nat 0) with 1. rewrite Z.div_1_r. apply Z.mod_small. lia.
Qed.

Lemma Buffer_readUInt16LE_encode (v : Z) :
  0 <= v < 2 ^ 16 -> Buffer.readUInt16LE (encodeLE 2 v) 0 = v.
Proof.
  intros Hv. unfold Buffer.readUInt16LE. rewrite !get_encodeLE by lia.
  change (256 ^ Z.of_nat 0) with 1. change (256 ^ Z.of_nat (0 + 1)) with 256.
  change (2 ^ 8) with 256. change (2 ^ 16) with 65536 in Hv.
  Z.to_euclidean_division_equations; lia.
Qed.

Lemma Buffer_readUInt32LE_encode (v : Z) :
  0 <= v < 2 ^ 32 -> Buffer.readUInt32LE (encodeLE 4 v) 0 = v.
Proof.
  intros Hv. pose proof (readUInt32LE_encodeLE0 [] [] 4 v ltac:(lia)) as E.
  cbn [app List.length] in E. rewrite app_nil_r in E. rewrite E. apply Z.mod_small. lia.
Qed.

Lemma Buffer_readUInt16BE_encode (v : Z) :
  0 <= v < 2 ^ 16 -> Buffer.readUInt16BE (encodeBE 2 v) 0 = v.
Proof.
  intros Hv. unfold Buffer.readUInt16BE. rewrite !get_encodeBE by lia.
  cbn [Nat.sub Nat.add]. rewrite !get_encodeLE by lia.
  change (256 ^ Z.of_nat 0) with 1. change (256 ^ Z.of_nat 1) with 256.
  change (2 ^ 8) with 256. change (2 ^ 16) with 65536 in Hv.
  Z.to_euclidean_division_equations; lia.
Qed.

Lemma Buffer_readUInt32BE_encode (v : Z) :
  0 <= v < 2 ^ 32 -> Buffer.readUInt32BE (encodeBE 4 v) 0 = v.
Proof.
  intros Hv. unfold Buffer.readUInt32BE. rewrite !get_encodeBE by lia.
  cbn [Nat.sub Nat.add]. rewrite !get_encodeLE by lia.
  change (256 ^ Z.of_nat 0) with 1. change (256 ^ Z.of_nat 1) with 256.
  change (256 ^ Z.of_nat 2) with 65536. change (256 ^ Z.of_nat 3) with 16777216.
  change (2 ^ 8) with 256. change (2 ^ 16) with 65536. change (2 ^ 24) with 16777216.
  change (2 ^ 32) with 4294967296 in Hv.
  Z.to_euclidean_division_equations; lia.
Qed.

Lemma word_of_bytes (w : Z) :
  16777216 * ((w / 16777216) mod 256) + 65536 * ((w / 65536) mod 256)
  + 256 * ((w / 256) mod 256) + w mod 256
  = w mod 4294967296.
Proof. Z.to_euclidean_division_equations; lia. Qed.

Lemma Buffer_readUInt32BE_encodeBE8 (u : Z) :
  Buffer.readUInt32BE (encodeBE 8 u) 0 = (u / 2 ^ 32) mod 2 ^ 32 /\
  Buffer.readUInt32BE (encodeBE 8 u) 4 = u mod 2 ^ 32.
Proof.
  unfold Buffer.readUInt32BE. rewrite !get_encodeBE by lia.
  cbn [Nat.sub Nat.add]. rewrite !get_encodeLE by lia.
  change (256 ^ Z.of_nat 0) with 1. change (256 ^ Z.of_nat 1) with 256.
  change (256 ^ Z.of_nat 2) with 65536. change (256 ^ Z.of_nat 3) with 16777216.
  change (256 ^ Z.of_nat 4) with (4294967296 * 1).
  change (256 ^ Z.of_nat 5) with (4294967296 * 256).
  change (256 ^ Z.of_nat 6) with (4294967296 * 65536).
  change (256 ^ Z.of_nat 7) with (4294967296 * 16777216).
  change (2 ^ 8) with 256. change (2 ^ 16) with 65536. change (2 ^ 24) with 16777216.
  change (2 ^ 32) with 4294967296.
  rewrite <- !Z.div_div by lia. rewrite !Z.div_1_r.
  split; apply word_of_bytes.
Qed.

Lemma Buffer_readUInt32LE_encodeLE8 (u : Z) :
  Buffer.readUInt32LE (encodeLE 8 u) 0 = u mod 2 ^ 32 /\
  Buffer.readUInt32LE (encodeLE 8 u) 4 = (u / 2 ^ 32) mod 2 ^ 32 /\
  Buffer.get (encodeLE 8 u) 4 = (u / 2 ^ 32) mod 256.
Proof.
  pose proof (readUInt32LE_encodeLE0 [] [] 8 u ltac:(lia)) as E0.
  pose proof (readUInt32LE_encodeLE_at [] [] 8 1 4 u eq_refl ltac:(lia)) as E1.
  cbn [app List.length Nat.add] in E0, E1. rewrite app_nil_r in E0, E1.
  split; [exact E0 |]. split; [exact E1 |].
  rewrite get_encodeLE by lia. reflexivity.
Qed.

(** The two words of the two's complement of a value within 2^53. *)
Lemma twos64_words (v : Z) :
  - 2 ^ 53 <= v <= 2 ^ 53 ->
  let u := twos 64 v in
  2 ^ 32 * Buffer.signed 32 ((u / 2 ^ 32) mod 2 ^ 32) + u mod 2 ^ 32 = v /\
  u mod 2 ^ 32 = v mod 2 ^ 32 /\
  - 2 ^ 31 <= Buffer.signed 32 ((u / 2 ^ 32) mod 2 ^ 32) < 2 ^ 31 /\
  (128 <=? (u / 2 ^ 56) mod 256) = (v <? 0).
Proof.
  intros Hv u. subst u. unfold twos, Buffer.signed.
  change (2 ^ 53) with 9007199254740992 in Hv.
  change (2 ^ (32 - 1)) with 2147483648. change (2 ^ 31) with 2147483648.
  change (2 ^ 32) with 4294967296. change (2 ^ 64) with 18446744073709551616.
  change (2 ^ 56) with 72057594037927936.
  destruct (Z.lt_ge_cases v 0) as [Hneg | Hpos].
  - assert (E : v mod 18446744073709551616 = v + 18446744073709551616)
      by (symmetry; apply (Z.mod_unique_pos _ _ (-1)); lia).
    rewrite E.
    destruct (Z.ltb_spec ((v + 18446744073709551616) / 4294967296 mod 4294967296) 2147483648);
      destruct (Z.leb_spec 128 ((v + 18446744073709551616) / 72057594037927936 mod 256));
      destruct (Z.ltb_spec v 0);
      Z.to_euclidean_division_equations; lia.
  - rewrite (Z.mod_small v 18446744073709551616) by lia.
    destruct (Z.ltb_spec (v / 4294967296 mod 4294967296) 2147483648);
      destruct (Z.leb_spec 128 (v / 72057594037927936 mod 256));
      destruct (Z.ltb_spec v 0);
      Z.to_euclidean_division_equations; lia.
Qed.

Lemma band_128_get (buf : Buffer.t) (i : nat) :
  (JS.band (Buffer.get buf i) 128 =? 128) = (128 <=? Buffer.get buf i).
Proof. unfold Buffer.get. apply band_128. Qed.

Lemma get_encodeBE8_top (u : Z) : Buffer.get (encodeBE 8 u) 0 = (u / 2 ^ 56) mod 256.
Proof. rewrite get_encodeBE by lia. cbn [Nat.sub]. now rewrite get_encodeLE by lia. Qed.

Lemma byte_of_Z_to_N (b : byte) (z : Z) : byte_of_Z (Z.of_N (Byte.to_N b) + 256 * z) = b.
Proof.
  unfold byte_of_Z. pose proof (Byte.to_N_bounded b) as Hb.
  replace ((Z.of_N (Byte.to_N b) + 256 * z) mod 256) with (Z.of_N (Byte.to_N b))
    by (Z.to_euclidean_division_equations; lia).
  now rewrite N2Z.id, Byte.of_to_N.
Qed.

Lemma decodeLE_range (bytes : Buffer.t) :
  0 <= decodeLE bytes < 256 ^ Z.of_nat (List.length bytes).
Proof.
  induction bytes as [| b bytes IH]; [simpl; lia |].
  cbn [decodeLE List.length]. rewrite Nat2Z.inj_succ, Z.pow_succ_r by lia.
  pose proof (Byte.to_N_bounded b). lia.
Qed.

Lemma encodeLE_decodeLE (bytes : Buffer.t) :
  encodeLE (List.length bytes) (decodeLE bytes) = bytes.
Proof.
  induction bytes as [| b bytes IH]; [reflexivity |].
  cbn [decodeLE List.length encodeLE]. rewrite byte_of_Z_to_N. f_equal.
  pose proof (Byte.to_N_bounded b).
  replace ((Z.of_N (Byte.to_N b) + 256 * decodeLE bytes) / 256) with (decodeLE bytes)
    by (Z.to_euclidean_division_equations; lia).
  exact IH.
Qed.

Lemma bor_shl16 (low high : Z) :
  0 <= low < 2 ^ 16 -> 0 <= high < 2 ^ 8 ->
  JS.bor low (JS.shl high 16) = low + high * 2 ^ 16.
Proof.
  intros Hl Hh. unfold JS.bor, JS.shl. change (16 mod 32) with 16.
  rewrite (toInt32_small high) by lia.
  rewrite (toInt32_small low) by lia.
  rewrite Z.shiftl_mul_pow2 by lia.
  rewrite !(toInt32_small (high * 2 ^ 16)) by lia.
  rewrite <- Z.shiftl_mul_pow2 by lia.
  rewrite lor_shifted by lia.
  rewrite toInt32_small by lia. now rewrite Z.shiftl_mul_pow2 by lia.
Qed.

Section FixedWidthReaders.

Context {Column Value Options : Type}.

Local Abbreviation Store := (@Store Column Value Options).
Local Abbreviation Act := (@Act Column Value Options).

Implicit Types (this : Store).

(** A fixed-width reader on a window that holds its bytes at the cursor. *)
Lemma fixed_on_holding {A : Type} (n : nat) (D : Buffer.t -> nat -> A) (callback : A -> Act)
    (pre bytes post : Buffer.t) this :
  (forall buf pos, D buf pos = D (Buffer.slice buf pos (pos + n)) 0%nat) ->
  List.length bytes = n ->
  awaitData n (fun this =>
      callback (D (buffer this) (position this)) (set_position (position this + n) this))
    (holding pre bytes post this)
  = callback (D bytes 0%nat)
      (set_position (List.length pre + n) (holding pre bytes post this)).
Proof.
  intros HD Hn. rewrite awaitData_ready by (apply holding_ready; lia).
  cbn [holding position buffer set_position set_buffer].
  rewrite HD. subst n. now rewrite slice_holding.
Qed.

Ltac read_encoded n D callback pre bytes post this len :=
  etransitivity;
  [ apply (fixed_on_holding n D callback pre bytes post this); [own_bytes | apply len]
  | f_equal ].

(** X1: an unsigned value that fits 8, 16 or 32 bits, written
    little-endian at the cursor, is what [readUInt8], [readUInt16LE] and
    [readUInt32LE] hand to their callback, with the cursor moved past the 1,
    2 or 4 bytes. *)
Theorem X1_unsigned_little_endian_roundtrip
    (v : Z) (pre post : Buffer.t) this (callback : JS.number -> Act) :
  0 <= v ->
  (v < 2 ^ 8 ->
   readUInt8 callback (holding pre (encodeLE 1 v) post this)
   = callback v (set_position (List.length pre + 1) (holding pre (encodeLE 1 v) post this))) /\
  (v < 2 ^ 16 ->
   readUInt16LE callback (holding pre (encodeLE 2 v) post this)
   = callback v (set_position (List.length pre + 2) (holding pre (encodeLE 2 v) post this))) /\
  (v < 2 ^ 32 ->
   readUInt32LE callback (holding pre (encodeLE 4 v) post this)
   = callback v (set_position (List.length pre + 4) (holding pre (encodeLE 4 v) post this))).
Proof.
  intros Hv. split; [| split]; intros Hw.
  - unfold readUInt8.
    read_encoded 1%nat Buffer.readUInt8 callback pre (encodeLE 1 v) post this length_encodeLE.
    apply Buffer_readUInt8_encode. lia.
  - unfold readUInt16LE.
    read_encoded 2%nat Buffer.readUInt16LE callback pre (encodeLE 2 v) post this length_encodeLE.
    apply Buffer_readUInt16LE_encode. lia.
  - unfold readUInt32LE.
    read_encoded 4%nat Buffer.readUInt32LE callback pre (encodeLE 4 v) post this length_encodeLE.
    apply Buffer_readUInt32LE_encode. lia.
Qed.

(** X2: an unsigned value that fits 16 or 32 bits, written big-endian at
    the cursor, is what [readUInt16BE] and [readUInt32BE] hand to their
    callback, with the cursor moved past the 2 or 4 bytes. *)
Theorem X2_unsigned_big_endian_roundtrip
    (v : Z) (pre post : Buffer.t) this (callback : JS.number -> Act) :
  0 <= v ->
  (v < 2 ^ 16 ->
   readUInt16BE callback (holding pre (encodeBE 2 v) post this)
   = callback v (set_position (List.length pre + 2) (holding pre (encodeBE 2 v) post this))) /\
  (v < 2 ^ 32 ->
   readUInt32BE callback (holding pre (encodeBE 4 v) post this)
   = callback v (set_position (List.length pre + 4) (holding pre (encodeBE 4 v) post this))).
Proof.
  intros Hv. split; intros Hw.
  - unfold readUInt16BE.
    read_encoded 2%nat Buffer.readUInt16BE callback pre (encodeBE 2 v) post this length_encodeBE.
    apply Buffer_readUInt16BE_encode. lia.
  - unfold readUInt32BE.
    read_encoded 4%nat Buffer.readUInt32BE callback pre (encodeBE 4 v) post this length_encodeBE.
    apply Buffer_readUInt32BE_encode. lia.
Qed.

(** X3: a signed value in the range of 8, 16 or 32 bits, written in
    two's complement little-endian at the cursor, is what [readInt8],
    [readInt16LE] and [readInt32LE] hand to their callback, negative values
    included. *)
Theorem X3_signed_little_endian_roundtrip
    (v : Z) (pre post : Buffer.t) this (callback : JS.number -> Act) :
  (- 2 ^ 7 <= v < 2 ^ 7 ->
   readInt8 callback (holding pre (encodeLE 1 (twos 8 v)) post this)
   = callback v (set_position (List.length pre + 1)
                   (holding pre (encodeLE 1 (twos 8 v)) post this))) /\
  (- 2 ^ 15 <= v < 2 ^ 15 ->
   readInt16LE callback (holding pre (encodeLE 2 (twos 16 v)) post this)
   = callback v (set_position (List.length pre + 2)
                   (holding pre (encodeLE 2 (twos 16 v)) post this))) /\
  (- 2 ^ 31 <= v < 2 ^ 31 ->
   readInt32LE callback (holding pre (encodeLE 4 (twos 32 v)) post this)
   = callback v (set_position (List.length pre + 4)
                   (holding pre (encodeLE 4 (twos 32 v)) post this))).
Proof.
  split; [| split]; intros Hw.
  - unfold readInt8.
    read_encoded 1%nat Buffer.readInt8 callback pre (encodeLE 1 (twos 8 v)) post this
                 length_encodeLE.
    unfold Buffer.readInt8.
    rewrite Buffer_readUInt8_encode by (apply twos_range; lia).
    apply signed_twos; [lia | exact Hw].
  - unfold readInt16LE.
    read_encoded 2%nat Buffer.readInt16LE callback pre (encodeLE 2 (twos 16 v)) post this
                 length_encodeLE.
    unfold Buffer.readInt16LE.
    rewrite Buffer_readUInt16LE_encode by (apply twos_range; lia).
    apply signed_twos; [lia | exact Hw].
  - unfold readInt32LE.
    read_encoded 4%nat Buffer.readInt32LE callback pre (encodeLE 4 (twos 32 v)) post this
                 length_encodeLE.
    unfold Buffer.readInt32LE.
    rewrite Buffer_readUInt32LE_encode by (apply twos_range; lia).
    apply signed_twos; [lia | exact Hw].
Qed.

(** X4: a signed value in the range of 16 or 32 bits, written in two's
    complement big-endian at the cursor, is what [readInt16BE] and
    [readInt32BE] hand to their callback. *)
Theorem X4_signed_big_endian_roundtrip
    (v : Z) (pre post : Buffer.t) this (callback : JS.number -> Act) :
  (- 2 ^ 15 <= v < 2 ^ 15 ->
   readInt16BE callback (holding pre (encodeBE 2 (twos 16 v)) post this)
   = callback v (set_position (List.length pre + 2)
                   (holding pre (encodeBE 2 (twos 16 v)) post this))) /\
  (- 2 ^ 31 <= v < 2 ^ 31 ->
   readInt32BE callback (holding pre (encodeBE 4 (twos 32 v)) post this)
   = callback v (set_position (List.length pre + 4)
                   (holding pre (encodeBE 4 (twos 32 v)) post this))).
Proof.
  split; intros Hw.
  - unfold readInt16BE.
    read_encoded 2%nat Buffer.readInt16BE callback pre (encodeBE 2 (twos 16 v)) post this
                 length_encodeBE.
    unfold Buffer.readInt16BE.
    rewrite Buffer_readUInt16BE_encode by (apply twos_range; lia).
    apply signed_twos; [lia | exact Hw].
  - unfold readInt32BE.
    read_encoded 4%nat Buffer.readInt32BE callback pre (encodeBE 4 (twos 32 v)) post this
                 length_encodeBE.
    unfold Buffer.readInt32BE.
    rewrite Buffer_readUInt32BE_encode by (apply twos_range; lia).
    apply signed_twos; [lia | exact Hw].
Qed.

(** X5: an unsigned value up to 2^53, written as 8 big-endian bytes at the
    cursor, is what [readUInt64BE] hands to its callback, with the cursor
    moved past the 8 bytes. *)
Theorem X5_readUInt64BE_roundtrip
    (v : Z) (pre post : Buffer.t) this (callback : JS.number -> Act) :
  0 <= v <= 2 ^ 53 ->
  readUInt64BE callback (holding pre (encodeBE 8 v) post this)
  = callback v (set_position (List.length pre + 8) (holding pre (encodeBE 8 v) post this)).
Proof.
  intros Hv. unfold readUInt64BE.
  read_encoded 8%nat
    (fun buf pos =>
       JS.add (JS.mul (JS.pow2 32) (Buffer.readUInt32BE buf pos))
              (Buffer.readUInt32BE buf (pos + 4)))
    callback pre (encodeBE 8 v) post this length_encodeBE.
  cbn [Nat.add]. destruct (Buffer_readUInt32BE_encodeBE8 v) as (-> & ->).
  change (JS.pow2 32) with 4294967296. apply (words_upto_2p53 v Hv).
Qed.

(** X6: [readInt64BE] on the 8 big-endian bytes of the two's complement of
    a value [v] within 2^53 of 0 yields [v] when [v] is negative; for
    [v >= 0] the low word is subtracted instead of added and the result is
    [v - 2 * (v mod 2^32)], which is [v] only when the low word is 0. *)
Theorem X6_readInt64BE_value
    (v : Z) (pre post : Buffer.t) this (callback : JS.number -> Act) :
  - 2 ^ 53 <= v <= 2 ^ 53 ->
  readInt64BE callback (holding pre (encodeBE 8 (twos 64 v)) post this)
  = callback (if v <? 0 then v else v - 2 * (v mod 2 ^ 32))
      (set_position (List.length pre + 8) (holding pre (encodeBE 8 (twos 64 v)) post this)).
Proof.
  intros Hv. unfold readInt64BE.
  read_encoded 8%nat
    (fun buf pos =>
       JS.add (JS.mul (JS.pow2 32) (Buffer.readInt32BE buf pos))
              (JS.mul (if JS.band (Buffer.get buf pos) 128 =? 128 then 1 else -1)
                      (Buffer.readUInt32BE buf (pos + 4))))
    callback pre (encodeBE 8 (twos 64 v)) post this length_encodeBE.
  cbn [Nat.add]. unfold Buffer.readInt32BE.
  destruct (Buffer_readUInt32BE_encodeBE8 (twos 64 v)) as (-> & ->).
  rewrite band_128_get, get_encodeBE8_top.
  destruct (twos64_words v Hv) as (Hsum & Hlow & Hhi & ->).
  set (hs := Buffer.signed 32 ((twos 64 v / 2 ^ 32) mod 2 ^ 32)) in *.
  rewrite Hlow in *.
  assert (Hl : 0 <= v mod 2 ^ 32 < 2 ^ 32) by (apply Z.mod_pos_bound; lia).
  change (JS.pow2 32) with 4294967296. rewrite mul_pow32_exact by lia.
  change (2 ^ 32) with 4294967296 in *. change (2 ^ 31) with 2147483648 in *.
  change (2 ^ 53) with 9007199254740992 in Hv.
  destruct (Z.ltb_spec v 0).
  - rewrite mul_small by (change (2 ^ 53) with 9007199254740992; lia).
    rewrite add_small by (change (2 ^ 53) with 9007199254740992; lia). lia.
  - rewrite mul_small by (change (2 ^ 53) with 9007199254740992; lia).
    rewrite add_small by (change (2 ^ 53) with 9007199254740992; lia). lia.
Qed.

(** X7: [readInt64LE] on the 8 little-endian bytes of the two's complement
    of a value [v] within 2^53 of 0 yields [v] when bit 7 of byte 4 (bit 39
    of the encoding) is set; otherwise the low word is subtracted and the
    result is the double nearest to [v - 2 * (v mod 2^32)]. *)
Theorem X7_readInt64LE_value
    (v : Z) (pre post : Buffer.t) this (callback : JS.number -> Act) :
  - 2 ^ 53 <= v <= 2 ^ 53 ->
  readInt64LE callback (holding pre (encodeLE 8 (twos 64 v)) post this)
  = callback (if 128 <=? (twos 64 v / 2 ^ 32) mod 256
              then v else JS.round53 (v - 2 * (v mod 2 ^ 32)))
      (set_position (List.length pre + 8) (holding pre (encodeLE 8 (twos 64 v)) post this)).
Proof.
  intros Hv. unfold readInt64LE.
  read_encoded 8%nat
    (fun buf pos =>
       JS.add (JS.mul (JS.pow2 32) (Buffer.readInt32LE buf (pos + 4)))
              (JS.mul (if JS.band (Buffer.get buf (pos + 4)) 128 =? 128 then 1 else -1)
                      (Buffer.readUInt32LE buf pos)))
    callback pre (encodeLE 8 (twos 64 v)) post this length_encodeLE.
  cbn [Nat.add]. unfold Buffer.readInt32LE.
  destruct (Buffer_readUInt32LE_encodeLE8 (twos 64 v)) as (-> & -> & Hb).
  rewrite band_128_get, Hb.
  destruct (twos64_words v Hv) as (Hsum & Hlow & Hhi & _).
  set (hs := Buffer.signed 32 ((twos 64 v / 2 ^ 32) mod 2 ^ 32)) in *.
  rewrite Hlow in *.
  assert (Hl : 0 <= v mod 2 ^ 32 < 2 ^ 32) by (apply Z.mod_pos_bound; lia).
  change (JS.pow2 32) with 4294967296. rewrite mul_pow32_exact by lia.
  change (2 ^ 32) with 4294967296 in *. change (2 ^ 31) with 2147483648 in *.
  destruct (128 <=? (twos 64 v / 4294967296) mod 256).
  - rewrite mul_small by lia. rewrite add_small by lia. lia.
  - rewrite mul_small by lia. unfold JS.add. f_equal. lia.
Qed.

(** X8: whatever 3 (5) bytes are under the cursor, [readUInt24LE]
    ([readUInt40LE]) yields their little-endian value, a number that is never
    negative and below 2^24 (2^40), and from which the bytes can be written
    back: different bytes give different values. *)
Theorem X8_narrow_readers_decode
    (bytes pre post : Buffer.t) this (callback : JS.number -> Act) :
  (List.length bytes = 3%nat ->
   readUInt24LE callback (holding pre bytes post this)
   = callback (decodeLE bytes) (set_position (List.length pre + 3) (holding pre bytes post this))
   /\ 0 <= decodeLE bytes < 2 ^ 24) /\
  (List.length bytes = 5%nat ->
   readUInt40LE callback (holding pre bytes post this)
   = callback (decodeLE bytes) (set_position (List.length pre + 5) (holding pre bytes post this))
   /\ 0 <= decodeLE bytes < 2 ^ 40) /\
  encodeLE (List.length bytes) (decodeLE bytes) = bytes.
Proof.
  split; [| split]; [| | apply encodeLE_decodeLE].
  - intros Hlen. pose proof (decodeLE_range bytes) as Hr. rewrite Hlen in Hr.
    split; [| exact Hr]. unfold readUInt24LE.
    read_encoded 3%nat
      (fun buf pos =>
         JS.bor (Buffer.readUInt16LE buf pos) (JS.shl (Buffer.readUInt8 buf (pos + 2)) 16))
      callback pre bytes post this Hlen.
    destruct bytes as [| a [| b [| c [| ? ?]]]]; try discriminate.
    unfold Buffer.readUInt16LE, Buffer.readUInt8, Buffer.get. cbn [Nat.add nth decodeLE].
    pose proof (Byte.to_N_bounded a). pose proof (Byte.to_N_bounded b).
    pose proof (Byte.to_N_bounded c).
    rewrite bor_shl16 by lia. lia.
  - intros Hlen. pose proof (decodeLE_range bytes) as Hr. rewrite Hlen in Hr.
    split; [| exact Hr]. unfold readUInt40LE.
    read_encoded 5%nat
      (fun buf pos =>
         JS.add (JS.mul 4294967296 (Buffer.readUInt8 buf (pos + 4)))
                (Buffer.readUInt32LE buf pos))
      callback pre bytes post this Hlen.
    destruct bytes as [| a [| b [| c [| d [| e [| ? ?]]]]]]; try discriminate.
    unfold Buffer.readUInt32LE, Buffer.readUInt8, Buffer.get. cbn [Nat.add nth decodeLE].
    pose proof (Byte.to_N_bounded a). pose proof (Byte.to_N_bounded b).
    pose proof (Byte.to_N_bounded c). pose proof (Byte.to_N_bounded d).
    pose proof (Byte.to_N_bounded e).
    rewrite mul_small by lia. rewrite add_small by lia. lia.
Qed.

End FixedWidthReaders.

(** * Further properties of the length-prefixed readers *)

Lemma length_encode_ucs2 (text : JS.jsstring) :
  List.length (encode_ucs2 text) = (2 * List.length text)%nat.
Proof. induction text as [| unit text IH]; simpl; [reflexivity | rewrite IH; lia]. Qed.

Lemma toString_encode_ucs2 (text : JS.jsstring) :
  ucs2_text text -> Buffer.toString_ucs2 (encode_ucs2 text) = text.
Proof.
  induction 1 as [| unit text Hu _ IH]; [reflexivity |].
  cbn [encode_ucs2 Buffer.toString_ucs2]. rewrite !to_N_byte_of_Z, IH. f_equal.
  change (2 ^ 8) with 256. change (2 ^ 16) with 65536 in Hu.
  Z.to_euclidean_division_equations; lia.
Qed.

Section LengthPrefixedReaders.

Context {Column Value Options : Type}.

Local Abbreviation Store := (@Store Column Value Options).
Local Abbreviation Act := (@Act Column Value Options).

Implicit Types (this : Store).

Lemma holding_assoc (pre prefix data post : Buffer.t) this :
  holding pre (prefix ++ data) post this = holding pre prefix (data ++ post) this.
Proof. unfold holding. now rewrite <- app_assoc. Qed.

(** [readBuffer] right behind a prefix of [n] bytes. *)
Lemma readBuffer_after_prefix (n L : nat) (pre prefix data post : Buffer.t) this
    (callback : Buffer.t -> Act) :
  List.length prefix = n -> List.length data = L ->
  readBuffer L callback (set_position (List.length pre + n) (holding pre (prefix ++ data) post this))
  = callback data (set_position (List.length pre + n + L) (holding pre (prefix ++ data) post this)).
Proof.
  intros Hn HL. rewrite readBuffer_ready
    by (unfold holding; cbn [position buffer set_position set_buffer];
        rewrite !length_app; lia).
  unfold unread, holding. cbn [position buffer set_position set_buffer].
  rewrite skipn_past, <- app_assoc, <- Hn, <- (Nat.add_0_r (List.length prefix)), skipn_past.
  cbn [skipn]. now rewrite firstn_exact.
Qed.

(** The one-byte and two-byte length prefixes. *)
Lemma readUInt8_prefix (v : Z) (pre rest post : Buffer.t) this (k : JS.number -> Act) :
  0 <= v < 2 ^ 8 ->
  readUInt8 k (holding pre (encodeLE 1 v ++ rest) post this)
  = k v (set_position (List.length pre + 1) (holding pre (encodeLE 1 v ++ rest) post this)).
Proof.
  intros Hv. rewrite holding_assoc. unfold readUInt8.
  etransitivity;
    [apply (fixed_on_holding 1 Buffer.readUInt8 k pre (encodeLE 1 v) (rest ++ post) this);
     [own_bytes | apply length_encodeLE] |].
  now rewrite Buffer_readUInt8_encode.
Qed.

Lemma readUInt16LE_prefix (v : Z) (pre rest post : Buffer.t) this (k : JS.number -> Act) :
  0 <= v < 2 ^ 16 ->
  readUInt16LE k (holding pre (encodeLE 2 v ++ rest) post this)
  = k v (set_position (List.length pre + 2) (holding pre (encodeLE 2 v ++ rest) post this)).
Proof.
  intros Hv. rewrite holding_assoc. unfold readUInt16LE.
  etransitivity;
    [apply (fixed_on_holding 2 Buffer.readUInt16LE k pre (encodeLE 2 v) (rest ++ post) this);
     [own_bytes | apply length_encodeLE] |].
  now rewrite Buffer_readUInt16LE_encode.
Qed.

(** X9: [readBuffer] hands over exactly the next [n] bytes and leaves the
    cursor behind them.  Binary data of up to 255 (65535) bytes written behind
    a one-byte (two-byte little-endian) length is what [readBVarByte]
    ([readUsVarByte]) hands to its callback, with the cursor behind the data;
    this includes empty data at the very end of the window, which is
    delivered without suspending. *)
Theorem X9_length_prefixed_binary_roundtrip
    (data pre post : Buffer.t) this (callback : Buffer.t -> Act) :
  let L := List.length data in
  readBuffer L callback (holding pre data post this)
  = callback data (set_position (List.length pre + L) (holding pre data post this)) /\
  (Z.of_nat L < 2 ^ 8 ->
   let s := holding pre (encodeLE 1 (Z.of_nat L) ++ data) post this in
   readBVarByte callback s = callback data (set_position (List.length pre + 1 + L) s)) /\
  (Z.of_nat L < 2 ^ 16 ->
   let s := holding pre (encodeLE 2 (Z.of_nat L) ++ data) post this in
   readUsVarByte callback s = callback data (set_position (List.length pre + 2 + L) s)).
Proof.
  intros L. split; [| split].
  - pose proof (readBuffer_after_prefix 0 L pre [] data post this callback eq_refl eq_refl) as E.
    cbn [app] in E. rewrite !Nat.add_0_r in E.
    replace (set_position (List.length pre) (holding pre data post this))
      with (holding pre data post this) in E by reflexivity.
    exact E.
  - intros HL s. subst s. unfold readBVarByte.
    rewrite readUInt8_prefix by lia. rewrite Nat2Z.id.
    apply readBuffer_after_prefix; [apply length_encodeLE | reflexivity].
  - intros HL s. subst s. unfold readUsVarByte.
    rewrite readUInt16LE_prefix by lia. rewrite Nat2Z.id.
    apply readBuffer_after_prefix; [apply length_encodeLE | reflexivity].
Qed.

(** X10: a text of up to 255 (65535) UTF-16 code units, written as its
    length in characters in one byte (two bytes little-endian) followed by two
    bytes per character, low byte first, is what [readBVarChar]
    ([readUsVarChar]) hands to its callback, with the cursor behind the
    text. *)
Theorem X10_length_prefixed_text_roundtrip
    (text : JS.jsstring) (pre post : Buffer.t) this (callback : JS.jsstring -> Act) :
  ucs2_text text ->
  let L := List.length text in
  (Z.of_nat L < 2 ^ 8 ->
   let s := holding pre (encodeLE 1 (Z.of_nat L) ++ encode_ucs2 text) post this in
   readBVarChar callback s = callback text (set_position (List.length pre + 1 + 2 * L) s)) /\
  (Z.of_nat L < 2 ^ 16 ->
   let s := holding pre (encodeLE 2 (Z.of_nat L) ++ encode_ucs2 text) post this in
   readUsVarChar callback s = callback text (set_position (List.length pre + 2 + 2 * L) s)).
Proof.
  intros Htext L. split; intros HL s; subst s.
  - unfold readBVarChar. rewrite readUInt8_prefix by lia.
    rewrite mul_small by lia.
    replace (Z.to_nat (Z.of_nat L * 2)) with (2 * L)%nat by lia.
    rewrite (readBuffer_after_prefix 1 (2 * L))
      by (try apply length_encodeLE; apply length_encode_ucs2).
    now rewrite toString_encode_ucs2.
  - unfold readUsVarChar. rewrite readUInt16LE_prefix by lia.
    rewrite mul_small by lia.
    replace (Z.to_nat (Z.of_nat L * 2)) with (2 * L)%nat by lia.
    rewrite (readBuffer_after_prefix 2 (2 * L))
      by (try apply length_encodeLE; apply length_encode_ucs2).
    now rewrite toString_encode_ucs2.
Qed.

(** X11: when the length byte of a BVARBYTE field has arrived but fewer
    data bytes than it announces, [readBVarByte] consumes the length byte and
    suspends with the cursor right behind it, waiting for the announced
    number of bytes; it never hands over a partial field.  Whenever that many
    bytes are unread, the stored continuation hands over exactly the next
    [L] bytes, wherever the window then starts, without reading the length
    again. *)
Theorem X11_readBVarByte_partial_field
    (L : nat) (part pre : Buffer.t) this (callback : Buffer.t -> Act) :
  Z.of_nat L < 2 ^ 8 -> (List.length part < L)%nat ->
  let s := holding pre (encodeLE 1 (Z.of_nat L) ++ part) [] this in
  exists k,
    readBVarByte callback s = Suspended (set_position (List.length pre + 1) s) L k /\
    forall later : Store,
      (position later + L <= List.length (buffer later))%nat ->
      awaitData L k later
      = callback (firstn L (unread later)) (set_position (position later + L) later).
Proof.
  intros HL Hpart s. subst s. unfold readBVarByte.
  rewrite readUInt8_prefix by lia. rewrite Nat2Z.id. unfold readBuffer.
  eexists. split.
  - apply awaitData_short. unfold holding. cbn [position buffer set_position set_buffer].
    rewrite !length_app, length_encodeLE. simpl. lia.
  - intros later Hready. rewrite awaitData_ready by assumption.
    cbv beta zeta. now rewrite slice_unread.
Qed.

End LengthPrefixedReaders.

(** * Further properties of the engine *)

Section EngineProperties.

Context {Column Value Options : Type}.

Local Abbreviation Store := (@Store Column Value Options).
Local Abbreviation Parser := (@Parser Column Value Options).
Local Abbreviation Act := (@Act Column Value Options).
Local Abbreviation Result := (@Result Column Value Options).

Variable tokenParsers : JS.number -> option (@TokenParser Column Value Options).
Hypothesis registry : registry_ok tokenParsers.

Implicit Types (this s t : Store) (p q : Parser).

(** What a reader-built callback leaves alone: the window, the settings
    and the logs of errors and calls; it moves the cursor forward only and
    pushes at most one token, none when it suspends. *)
Lemma callback_frame (a : Act) :
  reader_built a ->
  forall s,
    let t := outcome_store (a s) in
    buffer t = buffer s /\ options t = options s /\ errorListener t = errorListener s /\
    errors t = errors s /\ dispatched t = dispatched s /\
    (position s <= position t)%nat /\
    match a s with
    | Returned _ => exists l, pushed t = pushed s ++ l /\ (List.length l <= 1)%nat
    | Suspended _ _ _ => pushed t = pushed s /\ colMetadata t = colMetadata s
    end.
Proof.
  induction 1 as [token a Ha | n callback k a Ha Hk Hbuilt IH]; intros s; cbv zeta.
  - rewrite Ha. destruct token as [token |]; cbn [doneParsing outcome_store].
    + conj_split; try (destruct token; reflexivity); try (destruct token; cbn; lia).
      exists [token]. split; [destruct token; reflexivity | simpl; lia].
    + conj_split; auto; try lia. exists []. split; [now rewrite app_nil_r | simpl; lia].
  - rewrite Ha. unfold awaitData.
    destruct (Nat.leb_spec (position s + n) (List.length (buffer s))) as [Hr | Hr].
    + rewrite Hk by assumption.
      specialize (IH (Buffer.slice (buffer s) (position s) (position s + n))
                     (set_position (position s + n) s)).
      cbv zeta in IH. cbn [buffer options errorListener errors dispatched position pushed
                           colMetadata set_position] in IH.
      destruct IH as (? & ? & ? & ? & ? & ? & IH). conj_split; auto; lia.
    + cbn [suspend outcome_store]. conj_split; auto; lia.
Qed.

(** The parser left by a reader-built callback run on a parser that was not
    suspended. *)
Lemma settle_frame (a : Act) s p :
  reader_built a -> cursor_ok s -> suspended p = false ->
  let q := settle (a s) p in
  parser_ok q /\
  buffer q = buffer s /\ options q = options s /\ errorListener q = errorListener s /\
  errors q = errors s /\ dispatched q = dispatched s /\
  (exists l, pushed q = pushed s ++ l /\ (List.length l <= 1)%nat /\
             (suspended q = true -> l = [])) /\
  (suspended q = true ->
   exists m c, next q = Some (RetryAwait m c) /\ (List.length (unread q) < m)%nat /\
               colMetadata q = colMetadata s).
Proof.
  intros Hb Hc Hs q.
  pose proof (parser_ok_settle a s p Hb Hc Hs) as Hok.
  pose proof (callback_frame a Hb s) as Hf. cbv zeta in Hf.
  pose proof (callback_extends a Hb [] s s Hc Hc (extends_refl s)) as He.
  subst q. rewrite <- (outcome_store_settle (a s) p) in Hf.
  destruct Hf as (Hbuf & Hopt & Hlis & Herr & Hdis & _ & Hpush).
  conj_split; auto.
  - destruct (a s) as [t | t m c]; cbn [settle suspended] in *.
    + destruct Hpush as (l & Hl & Hlen). exists l. conj_split; auto. congruence.
    + exists []. rewrite app_nil_r. conj_split; [apply Hpush | simpl; lia | reflexivity].
  - destruct (a s) as [t | t m c]; cbn [settle suspended next store] in *; [congruence |].
    intros _. exists m, c. destruct He as (_ & _ & Hm & _). conj_split; auto. apply Hpush.
Qed.

(** What holds of a parser and is kept by every round of the dispatch
    loop, holds after lines 104-110 of [_transform]. *)
Lemma parse_invariant (J : Parser -> Prop) :
  (forall p, parser_ok p -> J p -> suspended p = false ->
     (position p + 1 <= List.length (buffer p))%nat ->
     let type := Buffer.readUInt8 (buffer p) (position p) in
     let p' := with_store (set_position (position p + 1) p) p in
     match tokenParsers type with
     | Some tokenParser =>
         J (settle (tokenParser (colMetadata p) (options p) doneParsing
                      (log_dispatch (mkDispatch type (colMetadata p) (List.length (pushed p))) p'))
                   p')
     | None => J p' /\ J (with_store (log_error (UnknownType type) p') p')
     end) ->
  forall r, parser_ok r -> J r ->
    parser_ok (parser_of (parse_unless_suspended tokenParsers r)) /\
    J (parser_of (parse_unless_suspended tokenParsers r)).
Proof.
  intros Hstep r Hok HJ. unfold parse_unless_suspended.
  destruct (suspended r) eqn:Hs; cbn [negb parser_of]; [now split |].
  unfold parseTokens.
  apply (loop_invariant tokenParsers (fun q => parser_ok q /\ J q)); [| now split].
  clear r Hok HJ Hs. intros p (Hok & HJ) Hs Hr type p'.
  specialize (Hstep p Hok HJ Hs Hr). cbv zeta in Hstep. fold type p' in Hstep.
  assert (Hc' : cursor_ok p') by (apply cursor_ok_advance; exact Hr).
  assert (Hs' : suspended p' = false) by exact Hs.
  destruct (tokenParsers type) as [tokenParser |] eqn:Hreg.
  - split; [| exact Hstep].
    apply parser_ok_settle; auto. apply (registry _ _ Hreg).
  - destruct Hstep as (H1 & H2). repeat split; auto; unfold parser_ok; cbn; rewrite Hs;
      discriminate.
Qed.

Lemma append_ok (input : Buffer.t) p : parser_ok p -> parser_ok (append input p).
Proof.
  intros (_ & Ht). destruct (append_extends input p) as (Hc & _ & Hs & Hn & _).
  split; [exact Hc |]. rewrite Hs, Hn. exact Ht.
Qed.

Lemma unread_append (input : Buffer.t) p : unread (append input p) = unread p ++ input.
Proof. destruct (append_extends input p) as (_ & (Hu & _) & _). exact Hu. Qed.

Lemma buffer_append (input : Buffer.t) p :
  cursor_ok p -> buffer (append input p) = unread p ++ input.
Proof.
  intros Hc. rewrite <- unread_append. unfold unread.
  destruct (append_extends input p) as (_ & _ & _ & _ & ->). reflexivity.
Qed.

(** The parser after the chunk has joined the window and a pending
    continuation has been resumed. *)
Lemma resumed_frame (input : Buffer.t) p :
  parser_ok p ->
  let q0 := append input p in
  let r := if suspended q0 then resume q0 else q0 in
  parser_ok r /\
  buffer r = unread p ++ input /\ options r = options p /\
  errorListener r = errorListener p /\
  errors r = errors p /\ dispatched r = dispatched p /\
  (exists l, pushed r = pushed p ++ l /\ (List.length l <= 1)%nat /\
             (suspended r = true -> l = []) /\ (suspended p = false -> l = [])) /\
  (suspended r = true ->
   suspended p = true /\
   exists m c, next r = Some (RetryAwait m c) /\ (List.length (unread r) < m)%nat).
Proof.
  intros Hok q0 r.
  pose proof (append_ok input p Hok) as Hok0. fold q0 in Hok0.
  pose proof (buffer_append input p (proj1 Hok)) as Hbuf. fold q0 in Hbuf.
  destruct (append_extends input p) as (Hc0 & (_ & _ & Ho & Hl & Hp & He & Hd) & Hs0 & Hn0 & _).
  fold q0 in Hc0, Ho, Hl, Hp, He, Hd, Hs0, Hn0.
  subst r. destruct (suspended q0) eqn:Hs.
  - destruct Hok0 as (_ & Ht). destruct (Ht Hs) as (m & c & En & Hb).
    unfold resume. rewrite En. cbn [call next store].
    destruct (settle_frame (awaitData m c) q0 (mkParser q0 false (Some (RetryAwait m c)))
                Hb Hc0 eq_refl) as (Hok' & B & O & L & E & D & (l & Hl' & Hlen & Hnil) & Hshort).
    conj_split; auto; try congruence.
    + exists l. conj_split; auto; congruence.
    + intros Hr. split; [congruence |].
      destruct (Hshort Hr) as (m' & c' & ? & ? & _). now exists m', c'.
  - conj_split; auto; try congruence.
    exists []. rewrite app_nil_r. conj_split; auto.
Qed.

Lemma transform_bytes p (chunk : Buffer.t) :
  _transform tokenParsers p (Bytes chunk)
  = parse_unless_suspended tokenParsers
      (if suspended (append chunk p) then resume (append chunk p) else append chunk p).
Proof. reflexivity. Qed.

(** X12: after a chunk of bytes has been processed (returned or thrown),
    the window is exactly the bytes that were unread before followed by the
    chunk: token parsers never change it and consumed bytes of earlier chunks
    are gone, so the window never holds more than the previous unread tail
    plus the chunk; the cursor stays inside the window. *)
Theorem X12_window_after_chunk (this : Parser) (chunk : Buffer.t) :
  parser_ok this ->
  let after := parser_of (_transform tokenParsers this (Bytes chunk)) in
  buffer after = unread this ++ chunk /\
  List.length (buffer after) = (List.length (unread this) + List.length chunk)%nat /\
  (position after <= List.length (buffer after))%nat.
Proof.
  intros Hok after. subst after. rewrite transform_bytes.
  destruct (resumed_frame chunk this Hok) as (Hr & Hbuf & _). cbv zeta in Hr, Hbuf.
  set (r := if suspended (append chunk this) then resume (append chunk this)
            else append chunk this) in *.
  destruct (parse_invariant (fun q => buffer q = unread this ++ chunk)) with (r := r)
    as ((Hc & _) & HB); auto.
  - intros p Hp HJ Hs Hpos type p'.
    assert (Hc' : cursor_ok p') by (apply cursor_ok_advance; exact Hpos).
    destruct (tokenParsers type) as [tokenParser |] eqn:Hreg; [| now split].
    destruct (settle_frame _ (log_dispatch (mkDispatch type (colMetadata p)
                                              (List.length (pushed p))) p') p'
                (registry _ _ Hreg (colMetadata p) (options p)) Hc' Hs) as (_ & B & _).
    rewrite B. exact HJ.
  - split; [exact HB |]. split; [now rewrite HB, length_app | exact Hc].
Qed.

(** X13: between two chunks the parser is at rest: after any chunks that
    did not throw, starting from a parser at rest (a new parser is), either it
    is suspended on a read that needs more bytes than are unread, or it is not
    suspended and has consumed its window to the end.  No token that could be
    completed from the bytes received is left waiting. *)
Theorem X13_at_rest_between_chunks (this after : Parser) (inputs : list Input) :
  settled this ->
  feed tokenParsers this inputs = Normal after ->
  settled after.
Proof.
  revert this. induction inputs as [| input inputs IH]; intros this Hset E.
  - cbn in E. now injection E as <-.
  - cbn [feed] in E.
    destruct (_transform tokenParsers this input) as [q | e q] eqn:Et; [| discriminate].
    apply (IH q); [| exact E]. clear IH E.
    destruct input as [chunk |].
    + destruct Hset as (Hok & _). rewrite transform_bytes in Et.
      destruct (resumed_frame chunk this Hok) as (Hr & _ & _ & _ & _ & _ & _ & Hshort).
      cbv zeta in Hr, Hshort.
      set (r := if suspended (append chunk this) then resume (append chunk this)
                else append chunk this) in *.
      destruct (parse_invariant
                  (fun q => suspended q = true ->
                            exists m c, next q = Some (RetryAwait m c) /\
                                        (List.length (unread q) < m)%nat)) with (r := r)
        as (Hokq & HJ); auto.
      * intros p Hp HJ Hs Hpos type p'.
        assert (Hc' : cursor_ok p') by (apply cursor_ok_advance; exact Hpos).
        destruct (tokenParsers type) as [tokenParser |] eqn:Hreg.
        -- destruct (settle_frame _ (log_dispatch (mkDispatch type (colMetadata p)
                                                    (List.length (pushed p))) p') p'
                       (registry _ _ Hreg (colMetadata p) (options p)) Hc' Hs)
             as (_ & _ & _ & _ & _ & _ & _ & Hsh).
           intros Hq. destruct (Hsh Hq) as (m & c & ? & ? & _). now exists m, c.
        -- split; intros Hq; cbn in Hq; congruence.
      * intros Hq. now apply Hshort.
      * rewrite Et in Hokq, HJ. cbn [parser_of] in Hokq, HJ.
        split; [exact Hokq |].
        destruct (suspended q) eqn:Hsq; [now apply HJ |].
        unfold parse_unless_suspended in Et.
        destruct (suspended r) eqn:Hsr; cbn [negb] in Et.
        -- injection Et as <-. congruence.
        -- destruct (parseTokens_runs_to_end tokenParsers registry r q (proj1 Hr) Et);
             [congruence | assumption].
    + cbn [_transform] in Et. injection Et as <-.
      destruct Hset as ((Hc & Ht) & Hrest). unfold settled, parser_ok, with_store.
      cbn [store suspended next]. split; [split; assumption |]. exact Hrest.
Qed.

(** X14: a chunk of no bytes changes nothing on a parser at rest: the call
    returns, and the unread bytes, the tokens pushed, the column context, the
    suspended flag, the stored continuation and the logs are what they were;
    a suspended read is retried and suspends again. *)
Theorem X14_empty_chunk_changes_nothing (this : Parser) :
  settled this ->
  exists after,
    _transform tokenParsers this (Bytes []) = Normal after /\
    unread after = unread this /\ pushed after = pushed this /\
    colMetadata after = colMetadata this /\ errors after = errors this /\
    dispatched after = dispatched this /\
    suspended after = suspended this /\ next after = next this.
Proof.
  intros ((Hc & Ht) & Hrest). rewrite transform_bytes.
  destruct (append_extends [] this) as (Hc0 & (Hu & Hcm & _ & _ & Hp & He & Hd) & Hs0 & Hn0 & _).
  rewrite app_nil_r in Hu.
  destruct (suspended this) eqn:Hs.
  - destruct Hrest as (m & c & En & Hshort). rewrite Hs0.
    unfold resume. rewrite Hn0, En. cbn [call next store].
    rewrite awaitData_short_unread by (try assumption; rewrite Hu; exact Hshort).
    cbn [settle]. unfold parse_unless_suspended. cbn [suspended negb].
    eexists. split; [reflexivity |]. cbn [store suspended next]. conj_split; auto.
  - rewrite Hs0. unfold parse_unless_suspended. rewrite Hs0. cbn [negb].
    unfold parseTokens. rewrite loop_exhausted by (try assumption; congruence).
    eexists. split; [reflexivity |]. conj_split; auto.
Qed.

Lemma transform_grows p (input : Input) :
  parser_ok p ->
  let q := parser_of (_transform tokenParsers p input) in
  parser_ok q /\
  (exists l, pushed q = pushed p ++ l) /\ (exists l, errors q = errors p ++ l) /\
  (exists l, dispatched q = dispatched p ++ l).
Proof.
  intros Hok q. subst q. destruct input as [chunk |].
  - rewrite transform_bytes.
    destruct (resumed_frame chunk p Hok) as (Hr & _ & _ & _ & He & Hd & (l & Hl & _) & _).
    cbv zeta in Hr, He, Hd, Hl.
    set (r := if suspended (append chunk p) then resume (append chunk p)
              else append chunk p) in *.
    apply (parse_invariant
             (fun q => (exists l, pushed q = pushed p ++ l) /\
                       (exists l, errors q = errors p ++ l) /\
                       (exists l, dispatched q = dispatched p ++ l))); auto.
    + intros p0 Hp ((lp & Hlp) & (le & Hle) & (ld & Hld)) Hs Hpos type p'.
      assert (Hc' : cursor_ok p') by (apply cursor_ok_advance; exact Hpos).
      destruct (tokenParsers type) as [tokenParser |] eqn:Hreg.
      * destruct (settle_frame _ (log_dispatch (mkDispatch type (colMetadata p0)
                                                 (List.length (pushed p0))) p') p'
                    (registry _ _ Hreg (colMetadata p0) (options p0)) Hc' Hs)
          as (_ & _ & _ & _ & E & D & (l' & Hl' & _) & _).
        rewrite E, D, Hl'. cbn [log_dispatch pushed errors dispatched with_store store
                                  set_position p'].
        rewrite Hlp, Hle, Hld, <- !app_assoc. conj_split; eexists; reflexivity.
      * cbn. rewrite Hlp, Hle, Hld, <- !app_assoc.
        conj_split; first [eexists; reflexivity | exists lp; reflexivity
                          | exists le; reflexivity | exists ld; reflexivity].
    + rewrite He, Hd, Hl. conj_split; eauto; exists []; now rewrite app_nil_r.
  - cbn. destruct Hok as (Hc & Ht). split; [split; assumption |].
    conj_split; eauto; exists []; now rewrite app_nil_r.
Qed.


Lemma transform_events p (input : Input) :
  parser_ok p -> events_ok tokenParsers p ->
  parser_ok (parser_of (_transform tokenParsers p input)) /\
  events_ok tokenParsers (parser_of (_transform tokenParsers p input)).
Proof.
  intros Hok Hev. destruct input as [chunk |].
  - rewrite transform_bytes.
    destruct (resumed_frame chunk p Hok) as (Hr & _ & _ & _ & He & Hd & _).
    cbv zeta in Hr, He, Hd.
    set (r := if suspended (append chunk p) then resume (append chunk p)
              else append chunk p) in *.
    apply (parse_invariant (fun q => events_ok tokenParsers q)); auto.
    + intros p0 Hp (Herr & Hdis) Hs Hpos type p'.
      assert (Hc' : cursor_ok p') by (apply cursor_ok_advance; exact Hpos).
      destruct (tokenParsers type) as [tokenParser |] eqn:Hreg.
      * destruct (settle_frame _ (log_dispatch (mkDispatch type (colMetadata p0)
                                                 (List.length (pushed p0))) p') p'
                    (registry _ _ Hreg (colMetadata p0) (options p0)) Hc' Hs)
          as (_ & _ & _ & _ & E & D & _).
        unfold events_ok. rewrite E, D. split; [exact Herr |].
        cbn [log_dispatch dispatched]. apply Forall_app. split; [exact Hdis |].
        constructor; [| constructor]. cbn [d_type]. congruence.
      * split; [split; assumption |]. split; [| exact Hdis].
        cbn [with_store store log_error errors]. apply Forall_app. split; [exact Herr |].
        constructor; [exact Hreg | constructor].
    + unfold events_ok. now rewrite He, Hd.
  - cbn. destruct Hok as (Hc & Ht). split; [split; assumption | exact Hev].
Qed.

(** X16: an 'error' event is only ever raised for a tag that has no
    registered token parser, and a token parser is only ever called for the
    tag it is registered under: after any chunks, every error logged names an
    unregistered tag and every call logged a registered one. *)
Theorem X16_errors_for_unknown_tags_only (this : Parser) (inputs : list Input) :
  parser_ok this -> events_ok tokenParsers this ->
  let final := parser_of (feed tokenParsers this inputs) in
  Forall (fun e => tokenParsers (error_type e) = None) (errors final) /\
  Forall (fun d => tokenParsers (d_type d) <> None) (dispatched final).
Proof.
  revert this. induction inputs as [| input inputs IH]; intros this Hok Hev final; subst final.
  - exact Hev.
  - cbn [feed]. destruct (transform_events this input Hok Hev) as (Hq & Hevq).
    destruct (_transform tokenParsers this input) as [q | e q]; cbn [parser_of] in *.
    + now apply IH.
    + exact Hevq.
Qed.

Lemma transform_counts p (input : Input) (K : nat) :
  parser_ok p ->
  (List.length (pushed p) + pending p <= List.length (dispatched p) + K)%nat ->
  let q := parser_of (_transform tokenParsers p input) in
  parser_ok q /\
  (List.length (pushed q) + pending q
   <= List.length (dispatched q) + K + markers [input])%nat.
Proof.
  intros Hok HK q. subst q. destruct input as [chunk |].
  - rewrite transform_bytes. cbn [markers]. rewrite Nat.add_0_r.
    destruct (resumed_frame chunk p Hok)
      as (Hr & _ & _ & _ & _ & Hd & (l & Hl & Hlen & Hnil & Hnil') & Hsusp).
    cbv zeta in Hr, Hd, Hl, Hnil, Hsusp.
    set (r := if suspended (append chunk p) then resume (append chunk p)
              else append chunk p) in *.
    apply (parse_invariant
             (fun q => (List.length (pushed q) + pending q
                        <= List.length (dispatched q) + K)%nat)); auto.
    + intros p0 Hp HJ Hs Hpos type p'.
      assert (Hc' : cursor_ok p') by (apply cursor_ok_advance; exact Hpos).
      unfold pending in HJ. rewrite Hs in HJ.
      destruct (tokenParsers type) as [tokenParser |] eqn:Hreg.
      * destruct (settle_frame _ (log_dispatch (mkDispatch type (colMetadata p0)
                                                 (List.length (pushed p0))) p') p'
                    (registry _ _ Hreg (colMetadata p0) (options p0)) Hc' Hs)
          as (_ & _ & _ & _ & _ & D & (l' & Hl' & Hlen' & Hsl) & _).
        rewrite D, Hl'. cbn [log_dispatch pushed dispatched with_store store set_position p'].
        rewrite !length_app. cbn [List.length].
        match goal with
        | |- context [pending ?q] =>
            unfold pending; destruct (suspended q) eqn:Hq;
            [rewrite (Hsl Hq); simpl; lia | lia]
        end.
      * unfold pending. cbn. rewrite Hs. split; lia.
    + rewrite Hd, Hl, length_app. unfold pending in *.
      destruct (suspended r) eqn:Hsr.
      * rewrite (Hnil eq_refl). destruct (Hsusp eq_refl) as (Hsp & _).
        rewrite Hsp in HK. simpl. lia.
      * destruct (suspended p) eqn:Hsp; [lia |]. rewrite (Hnil' eq_refl). simpl. lia.
  - cbn [_transform parser_of markers]. destruct Hok as (Hc & Ht).
    split; [split; assumption |]. unfold pending in *. cbn. rewrite length_app. simpl. lia.
Qed.

(** X17: every token pushed comes from one call of a token parser or from
    one End-Of-Message marker, and a call gives at most one token: starting
    with a new parser (or one within a margin [K]), after any chunks the
    number of tokens pushed, plus one if a token parser is suspended, is at
    most the number of calls made plus the number of markers received.  No
    continuation is run to completion twice. *)
Theorem X17_one_token_per_call (this : Parser) (inputs : list Input) (K : nat) :
  parser_ok this ->
  (List.length (pushed this) + pending this <= List.length (dispatched this) + K)%nat ->
  let final := parser_of (feed tokenParsers this inputs) in
  (List.length (pushed final) + pending final
   <= List.length (dispatched final) + K + markers inputs)%nat.
Proof.
  revert this K. induction inputs as [| input inputs IH]; intros this K Hok HK final;
    subst final.
  - cbn. lia.
  - cbn [feed]. destruct (transform_counts this input K Hok HK) as (Hq & Hcount).
    cbv zeta in Hq, Hcount.
    assert (Hm : markers (input :: inputs) = (markers [input] + markers inputs)%nat)
      by (destruct input; reflexivity).
    destruct (_transform tokenParsers this input) as [q | e q]; cbn [parser_of] in *.
    + specialize (IH q (K + markers [input])%nat Hq). cbv zeta in IH. lia.
    + lia.
Qed.

(** ** End-Of-Message markers between chunks *)

Section Behind.

Variables front1 front2 : list (@Token Column Value).

Lemma callback_alike (a : Act) :
  reader_built a ->
  forall s1 s2, alike_behind front1 front2 s1 s2 ->
    match a s1, a s2 with
    | Returned t1, Returned t2 => alike_behind front1 front2 t1 t2
    | Suspended t1 m1 c1, Suspended t2 m2 c2 =>
        alike_behind front1 front2 t1 t2 /\ m1 = m2 /\ c1 = c2
    | _, _ => False
    end.
Proof.
  induction 1 as [token a Ha | n callback k a Ha Hk Hbuilt IH]; intros s1 s2 Hal.
  - rewrite !Ha. destruct Hal as (B & P & C & O & L & E & common & H1 & H2).
    destruct token as [token |]; cbn [doneParsing].
    + unfold alike_behind.
      destruct token;
        cbn [push set_colMetadata buffer position colMetadata options errorListener
             errors pushed];
        (conj_split; auto;
         eexists; rewrite H1, H2, <- !app_assoc; split; reflexivity).
    + unfold alike_behind. conj_split; auto. now exists common.
  - rewrite !Ha. unfold awaitData. pose proof Hal as (B & P & _).
    rewrite <- B, <- P.
    destruct (Nat.leb_spec (position s1 + n) (List.length (buffer s1))) as [Hr | Hr].
    + rewrite (Hk s1) by assumption. rewrite (Hk s2) by (rewrite <- B, <- P; assumption).
      rewrite <- B, <- P. apply IH.
      destruct Hal as (_ & _ & C & O & L & E & Hcommon).
      unfold alike_behind. cbn [set_position buffer position colMetadata options
                                errorListener errors pushed].
      conj_split; auto.
    + cbn [suspend]. conj_split; auto.
Qed.

Lemma settle_alike (a : Act) s1 s2 p1 p2 :
  reader_built a -> alike_behind front1 front2 s1 s2 ->
  suspended p1 = suspended p2 -> next p1 = next p2 ->
  parsers_alike_behind front1 front2 (settle (a s1) p1) (settle (a s2) p2).
Proof.
  intros Hb Hal Hs Hn. pose proof (callback_alike a Hb s1 s2 Hal) as H.
  destruct (a s1) as [t1 | t1 m1 c1], (a s2) as [t2 | t2 m2 c2]; try contradiction.
  - unfold parsers_alike_behind. cbn. auto.
  - destruct H as (H & -> & ->). unfold parsers_alike_behind. cbn. auto.
Qed.

Lemma loop_alike (fuel : nat) :
  forall p1 p2,
    parser_ok p1 -> parser_ok p2 -> parsers_alike_behind front1 front2 p1 p2 ->
    results_alike_behind front1 front2
      (parseTokens_loop tokenParsers fuel p1) (parseTokens_loop tokenParsers fuel p2).
Proof.
  induction fuel as [| fuel IH]; intros p1 p2 Hok1 Hok2 Hal; [exact Hal |].
  cbn [parseTokens_loop]. pose proof Hal as ((B & P & C & O & L & E & Hc) & Hs & Hn).
  rewrite <- Hs, <- B, <- P.
  destruct (suspended p1) eqn:Hs1; [exact Hal |].
  destruct (Nat.leb_spec (position p1 + 1) (List.length (buffer p1))) as [Hr | Hr];
    [| exact Hal].
  cbn [negb andb with_store store colMetadata options pushed set_position].
  rewrite <- C, <- O.
  assert (Hc1 : cursor_ok (set_position (position p1 + 1) p1))
    by (apply cursor_ok_advance; exact Hr).
  assert (Hc2 : cursor_ok (set_position (position p1 + 1) p2))
    by (unfold cursor_ok; cbn; rewrite <- B; exact Hr).
  assert (Hal' : forall d1 d2,
             alike_behind front1 front2
               (log_dispatch d1 (set_position (position p1 + 1) p1))
               (log_dispatch d2 (set_position (position p1 + 1) p2)))
    by (intros; unfold alike_behind; cbn; conj_split; auto).
  destruct (tokenParsers (Buffer.readUInt8 (buffer p1) (position p1)))
    as [tokenParser |] eqn:Hreg.
  - pose proof (registry _ _ Hreg (colMetadata p1) (options p1)) as Hb.
    apply IH.
    + apply parser_ok_settle; auto.
    + apply parser_ok_settle; auto; congruence.
    + apply settle_alike; auto; cbn; congruence.
  - unfold emit_error. cbn [errorListener set_position]. rewrite <- L.
    destruct (errorListener p1) eqn:HL.
    + apply IH.
      * split; [exact Hc1 | cbn; rewrite Hs1; discriminate].
      * split; [exact Hc2 | cbn; rewrite <- Hs; discriminate].
      * unfold parsers_alike_behind, alike_behind. cbn. rewrite E.
        conj_split; auto; congruence.
    + cbn. split; [reflexivity |].
      unfold parsers_alike_behind, alike_behind. cbn. conj_split; auto; congruence.
Qed.

Lemma transform_alike p1 p2 (input : Input) :
  parser_ok p1 -> parser_ok p2 -> parsers_alike_behind front1 front2 p1 p2 ->
  results_alike_behind front1 front2
    (_transform tokenParsers p1 input) (_transform tokenParsers p2 input).
Proof.
  intros Hok1 Hok2 Hal. destruct input as [chunk |].
  - rewrite !transform_bytes.
    pose proof Hal as ((B & P & C & O & L & E & Hc) & Hs & Hn).
    assert (Ha : parsers_alike_behind front1 front2 (append chunk p1) (append chunk p2)).
    { unfold parsers_alike_behind, alike_behind, append, with_store. rewrite <- B, <- P.
      destruct (position p1 =? List.length (buffer p1))%nat; cbn; conj_split; auto. }
    pose proof (append_ok chunk p1 Hok1) as Ho1.
    pose proof (append_ok chunk p2 Hok2) as Ho2.
    set (q1 := append chunk p1) in *. set (q2 := append chunk p2) in *.
    assert (Hr : parser_ok (if suspended q1 then resume q1 else q1) /\
                 parser_ok (if suspended q2 then resume q2 else q2) /\
                 parsers_alike_behind front1 front2
                   (if suspended q1 then resume q1 else q1)
                   (if suspended q2 then resume q2 else q2)).
    { destruct Ha as (Hst & Hsq & Hnq). rewrite <- Hsq.
      destruct (suspended q1) eqn:Hs1;
        [| unfold parsers_alike_behind; conj_split; auto; congruence].
      destruct Ho1 as (Hc1 & Ht1). destruct (Ht1 Hs1) as (m & c & En & Hb).
      unfold resume. rewrite <- Hnq, En. cbn [call next store].
      conj_split.
      - apply parser_ok_settle; auto.
      - apply parser_ok_settle; auto; apply Ho2.
      - apply settle_alike; auto. }
    destruct Hr as (Hr1 & Hr2 & Hra).
    set (r1 := if suspended q1 then resume q1 else q1) in *.
    set (r2 := if suspended q2 then resume q2 else q2) in *.
    unfold parse_unless_suspended. pose proof Hra as ((B' & P' & _) & Hs' & _).
    rewrite <- Hs'. destruct (suspended r1); cbn [negb]; [exact Hra |].
    unfold parseTokens. rewrite <- B', <- P'. now apply loop_alike.
  - cbn [_transform results_alike_behind].
    destruct Hal as ((B & P & C & O & L & E & common & H1 & H2) & Hs & Hn).
    unfold parsers_alike_behind, alike_behind. cbn. conj_split; auto.
    exists (common ++ [EOM]). rewrite H1, H2, <- !app_assoc. split; reflexivity.
Qed.

Lemma results_alike_ok (r1 r2 : Result) p1 p2 (input : Input) :
  parser_ok p1 -> parser_ok p2 ->
  r1 = _transform tokenParsers p1 input -> r2 = _transform tokenParsers p2 input ->
  parser_ok (parser_of r1) /\ parser_ok (parser_of r2).
Proof.
  intros H1 H2 -> ->. split; apply transform_grows; assumption.
Qed.

Lemma feed_alike (inputs : list Input) :
  forall p1 p2,
    parser_ok p1 -> parser_ok p2 -> parsers_alike_behind front1 front2 p1 p2 ->
    results_alike_behind front1 front2
      (feed tokenParsers p1 inputs) (feed tokenParsers p2 inputs).
Proof.
  induction inputs as [| input inputs IH]; intros p1 p2 Hok1 Hok2 Hal; [exact Hal |].
  cbn [feed].
  pose proof (transform_alike p1 p2 input Hok1 Hok2 Hal) as Ht.
  destruct (results_alike_ok _ _ p1 p2 input Hok1 Hok2 eq_refl eq_refl) as (Hq1 & Hq2).
  destruct (_transform tokenParsers p1 input) as [q1 | e1 q1],
           (_transform tokenParsers p2 input) as [q2 | e2 q2]; try contradiction.
  - now apply IH.
  - exact Ht.
Qed.

End Behind.

Lemma feed_app (before after : list Input) p q :
  feed tokenParsers p before = Normal q ->
  feed tokenParsers p (before ++ after) = feed tokenParsers q after.
Proof.
  revert p. induction before as [| input before IH]; intros p E.
  - cbn in E. now injection E as <-.
  - cbn [feed app] in *.
    destruct (_transform tokenParsers p input) as [r | e r]; [now apply IH | discriminate].
Qed.

Lemma feed_ok (inputs : list Input) p :
  parser_ok p -> parser_ok (parser_of (feed tokenParsers p inputs)).
Proof.
  revert p. induction inputs as [| input inputs IH]; intros p Hok; [exact Hok |].
  cbn [feed]. pose proof (transform_grows p input Hok) as (Hq & _). cbv zeta in Hq.
  destruct (_transform tokenParsers p input) as [q | e q]; cbn [parser_of] in *; auto.
Qed.

(** X18: an End-Of-Message marker between two chunks adds exactly one EOM
    token, at the point of the token stream where it arrives, and changes
    nothing else: with the marker or without it, the chunks that follow end
    the same way (returned or the same error thrown), push the same further
    tokens and leave the same window, cursor, column context, errors,
    suspended flag and stored continuation.  A token cut in two by a marker
    is completed from the bytes on both sides of it. *)
Theorem X18_marker_between_chunks (this middle : Parser) (before following : list Input) :
  parser_ok this ->
  feed tokenParsers this before = Normal middle ->
  let without := feed tokenParsers this (before ++ following) in
  let marked := feed tokenParsers this (before ++ EndOfMessageMarker :: following) in
  (forall e, (exists p, without = Throw e p) <-> (exists p, marked = Throw e p)) /\
  exists more,
    pushed (parser_of without) = pushed middle ++ more /\
    pushed (parser_of marked) = pushed middle ++ EOM :: more /\
    buffer (parser_of marked) = buffer (parser_of without) /\
    position (parser_of marked) = position (parser_of without) /\
    colMetadata (parser_of marked) = colMetadata (parser_of without) /\
    errors (parser_of marked) = errors (parser_of without) /\
    suspended (parser_of marked) = suspended (parser_of without) /\
    next (parser_of marked) = next (parser_of without).
Proof.
  intros Hok Hmid. cbv zeta. rewrite !(feed_app _ _ _ _ Hmid).
  pose proof (feed_ok before this Hok) as Hm. rewrite Hmid in Hm. cbn [parser_of] in Hm.
  cbn [feed _transform].
  set (marked := with_store (push EOM middle) middle).
  assert (Hm' : parser_ok marked) by exact Hm.
  assert (Hal : parsers_alike_behind (pushed middle ++ [EOM]) (pushed middle) marked middle).
  { unfold parsers_alike_behind, alike_behind. cbn. conj_split; auto.
    exists []. now rewrite !app_nil_r. }
  pose proof (feed_alike _ _ following marked middle Hm' Hm Hal) as H.
  destruct (feed tokenParsers marked following) as [q1 | e1 q1],
           (feed tokenParsers middle following) as [q2 | e2 q2]; try contradiction;
    cbn [results_alike_behind parser_of] in *.
  - destruct H as ((B & P & C & O & L & E & common & H1 & H2) & Hs & Hn). split.
    + intros e. split; intros (p & Hp); discriminate.
    + exists common. rewrite H1, H2, <- app_assoc. conj_split; auto.
  - destruct H as (-> & (B & P & C & O & L & E & common & H1 & H2) & Hs & Hn). split.
    + intros e. split; intros (p & Hp); injection Hp as -> _; eauto.
    + exists common. rewrite H1, H2, <- app_assoc. conj_split; auto.
Qed.

End EngineProperties.

(** * The further properties on concrete input *)

Lemma example_fresh_settled : settled Example.fresh.
Proof. split; [exact (proj1 example_fresh_ok) | reflexivity]. Qed.

Lemma example_fresh_events : events_ok Example.tokenParsers Example.fresh.
Proof. split; constructor. Qed.

Lemma X1_unsigned_little_endian_roundtrip_witness :
  0 <= 200 /\
  readUInt8 Example.report (holding [x09] (encodeLE 1 200) [x07] Example.fresh)
  = Example.report 200 (set_position 2 (holding [x09] (encodeLE 1 200) [x07] Example.fresh)) /\
  readUInt16LE Example.report (holding [x09] (encodeLE 2 200) [x07] Example.fresh)
  = Example.report 200 (set_position 3 (holding [x09] (encodeLE 2 200) [x07] Example.fresh)) /\
  readUInt32LE Example.report (holding [x09] (encodeLE 4 200) [x07] Example.fresh)
  = Example.report 200 (set_position 5 (holding [x09] (encodeLE 4 200) [x07] Example.fresh)).
Proof.
  split; [lia |].
  pose proof (X1_unsigned_little_endian_roundtrip 200 [x09] [x07] Example.fresh
                Example.report ltac:(lia)) as (H8 & H16 & H32).
  split; [exact (H8 eq_refl) |]. split; [exact (H16 eq_refl) | exact (H32 eq_refl)].
Defined.

Lemma X2_unsigned_big_endian_roundtrip_witness :
  0 <= 4660 /\
  readUInt16BE Example.report (holding [x09] (encodeBE 2 4660) [x07] Example.fresh)
  = Example.report 4660 (set_position 3 (holding [x09] (encodeBE 2 4660) [x07] Example.fresh)) /\
  readUInt32BE Example.report (holding [x09] (encodeBE 4 4660) [x07] Example.fresh)
  = Example.report 4660 (set_position 5 (holding [x09] (encodeBE 4 4660) [x07] Example.fresh)).
Proof.
  split; [lia |].
  pose proof (X2_unsigned_big_endian_roundtrip 4660 [x09] [x07] Example.fresh
                Example.report ltac:(lia)) as (H16 & H32).
  split; [exact (H16 eq_refl) | exact (H32 eq_refl)].
Defined.

Lemma X5_readUInt64BE_roundtrip_witness :
  0 <= 1099511627781 <= 2 ^ 53 /\
  readUInt64BE Example.report (holding [x09] (encodeBE 8 1099511627781) [x07] Example.fresh)
  = Example.report 1099511627781
      (set_position 9 (holding [x09] (encodeBE 8 1099511627781) [x07] Example.fresh)).
Proof.
  split; [lia |].
  exact (X5_readUInt64BE_roundtrip 1099511627781 [x09] [x07] Example.fresh
           Example.report ltac:(lia)).
Defined.

(** -5 is read back; 5 comes back as -5. *)
Lemma X6_readInt64BE_value_witness :
  (- 2 ^ 53 <= -5 <= 2 ^ 53 /\
   readInt64BE Example.report (holding [] (encodeBE 8 (twos 64 (-5))) [] Example.fresh)
   = Example.report (-5)
       (set_position 8 (holding [] (encodeBE 8 (twos 64 (-5))) [] Example.fresh))) /\
  (- 2 ^ 53 <= 5 <= 2 ^ 53 /\
   readInt64BE Example.report (holding [] (encodeBE 8 (twos 64 5)) [] Example.fresh)
   = Example.report (-5)
       (set_position 8 (holding [] (encodeBE 8 (twos 64 5)) [] Example.fresh))).
Proof.
  split; (split; [lia |]).
  - exact (X6_readInt64BE_value (-5) [] [] Example.fresh Example.report ltac:(lia)).
  - exact (X6_readInt64BE_value 5 [] [] Example.fresh Example.report ltac:(lia)).
Defined.

(** -5 is read back; 2^39 + 5, whose bit 39 is set, is read back; 5 comes
    back as -5. *)
Lemma X7_readInt64LE_value_witness :
  (- 2 ^ 53 <= -5 <= 2 ^ 53 /\
   readInt64LE Example.report (holding [] (encodeLE 8 (twos 64 (-5))) [] Example.fresh)
   = Example.report (-5)
       (set_position 8 (holding [] (encodeLE 8 (twos 64 (-5))) [] Example.fresh))) /\
  (- 2 ^ 53 <= 549755813893 <= 2 ^ 53 /\
   readInt64LE Example.report (holding [] (encodeLE 8 (twos 64 549755813893)) [] Example.fresh)
   = Example.report 549755813893
       (set_position 8 (holding [] (encodeLE 8 (twos 64 549755813893)) [] Example.fresh))) /\
  (- 2 ^ 53 <= 5 <= 2 ^ 53 /\
   readInt64LE Example.report (holding [] (encodeLE 8 (twos 64 5)) [] Example.fresh)
   = Example.report (-5)
       (set_position 8 (holding [] (encodeLE 8 (twos 64 5)) [] Example.fresh))).
Proof.
  split; [| split]; (split; [lia |]).
  - exact (X7_readInt64LE_value (-5) [] [] Example.fresh Example.report ltac:(lia)).
  - exact (X7_readInt64LE_value 549755813893 [] [] Example.fresh Example.report ltac:(lia)).
  - exact (X7_readInt64LE_value 5 [] [] Example.fresh Example.report ltac:(lia)).
Defined.

Lemma X10_length_prefixed_text_roundtrip_witness :
  ucs2_text (JS.of_ascii "ABC") /\
  (let s := holding [x09] (encodeLE 1 3 ++ encode_ucs2 (JS.of_ascii "ABC")) [x07]
              Example.fresh in
   readBVarChar Example.reportText s
   = Example.reportText (JS.of_ascii "ABC") (set_position 8 s)) /\
  (let s := holding [x09] (encodeLE 2 3 ++ encode_ucs2 (JS.of_ascii "ABC")) [x07]
              Example.fresh in
   readUsVarChar Example.reportText s
   = Example.reportText (JS.of_ascii "ABC") (set_position 9 s)).
Proof.
  assert (Ht : ucs2_text (JS.of_ascii "ABC")) by (repeat constructor; discriminate).
  split; [exact Ht |].
  pose proof (X10_length_prefixed_text_roundtrip (JS.of_ascii "ABC") [x09] [x07]
                Example.fresh Example.reportText Ht) as (H8 & H16).
  split; [exact (H8 eq_refl) | exact (H16 eq_refl)].
Defined.

(** A field of 4 bytes of which 2 have arrived. *)
Lemma X11_readBVarByte_partial_field_witness :
  Z.of_nat 4 < 2 ^ 8 /\ (List.length [x01; x02] < 4)%nat /\
  let s := holding [x09] (encodeLE 1 (Z.of_nat 4) ++ [x01; x02]) [] Example.fresh in
  exists k,
    readBVarByte (fun data => doneParsing (Some (COLMETADATA data))) s
    = Suspended (set_position 2 s) 4 k /\
    forall later : Store,
      (position later + 4 <= List.length (buffer later))%nat ->
      awaitData 4 k later
      = doneParsing (Some (COLMETADATA (firstn 4 (unread later))))
          (set_position (position later + 4) later).
Proof.
  split; [reflexivity |]. split; [cbn; lia |].
  exact (X11_readBVarByte_partial_field 4 [x01; x02] [x09] Example.fresh
           (fun data => doneParsing (Some (COLMETADATA data)))
           eq_refl ltac:(cbn; lia)).
Defined.

Lemma X12_window_after_chunk_witness :
  let chunk := [xfd; x01; x00] in
  let after := parser_of (_transform Example.tokenParsers Example.fresh (Bytes chunk)) in
  registry_ok Example.tokenParsers /\ parser_ok Example.fresh /\
  buffer after = unread Example.fresh ++ chunk /\
  List.length (buffer after) = (List.length (unread Example.fresh) + List.length chunk)%nat /\
  (position after <= List.length (buffer after))%nat.
Proof.
  cbv zeta. split; [exact example_registry_ok |].
  split; [exact (proj1 example_fresh_ok) |].
  exact (X12_window_after_chunk Example.tokenParsers example_registry_ok Example.fresh
           [xfd; x01; x00] (proj1 example_fresh_ok)).
Defined.

(** The chunk ends inside the status field of a DONE token. *)
Lemma X13_at_rest_between_chunks_witness :
  let inputs := [Bytes [xfd; x01; x00; x02]] in
  let after := parser_of (feed Example.tokenParsers Example.fresh inputs) in
  registry_ok Example.tokenParsers /\ settled Example.fresh /\
  feed Example.tokenParsers Example.fresh inputs = Normal after /\
  settled after /\ suspended after = true.
Proof.
  cbv zeta. split; [exact example_registry_ok |].
  split; [exact example_fresh_settled |]. split; [reflexivity |].
  split; [| reflexivity].
  exact (X13_at_rest_between_chunks Example.tokenParsers example_registry_ok Example.fresh
           _ [Bytes [xfd; x01; x00; x02]] example_fresh_settled eq_refl).
Defined.

Lemma X14_empty_chunk_changes_nothing_witness :
  settled Example.fresh /\
  exists after,
    _transform Example.tokenParsers Example.fresh (Bytes []) = Normal after /\
    unread after = unread Example.fresh /\ pushed after = pushed Example.fresh /\
    colMetadata after = colMetadata Example.fresh /\ errors after = errors Example.fresh /\
    dispatched after = dispatched Example.fresh /\
    suspended after = suspended Example.fresh /\ next after = next Example.fresh.
Proof.
  split; [exact example_fresh_settled |].
  exact (X14_empty_chunk_changes_nothing Example.tokenParsers Example.fresh
           example_fresh_settled).
Defined.


(** Tag 0 is unknown and reported, tag 0xFD is known and dispatched. *)
Lemma X16_errors_for_unknown_tags_only_witness :
  let this := on_error Example.fresh in
  let inputs := [Bytes [x00; xfd; x01; x00; x02; x00; x03; x00; x00; x00]] in
  let final := parser_of (feed Example.tokenParsers this inputs) in
  registry_ok Example.tokenParsers /\ parser_ok this /\
  events_ok Example.tokenParsers this /\
  Forall (fun e => Example.tokenParsers (error_type e) = None) (errors final) /\
  Forall (fun d => Example.tokenParsers (d_type d) <> None) (dispatched final) /\
  errors final = [UnknownType 0].
Proof.
  cbv zeta. split; [exact example_registry_ok |].
  split; [exact (proj1 (proj2 example_fresh_ok)) |].
  assert (He : events_ok Example.tokenParsers (on_error Example.fresh))
    by (split; constructor).
  split; [exact He |].
  pose proof (X16_errors_for_unknown_tags_only Example.tokenParsers example_registry_ok
                (on_error Example.fresh)
                [Bytes [x00; xfd; x01; x00; x02; x00; x03; x00; x00; x00]]
                (proj1 (proj2 example_fresh_ok)) He) as (H1 & H2).
  split; [exact H1 |]. split; [exact H2 | reflexivity].
Defined.

Lemma X17_one_token_per_call_witness :
  let inputs := [Bytes [x81; x02; x07; x08; xfd; x01];
                 EndOfMessageMarker;
                 Bytes [x00; x02; x00; x03; x00; x00; x00]] in
  let final := parser_of (feed Example.tokenParsers Example.fresh inputs) in
  registry_ok Example.tokenParsers /\ parser_ok Example.fresh /\
  (List.length (pushed Example.fresh) + pending Example.fresh
   <= List.length (dispatched Example.fresh) + 0)%nat /\
  (List.length (pushed final) + pending final
   <= List.length (dispatched final) + 0 + markers inputs)%nat.
Proof.
  cbv zeta. split; [exact example_registry_ok |].
  split; [exact (proj1 example_fresh_ok) |].
  split; [cbn; lia |].
  exact (X17_one_token_per_call Example.tokenParsers example_registry_ok Example.fresh
           _ 0%nat (proj1 example_fresh_ok) ltac:(cbn; lia)).
Defined.

(** The marker arrives inside a DONE token, after a COLMETADATA token. *)
Lemma X18_marker_between_chunks_witness :
  let before := [Bytes [x81; x02; x07; x08; xfd; x01]] in
  let following := [Bytes [x00; x02; x00; x03; x00; x00; x00]] in
  let middle := parser_of (feed Example.tokenParsers Example.fresh before) in
  let without := feed Example.tokenParsers Example.fresh (before ++ following) in
  let marked :=
    feed Example.tokenParsers Example.fresh (before ++ EndOfMessageMarker :: following) in
  registry_ok Example.tokenParsers /\ parser_ok Example.fresh /\
  feed Example.tokenParsers Example.fresh before = Normal middle /\
  pushed (parser_of without) = [COLMETADATA [x07; x08]; DONE] /\
  pushed (parser_of marked) = [COLMETADATA [x07; x08]; EOM; DONE] /\
  exists more,
    pushed (parser_of without) = pushed middle ++ more /\
    pushed (parser_of marked) = pushed middle ++ EOM :: more /\
    buffer (parser_of marked) = buffer (parser_of without) /\
    position (parser_of marked) = position (parser_of without) /\
    colMetadata (parser_of marked) = colMetadata (parser_of without) /\
    errors (parser_of marked) = errors (parser_of without) /\
    suspended (parser_of marked) = suspended (parser_of without) /\
    next (parser_of marked) = next (parser_of without).
Proof.
  cbv zeta.
  assert (Hmid : feed Example.tokenParsers Example.fresh
                   [Bytes [x81; x02; x07; x08; xfd; x01]]
                 = Normal (parser_of (feed Example.tokenParsers Example.fresh
                                        [Bytes [x81; x02; x07; x08; xfd; x01]])))
    by (vm_compute; reflexivity).
  pose proof (X18_marker_between_chunks Example.tokenParsers example_registry_ok
                Example.fresh _
                [Bytes [x81; x02; x07; x08; xfd; x01]]
                [Bytes [x00; x02; x00; x03; x00; x00; x00]]
                (proj1 example_fresh_ok) Hmid) as H.
  cbv zeta in H.
  split; [exact example_registry_ok |].
  split; [exact (proj1 example_fresh_ok) |].
  split; [exact Hmid |].
  split; [vm_compute; reflexivity |]. split; [vm_compute; reflexivity |].
  exact (proj2 H).
Defined.

Lemma X3_signed_little_endian_roundtrip_witness :
  readInt8 Example.report (holding [x09] (encodeLE 1 (twos 8 (-100))) [x07] Example.fresh)
  = Example.report (-100)
      (set_position 2 (holding [x09] (encodeLE 1 (twos 8 (-100))) [x07] Example.fresh)) /\
  readInt16LE Example.report (holding [x09] (encodeLE 2 (twos 16 (-100))) [x07] Example.fresh)
  = Example.report (-100)
      (set_position 3 (holding [x09] (encodeLE 2 (twos 16 (-100))) [x07] Example.fresh)) /\
  readInt32LE Example.report (holding [x09] (encodeLE 4 (twos 32 (-100))) [x07] Example.fresh)
  = Example.report (-100)
      (set_position 5 (holding [x09] (encodeLE 4 (twos 32 (-100))) [x07] Example.fresh)).
Proof.
  pose proof (X3_signed_little_endian_roundtrip (-100) [x09] [x07] Example.fresh
                Example.report) as (H8 & H16 & H32).
  split; [exact (H8 ltac:(lia)) |].
  split; [exact (H16 ltac:(lia)) | exact (H32 ltac:(lia))].
Defined.

Lemma X4_signed_big_endian_roundtrip_witness :
  readInt16BE Example.report (holding [x09] (encodeBE 2 (twos 16 (-100))) [x07] Example.fresh)
  = Example.report (-100)
      (set_position 3 (holding [x09] (encodeBE 2 (twos 16 (-100))) [x07] Example.fresh)) /\
  readInt32BE Example.report (holding [x09] (encodeBE 4 (twos 32 (-100))) [x07] Example.fresh)
  = Example.report (-100)
      (set_position 5 (holding [x09] (encodeBE 4 (twos 32 (-100))) [x07] Example.fresh)).
Proof.
  pose proof (X4_signed_big_endian_roundtrip (-100) [x09] [x07] Example.fresh
                Example.report) as (H16 & H32).
  split; [exact (H16 ltac:(lia)) | exact (H32 ltac:(lia))].
Defined.

Lemma X8_narrow_readers_decode_witness :
  readUInt24LE Example.report (holding [x09] [x56; x34; x12] [x07] Example.fresh)
  = Example.report 1193046 (set_position 4 (holding [x09] [x56; x34; x12] [x07] Example.fresh)) /\
  readUInt40LE Example.report (holding [x09] [x05; x00; x00; x00; x80] [x07] Example.fresh)
  = Example.report 549755813893
      (set_position 6 (holding [x09] [x05; x00; x00; x00; x80] [x07] Example.fresh)).
Proof.
  split.
  - exact (proj1 (proj1 (X8_narrow_readers_decode [x56; x34; x12] [x09] [x07]
                           Example.fresh Example.report) eq_refl)).
  - exact (proj1 (proj1 (proj2 (X8_narrow_readers_decode [x05; x00; x00; x00; x80]
                                  [x09] [x07] Example.fresh Example.report)) eq_refl)).
Defined.

Lemma X9_length_prefixed_binary_roundtrip_witness :
  let report := fun data => doneParsing (Some (COLMETADATA data)) in
  let data := [x0a; x0b; x0c] in
  readBuffer 3 report (holding [x09] data [x07] Example.fresh)
  = report data (set_position 4 (holding [x09] data [x07] Example.fresh)) /\
  readBVarByte report (holding [x09] (x03 :: data) [x07] Example.fresh)
  = report data (set_position 5 (holding [x09] (x03 :: data) [x07] Example.fresh)) /\
  readUsVarByte report (holding [x09] (x03 :: x00 :: data) [x07] Example.fresh)
  = report data (set_position 6 (holding [x09] (x03 :: x00 :: data) [x07] Example.fresh)).
Proof.
  cbv zeta.
  pose proof (X9_length_prefixed_binary_roundtrip [x0a; x0b; x0c] [x09] [x07]
                Example.fresh (fun data => doneParsing (Some (COLMETADATA data))))
    as (H0 & H8 & H16).
  split; [exact H0 |]. split; [exact (H8 eq_refl) | exact (H16 eq_refl)].
Defined.
